(** * AiNiee TextProcessor: the reversible text-masking pipeline

    A shallow embedding of [ModuleFolders/TextProcessor/TextProcessor.py]
    and the properties of its mask / restore codec.

    Python strings are sequences of Unicode code points, so a [str] is a
    list of code points ([N]); a Python [dict] is an insertion-ordered
    association list.  The fixed regular expressions of the class are
    written out as the functions they compute; user-supplied patterns
    are values of the record [Pattern] that carry their matching
    functions, as a compiled [re.Pattern] object does. *)

From Stdlib Require Import String Ascii DecimalString.
From Stdlib Require DecimalNat.
From Stdlib Require Import List NArith Arith Bool Lia.
Import ListNotations.

Set Implicit Arguments.

(** ** Python strings *)

Module Py.

Definition char := N.
Definition str := list char.

(** Literals: [u "..."] decodes the UTF-8 bytes of a Rocq string into
    code points and reads the escapes backslash-n, backslash-r,
    backslash-t and a doubled backslash as Python's string syntax does. *)
Fixpoint utf8_decode (bs : list N) : str :=
  match bs with
  | [] => []
  | b :: r =>
    if (b =? 92)%N then
      match r with
      | e :: r' =>
        if (e =? 110)%N then 10%N :: utf8_decode r'
        else if (e =? 114)%N then 13%N :: utf8_decode r'
        else if (e =? 116)%N then 9%N :: utf8_decode r'
        else if (e =? 92)%N then 92%N :: utf8_decode r'
        else b :: utf8_decode r
      | [] => [b]
      end
    else if (b <? 128)%N then b :: utf8_decode r
    else if (b <? 224)%N then
      match r with
      | b1 :: r' => ((b - 192) * 64 + (b1 - 128))%N :: utf8_decode r'
      | _ => []
      end
    else if (b <? 240)%N then
      match r with
      | b1 :: b2 :: r' =>
        ((b - 224) * 4096 + (b1 - 128) * 64 + (b2 - 128))%N :: utf8_decode r'
      | _ => []
      end
    else
      match r with
      | b1 :: b2 :: b3 :: r' =>
        ((b - 240) * 262144 + (b1 - 128) * 4096 + (b2 - 128) * 64 + (b3 - 128))%N
          :: utf8_decode r'
      | _ => []
      end
  end.

Definition u (s : string) : str :=
  utf8_decode (map N_of_ascii (list_ascii_of_string s)).

Fixpoint str_eqb (a b : str) : bool :=
  match a, b with
  | [], [] => true
  | x :: a', y :: b' => (x =? y)%N && str_eqb a' b'
  | _, _ => false
  end.

(** *** Character classes

    [str.isspace], [str.strip] and the regex class [\s] share one table
    (Py_UNICODE_ISSPACE); [\d] is [str.isdecimal]; [str.isdigit] is a
    larger table.  The ranges are those of Unicode 14.0 (CPython 3.11). *)
Definition in_ranges (c : char) (rs : list (N * N)) : bool :=
  existsb (fun r => (fst r <=? c)%N && (c <=? snd r)%N) rs.

Definition space_ranges : list (N * N) :=
  [(9, 13); (28, 32); (133, 133); (160, 160); (5760, 5760); (8192, 8202);
   (8232, 8233); (8239, 8239); (8287, 8287); (12288, 12288)]%N.

Definition decimal_ranges : list (N * N) :=
  [(48, 57); (1632, 1641); (1776, 1785); (1984, 1993); (2406, 2415);
   (2534, 2543); (2662, 2671); (2790, 2799); (2918, 2927); (3046, 3055);
   (3174, 3183); (3302, 3311); (3430, 3439); (3558, 3567); (3664, 3673);
   (3792, 3801); (3872, 3881); (4160, 4169); (4240, 4249); (6112, 6121);
   (6160, 6169); (6470, 6479); (6608, 6617); (6784, 6793); (6800, 6809);
   (6992, 7001); (7088, 7097); (7232, 7241); (7248, 7257); (42528, 42537);
   (43216, 43225); (43264, 43273); (43472, 43481); (43504, 43513);
   (43600, 43609); (44016, 44025); (65296, 65305); (66720, 66729);
   (68912, 68921); (69734, 69743); (69872, 69881); (69942, 69951);
   (70096, 70105); (70384, 70393); (70736, 70745); (70864, 70873);
   (71248, 71257); (71360, 71369); (71472, 71481); (71904, 71913);
   (72016, 72025); (72784, 72793); (73040, 73049); (73120, 73129);
   (92768, 92777); (92864, 92873); (93008, 93017); (120782, 120831);
   (123200, 123209); (123632, 123641); (125264, 125273); (130032, 130041)]%N.

(** The code points [str.isdigit] accepts besides the decimal ones. *)
Definition other_digit_ranges : list (N * N) :=
  [(178, 179); (185, 185); (4969, 4977); (6618, 6618); (8304, 8304);
   (8308, 8313); (8320, 8329); (9312, 9320); (9332, 9340); (9352, 9360);
   (9450, 9450); (9461, 9469); (9471, 9471); (10102, 10110); (10112, 10120);
   (10122, 10130); (68160, 68163); (69216, 69224); (69714, 69722);
   (127232, 127242)]%N.

Definition isspace_char (c : char) : bool := in_ranges c space_ranges.
Definition isdecimal_char (c : char) : bool := in_ranges c decimal_ranges.
Definition isdigit_char (c : char) : bool :=
  isdecimal_char c || in_ranges c other_digit_ranges.

(** [s.isdigit()]: every character is a digit and there is at least one. *)
Definition isdigit (s : str) : bool :=
  match s with [] => false | _ => forallb isdigit_char s end.

(** The longest prefix whose characters satisfy [p], and the rest. *)
Fixpoint span (p : char -> bool) (s : str) : str * str :=
  match s with
  | c :: r => if p c then let (a, b) := span p r in (c :: a, b) else ([], s)
  | [] => ([], [])
  end.

(** *** Stripping *)
Fixpoint lstrip (s : str) : str :=
  match s with
  | c :: r => if isspace_char c then lstrip r else s
  | [] => []
  end.

Definition rstrip (s : str) : str := rev (lstrip (rev s)).
Definition strip (s : str) : str := rstrip (lstrip s).

(** *** Slices and searching *)

(** [s[a:b]] for non-negative indices. *)
Definition slice (a b : nat) (s : str) : str := firstn (b - a) (skipn a s).

Fixpoint startswith (p s : str) : bool :=
  match p, s with
  | [], _ => true
  | x :: p', y :: s' => (x =? y)%N && startswith p' s'
  | _ :: _, [] => false
  end.

Definition endswith (p s : str) : bool := startswith (rev p) (rev s).

(** [hay.find(needle)], [None] for -1. *)
Fixpoint find (needle hay : str) : option nat :=
  if startswith needle hay then Some 0
  else match hay with
       | [] => None
       | _ :: r => option_map S (find needle r)
       end.

(** [hay.find(needle, i)]. *)
Definition find_from (needle hay : str) (i : nat) : option nat :=
  option_map (fun j => i + j) (find needle (skipn i hay)).

(** [needle in hay]. *)
Definition contains (needle hay : str) : bool :=
  match find needle hay with Some _ => true | None => false end.

(** [s.split(c)] for a one-character separator. *)
Fixpoint split_char (c : char) (s : str) : list str :=
  match s with
  | [] => [[]]
  | x :: r =>
    if (x =? c)%N then [] :: split_char c r
    else match split_char c r with
         | l :: ls => (x :: l) :: ls
         | [] => [[x]]
         end
  end.

(** [s.split(sep)] for a separator of any positive length. *)
Fixpoint split_fuel (fuel : nat) (sep s : str) : list str :=
  match fuel with
  | 0 => [s]
  | S f =>
    match find sep s with
    | None => [s]
    | Some i => firstn i s :: split_fuel f sep (skipn (i + length sep) s)
    end
  end.

Definition split (sep s : str) : list str := split_fuel (S (length s)) sep s.

(** [sep.join(parts)]. *)
Fixpoint join (sep : str) (parts : list str) : str :=
  match parts with
  | [] => []
  | [l] => l
  | l :: rest => l ++ sep ++ join sep rest
  end.

(** [s.replace(old, new, 1)]. *)
Definition replace_first (old new s : str) : str :=
  match find old s with
  | Some i => firstn i s ++ new ++ skipn (i + length old) s
  | None => s
  end.

(** [s.replace(old, new)] for a non-empty [old]. *)
Definition replace (old new s : str) : str := join new (split old s).

(** [str(n)] for a natural number. *)
Definition str_of_nat (n : nat) : str :=
  map N_of_ascii
      (list_ascii_of_string (NilZero.string_of_uint (Nat.to_uint n))).

(** [c * n] for a one-character string [c]. *)
Definition repeat_char (c : char) (n : nat) : str := repeat c n.

(** Characters used by the source. *)
Definition LF : char := 10%N.
Definition CR : char := 13%N.
Definition LT : char := 60%N.
Definition GT : char := 62%N.
Definition COLON : char := 58%N.
Definition DOT : char := 46%N.
(** U+3010 and U+3011, the lenticular brackets. *)
Definition LBRACKET : char := 12304%N.
Definition RBRACKET : char := 12305%N.

End Py.

Import Py.


(** ** Python dictionaries

    A [dict] keeps its keys in insertion order; assigning to a key that
    is present replaces its value in place, assigning to a new key
    appends it. *)
Definition dict (V : Type) := list (str * V).

Fixpoint dict_get {V} (d : dict V) (k : str) : option V :=
  match d with
  | [] => None
  | (k', v) :: r => if str_eqb k' k then Some v else dict_get r k
  end.

Fixpoint dict_set {V} (d : dict V) (k : str) (v : V) : dict V :=
  match d with
  | [] => [(k, v)]
  | (k', v') :: r =>
    if str_eqb k' k then (k', v) :: r else (k', v') :: dict_set r k v
  end.

Definition keys {V} (d : dict V) : list str := map fst d.

(** [d.get(k, default)]. *)
Definition dict_get_default {V} (d : dict V) (k : str) (default : V) : V :=
  match dict_get d k with Some v => v | None => default end.

(** [for k in d: d[k] = f(d[k])]: the values are rewritten in place. *)
Definition update_values (f : str -> str) (d : dict str) : dict str :=
  fold_left
    (fun acc k =>
       match dict_get acc k with
       | Some v => dict_set acc k (f v)
       | None => acc
       end)
    (keys d) d.

(** [new = {}; for k, v in d.items(): new[k] = f(k, v)]. *)
Definition for_items {V W} (f : str -> V -> W) (d : dict V) : dict W :=
  fold_left (fun acc kv => dict_set acc (fst kv) (f (fst kv) (snd kv))) d [].

(** ** Compiled patterns

    A compiled [re.Pattern] object, by the methods the class calls:
    [.pattern], [.match(text)] (the end of the match that starts at
    position 0), [.finditer(text)] (the [(start, end)] spans, left to
    right) and [.sub(repl, text)] for a replacement template.  The
    regular-expression engine is Python's: what it guarantees of a
    pattern (its spans are in order and do not overlap, [spans_ok]
    below) is a hypothesis where a property needs it.  Matching raises
    nothing, so the [try] blocks around it never reach their [except]. *)
Record Pattern := {
  pattern : str;
  p_match : str -> option nat;
  p_finditer : str -> list (nat * nat);
  p_sub : str -> str -> str
}.

(** [match.group(0)] of a span. *)
Definition group0 (text : str) (m : nat * nat) : str :=
  slice (fst m) (snd m) text.

(** ** DigitalSequenceCodec *)

(** The longest run of [\d] at the start, and what follows it. *)
Definition span_decimal (s : str) : str * str := span isdecimal_char s.

(** [RE_DIGITAL_SEQ_PRE = ^(\d+)\.] at the start of [s]: group 1 and
    the text after the match. *)
Definition RE_DIGITAL_SEQ_PRE_match (s : str) : option (str * str) :=
  match span_decimal s with
  | (d :: ds, c :: rest) => if (c =? DOT)%N then Some (d :: ds, rest) else None
  | _ => None
  end.

(** [RE_DIGITAL_SEQ_REC = ^【(\d+)】]. *)
Definition RE_DIGITAL_SEQ_REC_match (s : str) : option (str * str) :=
  match s with
  | c0 :: s' =>
    if (c0 =? LBRACKET)%N then
      match span_decimal s' with
      | (d :: ds, c :: rest) =>
        if (c =? RBRACKET)%N then Some (d :: ds, rest) else None
      | _ => None
      end
    else None
  | [] => None
  end.

(** [RE_DIGITAL_SEQ_PRE.sub(r'【\1】', text, count=1)]: the pattern is
    anchored, so the only match is at position 0. *)
Definition digital_sequence_preprocessing_text (text : str) : str :=
  match RE_DIGITAL_SEQ_PRE_match text with
  | Some (g1, rest) => LBRACKET :: g1 ++ RBRACKET :: rest
  | None => text
  end.

(** [RE_DIGITAL_SEQ_REC.sub(r'\1.', text, count=1)]. *)
Definition digital_sequence_recovery_text (text : str) : str :=
  match RE_DIGITAL_SEQ_REC_match text with
  | Some (g1, rest) => g1 ++ DOT :: rest
  | None => text
  end.

Definition digital_sequence_preprocessing (text_dict : dict str) : dict str :=
  update_values digital_sequence_preprocessing_text text_dict.

Definition digital_sequence_recovery (text_dict : dict str) : dict str :=
  update_values digital_sequence_recovery_text text_dict.

(** ** TagCodec *)

Inductive TagKind := colon_tag | simple_tag.

(** One entry of [tag_infos]; a field the source leaves out of the
    dictionary for a kind of tag (it is never read for that kind) is the
    empty string. *)
Record TagEntry := {
  te_index : nat;
  te_tag_type : TagKind;
  te_tag_prefix : str;
  te_tag_suffix : str;
  te_full_tag : str;
  te_content_leading_whitespace : str;
  te_content_trailing_whitespace : str
}.

Record SingleTag := {
  st_tag_type : TagKind;
  st_tag_prefix : str;
  st_tag_suffix : str;
  st_full_tag : str;
  st_leading_whitespace : str;
  st_trailing_whitespace : str;
  st_content_leading_whitespace : str;
  st_content_trailing_whitespace : str
}.

(** [tag_info]: ['type'] is ['single_tag'] or ['multiple_tags']. *)
Inductive TagInfo :=
| single_tag_info (t : SingleTag)
| multiple_tags_info (tag_infos : list TagEntry) (separators : list str)
                     (tag_count : nat).

Definition TAG_SEPARATOR : str := u "\n===TAG_SEPARATOR===\n".

(** [line.split('//')[0]] when ['//' in line]. *)
Definition strip_line_comment (line : str) : str :=
  if contains (u "//") line then hd [] (split (u "//") line) else line.

(** [re.sub(r'/\*.*?\*/', '', s, flags=re.DOTALL)]: at a ["/*"] that a
    later ["*/"] closes, the shortest such comment is dropped; any other
    character is kept. *)
Fixpoint remove_block_comments_fuel (fuel : nat) (s : str) : str :=
  match fuel with
  | 0 => s
  | S f =>
    match s with
    | [] => []
    | c :: r =>
      if startswith (u "/*") s then
        match find (u "*/") (skipn 2 s) with
        | Some j => remove_block_comments_fuel f (skipn (2 + j + 2) s)
        | None => c :: remove_block_comments_fuel f r
        end
      else c :: remove_block_comments_fuel f r
    end
  end.

Definition remove_block_comments (s : str) : str :=
  remove_block_comments_fuel (length s) s.

Definition _remove_comments (text : str) : str :=
  let lines := split_char LF text in
  let cleaned_lines := map strip_line_comment lines in
  let result := join [LF] cleaned_lines in
  remove_block_comments result.

(** [RE_MULTI_TAG_PATTERN = (<[^>]+>)] with DOTALL, as [finditer]: a
    match starts at a ['<'] that is followed by at least one character
    other than ['>'] and then, somewhere, by a ['>']; it ends at the
    first such ['>'], and the scan resumes after it. *)
Fixpoint multi_tag_scan (fuel pos : nat) (s : str) : list (nat * nat) :=
  match fuel with
  | 0 => []
  | S f =>
    match s with
    | [] => []
    | c :: r =>
      if (c =? LT)%N then
        match r with
        | c1 :: _ =>
          if (c1 =? GT)%N then multi_tag_scan f (S pos) r
          else match find [GT] r with
               | Some j =>
                 (pos, pos + j + 2)
                   :: multi_tag_scan f (pos + j + 2) (skipn (j + 1) r)
               | None => multi_tag_scan f (S pos) r
               end
        | [] => []
        end
      else multi_tag_scan f (S pos) r
    end
  end.

Definition RE_MULTI_TAG_finditer (s : str) : list (nat * nat) :=
  multi_tag_scan (length s) 0 s.

(** The longest run of [[^:>]] at the start, and what follows it. *)
Definition span_name (s : str) : str * str :=
  span (fun c => negb ((c =? COLON)%N || (c =? GT)%N)) s.

(** [RE_COLON_TAG_PATTERN = ^(<[^:>]+:)(.*?)(>)$] with DOTALL, as
    [match]: groups 1, 2, 3.  [$] accepts the end of the string and the
    place before a final newline. *)
Definition RE_COLON_TAG_match (s : str) : option (str * str * str) :=
  match s with
  | c :: r =>
    if (c =? LT)%N then
      match span_name r with
      | (n :: ns, c2 :: rest) =>
        if (c2 =? COLON)%N then
          if endswith [GT] rest
          then Some (LT :: (n :: ns) ++ [COLON], removelast rest, [GT])
          else if endswith [GT; LF] rest
          then Some (LT :: (n :: ns) ++ [COLON],
                     firstn (length rest - 2) rest, [GT])
          else None
        else None
      | _ => None
      end
    else None
  | [] => None
  end.

(** [RE_SIMPLE_TAG_PATTERN = ^(<[^:>]+>)$] with DOTALL: group 1. *)
Definition RE_SIMPLE_TAG_match (s : str) : option str :=
  match s with
  | c :: r =>
    if (c =? LT)%N then
      match span_name r with
      | (n :: ns, c2 :: rest) =>
        if (c2 =? GT)%N && (str_eqb rest [] || str_eqb rest [LF])
        then Some (LT :: (n :: ns) ++ [GT])
        else None
      | _ => None
      end
    else None
  | [] => None
  end.

Definition leading_ws (s : str) : str :=
  firstn (length s - length (lstrip s)) s.

Definition trailing_ws (s : str) : str := skipn (length (rstrip s)) s.

Definition _is_single_tag_only (text0 : str) : bool :=
  let text :=
    if contains (u "//") text0 || contains (u "#") text0
       || contains (u "/*") text0
    then _remove_comments text0 else text0 in
  let text_stripped := strip text in
  if negb (startswith [LT] text_stripped && endswith [GT] text_stripped)
  then false
  else
    match RE_MULTI_TAG_finditer text_stripped with
    | [m] => (fst m =? 0) && (snd m =? length text_stripped)
    | _ => false
    end.

Definition _process_single_tag_content (text : str) : str * option TagInfo :=
  let text_without_comments := _remove_comments text in
  if negb (_is_single_tag_only text_without_comments) then (text, None)
  else
    let text_stripped := strip text_without_comments in
    match RE_COLON_TAG_match text_stripped with
    | Some (tag_prefix, tag_content, tag_suffix) =>
      (strip tag_content,
       Some (single_tag_info
         {| st_tag_type := colon_tag;
            st_tag_prefix := tag_prefix;
            st_tag_suffix := tag_suffix;
            st_full_tag := [];
            st_leading_whitespace := leading_ws text_without_comments;
            st_trailing_whitespace := trailing_ws text_without_comments;
            st_content_leading_whitespace := leading_ws tag_content;
            st_content_trailing_whitespace := trailing_ws tag_content |}))
    | None =>
      match RE_SIMPLE_TAG_match text_stripped with
      | Some full_tag =>
        ([],
         Some (single_tag_info
           {| st_tag_type := simple_tag;
              st_tag_prefix := [];
              st_tag_suffix := [];
              st_full_tag := full_tag;
              st_leading_whitespace := leading_ws text_without_comments;
              st_trailing_whitespace := trailing_ws text_without_comments;
              st_content_leading_whitespace := [];
              st_content_trailing_whitespace := [] |}))
      | None => (text, None)
      end
    end.

(** The first loop of [_process_multiple_tags_only]: the text rebuilt
    from the pieces before, inside and after the tag matches. *)
Definition reconstruct (text_without_comments : str)
           (matches : list (nat * nat)) : str :=
  let '(reconstructed, last_end) :=
    fold_left
      (fun st m =>
         (fst st ++ slice (snd st) (fst m) text_without_comments
              ++ group0 text_without_comments m,
          snd m))
      matches ([], 0) in
  reconstructed ++ skipn last_end text_without_comments.

(** The second loop: the text outside the tag matches. *)
Definition content_between_tags (text_without_comments : str)
           (matches : list (nat * nat)) : str :=
  let '(content, last_end) :=
    fold_left
      (fun st m =>
         (fst st ++ slice (snd st) (fst m) text_without_comments, snd m))
      matches ([], 0) in
  content ++ skipn last_end text_without_comments.

Record ExtractState := {
  xs_tag_infos : list TagEntry;
  xs_extracted_contents : list str;
  xs_separators : list str;
  xs_last_end : nat
}.

(** One round of the third loop; a tag that is neither a colon tag nor
    a simple tag is skipped by [continue], after its separator was
    recorded and without moving [last_end]. *)
Definition extract_step (text_without_comments : str) (st : ExtractState)
           (im : nat * (nat * nat)) : ExtractState :=
  let i := fst im in
  let m := snd im in
  let separator := slice (xs_last_end st) (fst m) text_without_comments in
  let separators := xs_separators st ++ [separator] in
  let full_tag := group0 text_without_comments m in
  match RE_COLON_TAG_match full_tag with
  | Some (tag_prefix, tag_content, tag_suffix) =>
    {| xs_tag_infos := xs_tag_infos st ++
         [{| te_index := i; te_tag_type := colon_tag;
             te_tag_prefix := tag_prefix; te_tag_suffix := tag_suffix;
             te_full_tag := [];
             te_content_leading_whitespace := leading_ws tag_content;
             te_content_trailing_whitespace := trailing_ws tag_content |}];
       xs_extracted_contents := xs_extracted_contents st ++ [strip tag_content];
       xs_separators := separators;
       xs_last_end := snd m |}
  | None =>
    match RE_SIMPLE_TAG_match full_tag with
    | Some _ =>
      {| xs_tag_infos := xs_tag_infos st ++
           [{| te_index := i; te_tag_type := simple_tag;
               te_tag_prefix := []; te_tag_suffix := [];
               te_full_tag := full_tag;
               te_content_leading_whitespace := [];
               te_content_trailing_whitespace := [] |}];
         xs_extracted_contents := xs_extracted_contents st ++ [[]];
         xs_separators := separators;
         xs_last_end := snd m |}
    | None =>
      {| xs_tag_infos := xs_tag_infos st;
         xs_extracted_contents := xs_extracted_contents st;
         xs_separators := separators;
         xs_last_end := xs_last_end st |}
    end
  end.

Definition enumerate {A} (l : list A) : list (nat * A) :=
  combine (seq 0 (length l)) l.

Definition _process_multiple_tags_only (text : str) : str * option TagInfo :=
  let text_without_comments := _remove_comments text in
  let matches := RE_MULTI_TAG_finditer text_without_comments in
  if length matches <? 2 then (text, None)
  else if negb (str_eqb (reconstruct text_without_comments matches)
                        text_without_comments)
  then (text, None)
  else
    match strip (content_between_tags text_without_comments matches) with
    | _ :: _ => (text, None)
    | [] =>
      let st :=
        fold_left (extract_step text_without_comments) (enumerate matches)
                  {| xs_tag_infos := []; xs_extracted_contents := [];
                     xs_separators := []; xs_last_end := 0 |} in
      let final_separator := skipn (xs_last_end st) text_without_comments in
      let separators := xs_separators st ++ [final_separator] in
      (join TAG_SEPARATOR (xs_extracted_contents st),
       Some (multiple_tags_info (xs_tag_infos st) separators
                                (length (xs_tag_infos st))))
    end.

Definition _process_tag_content (text : str) : str * option TagInfo :=
  match _process_multiple_tags_only text with
  | (multi_result, Some multi_info) => (multi_result, Some multi_info)
  | (_, None) =>
    match _process_single_tag_content text with
    | (single_result, Some single_info) => (single_result, Some single_info)
    | (_, None) => (text, None)
    end
  end.

Definition _restore_single_tag_content (content : str) (t : SingleTag) : str :=
  match st_tag_type t with
  | colon_tag =>
    st_leading_whitespace t ++ st_tag_prefix t
      ++ st_content_leading_whitespace t ++ content
      ++ st_content_trailing_whitespace t ++ st_tag_suffix t
      ++ st_trailing_whitespace t
  | simple_tag =>
    st_leading_whitespace t ++ st_full_tag t ++ st_trailing_whitespace t
  end.

Definition _restore_multiple_tags (translated_content : str)
           (tag_infos : list TagEntry) (separators : list str)
           (expected_count : nat) : str :=
  let translated_parts0 := split TAG_SEPARATOR translated_content in
  let translated_parts :=
    if length translated_parts0 =? expected_count then translated_parts0
    else firstn expected_count
           (translated_parts0
              ++ repeat [] (expected_count - length translated_parts0)) in
  let result0 := match separators with s0 :: _ => s0 | [] => [] end in
  fold_left
    (fun result it =>
       let i := fst it in
       let tag_info := snd it in
       let restored_tag :=
         match te_tag_type tag_info with
         | colon_tag =>
           match nth_error translated_parts i with
           | Some translated_part =>
             te_tag_prefix tag_info ++ te_content_leading_whitespace tag_info
               ++ translated_part ++ te_content_trailing_whitespace tag_info
               ++ te_tag_suffix tag_info
           | None => te_tag_prefix tag_info ++ te_tag_suffix tag_info
           end
         | simple_tag => te_full_tag tag_info
         end in
       result ++ restored_tag
         ++ match nth_error separators (i + 1) with
            | Some sep => sep
            | None => []
            end)
    (enumerate tag_infos) result0.

Definition _restore_tag_content (content : str) (tag_info : option TagInfo)
  : str :=
  match tag_info with
  | None => content
  | Some (single_tag_info t) => _restore_single_tag_content content t
  | Some (multiple_tags_info tag_infos separators tag_count) =>
    _restore_multiple_tags content tag_infos separators tag_count
  end.

(** ** LineAffixNormalizer *)

(** [text[i:i+3].lower() == '<br'], on the text from [i] on.  Only
    ['<'], ['b'], ['B'], ['r'] and ['R'] have a lower case among the
    characters of ['<br']. *)
Definition is_br_open (s : str) : bool :=
  match s with
  | c0 :: c1 :: c2 :: _ =>
    (c0 =? LT)%N && ((c1 =? 98)%N || (c1 =? 66)%N)
      && ((c2 =? 114)%N || (c2 =? 82)%N)
  | _ => false
  end.

(** ['<br' in text.lower()]. *)
Fixpoint contains_br (s : str) : bool :=
  is_br_open s || match s with _ :: r => contains_br r | [] => false end.

(** The [while i < len(text)] loop, [rest] being [text[i:]]. *)
Fixpoint normalize_loop (fuel : nat) (rest : str) (line_pos : nat)
         (normalized_text : str) (line_endings : list (nat * str))
  : str * list (nat * str) :=
  match fuel with
  | 0 => (normalized_text, line_endings)
  | S f =>
    match rest with
    | [] => (normalized_text, line_endings)
    | c :: rest' =>
      let traditional :=
        if startswith [CR; LF] rest then
          normalize_loop f (skipn 2 rest) (line_pos + 1)
                         (normalized_text ++ [LF])
                         (line_endings ++ [(line_pos, [CR; LF])])
        else if (c =? CR)%N then
          normalize_loop f rest' (line_pos + 1) (normalized_text ++ [LF])
                         (line_endings ++ [(line_pos, [CR])])
        else if (c =? LF)%N then
          normalize_loop f rest' (line_pos + 1) (normalized_text ++ [LF])
                         (line_endings ++ [(line_pos, [LF])])
        else
          normalize_loop f rest' line_pos (normalized_text ++ [c])
                         line_endings in
      if is_br_open rest then
        match find [GT] rest with
        | Some j =>
          normalize_loop f (skipn (j + 1) rest) (line_pos + 1)
                         (normalized_text ++ [LF])
                         (line_endings ++ [(line_pos, firstn (j + 1) rest)])
        | None => traditional
        end
      else traditional
    end
  end.

Definition _normalize_line_endings (text : str) : str * list (nat * str) :=
  if negb (contains [CR] text || contains [LF] text || contains_br text)
  then (text, [])
  else normalize_loop (length text) text 0 [] [].

Definition _restore_line_endings (text : str)
           (line_endings : list (nat * str)) : str :=
  match line_endings with
  | [] => text
  | _ :: _ =>
    let lines := split_char LF text in
    if length lines <=? 1 then text
    else
      let result :=
        fold_left
          (fun result il =>
             result ++ [snd il]
               ++ [match nth_error line_endings (fst il) with
                   | Some e => snd e
                   | None => [LF]
                   end])
          (enumerate (removelast lines)) [] in
      concat (result ++ [last lines []])
  end.

Definition _handle_special_characters (prefix core_text suffix : str)
  : str * str * str :=
  let '(prefix, core_text) :=
    match prefix with
    | [] => (prefix, core_text)
    | _ :: _ =>
      if endswith (u "[") prefix then (removelast prefix, u "[" ++ core_text)
      else if endswith (u "{") prefix
      then (removelast prefix, u "{" ++ core_text)
      else if endswith (u "（") prefix
      then (removelast prefix, u "（" ++ core_text)
      else if endswith (u "(") prefix
      then (removelast prefix, u "(" ++ core_text)
      else (prefix, core_text)
    end in
  let '(core_text, suffix) :=
    match suffix with
    | [] => (core_text, suffix)
    | _ :: _ =>
      if startswith (u "]") suffix then (core_text ++ u "]", skipn 1 suffix)
      else if startswith (u "}") suffix
      then (core_text ++ u "}", skipn 1 suffix)
      else if startswith (u "）") suffix
      then (core_text ++ u "）", skipn 1 suffix)
      else if startswith (u ")") suffix
      then (core_text ++ u ")", skipn 1 suffix)
      else (core_text, suffix)
    end in
  let '(core_text, suffix) :=
    match suffix with
    | [] => (core_text, suffix)
    | _ :: _ => if isdigit suffix then (core_text ++ suffix, [])
                else (core_text, suffix)
    end in
  (prefix, core_text, suffix).

(** A boundary pattern [^( A* )( .*? )( A* )$] (written here with spaces
    inside the groups) matched against one line: the
    longest run of the class [a] at the start, the longest run of it at
    the end of what is left, and the text in between.  The lines come
    from [split('\n')], so [.] meets no newline and [$] is the end of
    the line; the match never fails. *)
Definition affix_match (a : char -> bool) (line : str)
  : option (str * str * str) :=
  let (g1, rest) := span a line in
  let (g3r, g2r) := span a (rev rest) in
  Some (g1, rev g2r, rev g3r).

(** [RE_WHITESPACE_AFFIX = ^( \s* )( .*? )( \s* )$], MULTILINE. *)
Definition RE_WHITESPACE_AFFIX_match : str -> option (str * str * str) :=
  affix_match isspace_char.

(** [JAPANESE_CHAR_SET_CONTENT]. *)
Definition japanese_ranges : list (N * N) :=
  [(12352, 12447); (12448, 12543); (12539, 12542); (65381, 65439);
   (19968, 40959); (13312, 19903); (12289, 12351); (65281, 65374)]%N.

(** [RE_JA_AFFIX = ( ^[^J]* )( .*? )( [^J]*$ )], MULTILINE, [J] the
    Japanese character set. *)
Definition RE_JA_AFFIX_match : str -> option (str * str * str) :=
  affix_match (fun c => negb (in_ranges c japanese_ranges)).

Record LineInfo := {
  li_prefix : str;
  li_suffix : str;
  li_is_empty : bool;
  li_original_whitespace : str
}.

(** The processing record of one text (the ['type'] entry, which names
    whether [tag_info] is present, is never read and is left out). *)
Record Info := {
  info_line_endings : list (nat * str);
  info_lines_info : list LineInfo;
  info_tag_info : option TagInfo
}.

Definition is_empty (s : str) : bool :=
  match s with [] => true | _ :: _ => false end.

Definition select_pattern (source_lang : str)
  : str -> option (str * str * str) :=
  if str_eqb source_lang (u "ja") || str_eqb source_lang (u "japanese")
  then RE_JA_AFFIX_match else RE_WHITESPACE_AFFIX_match.

(** The body of the [for line in lines] loop: what is appended to
    [non_empty_lines] (if anything) and to [lines_info]. *)
Definition process_line (source_lang : str) (line : str)
  : option str * LineInfo :=
  if is_empty line || is_empty (strip line) then
    (None, {| li_prefix := []; li_suffix := []; li_is_empty := true;
              li_original_whitespace := line |})
  else
    match select_pattern source_lang line with
    | Some (prefix, core_text, suffix) =>
      let '(prefix, core_text, suffix) :=
        _handle_special_characters prefix core_text suffix in
      let '(core_text, prefix, suffix) :=
        if is_empty (strip core_text) && negb (is_empty (strip line))
        then (line, [], []) else (core_text, prefix, suffix) in
      let '(prefix, core_text) :=
        if isdigit (strip prefix) then
          let prefix_leading := leading_ws prefix in
          (prefix_leading, skipn (length prefix_leading) prefix ++ core_text)
        else (prefix, core_text) in
      let '(suffix, core_text) :=
        if isdigit (strip suffix) then
          let suffix_trailing := trailing_ws suffix in
          (suffix_trailing,
           core_text ++ firstn (length suffix - length suffix_trailing) suffix)
        else (suffix, core_text) in
      (Some core_text,
       {| li_prefix := prefix; li_suffix := suffix; li_is_empty := false;
          li_original_whitespace := [] |})
    | None =>
      (Some line,
       {| li_prefix := []; li_suffix := []; li_is_empty := false;
          li_original_whitespace := [] |})
    end.

Definition _process_multiline_text (text : str) (source_lang : str)
  : str * Info :=
  let '(tag_processed_text, tag_info) := _process_tag_content text in
  let '(normalized_text, line_endings) :=
    _normalize_line_endings tag_processed_text in
  let lines := split_char LF normalized_text in
  let '(non_empty_lines, lines_info) :=
    fold_left
      (fun acc line =>
         let '(core, li) := process_line source_lang line in
         (match core with
          | Some c => fst acc ++ [c]
          | None => fst acc
          end,
          snd acc ++ [li]))
      lines ([], []) in
  (join [LF] non_empty_lines,
   {| info_line_endings := line_endings;
      info_lines_info := lines_info;
      info_tag_info := tag_info |}).

Definition _restore_multiline_text (text : str) (info : Info) : str :=
  let translated_lines := split_char LF text in
  let '(restored_lines, _) :=
    fold_left
      (fun acc line_info =>
         let '(restored_lines, translated_index) := acc in
         if li_is_empty line_info
         then (restored_lines ++ [li_original_whitespace line_info],
               translated_index)
         else
           match nth_error translated_lines translated_index with
           | Some line =>
             (restored_lines ++ [li_prefix line_info ++ line
                                   ++ li_suffix line_info],
              translated_index + 1)
           | None => (restored_lines ++ [[]], translated_index)
           end)
      (info_lines_info info) ([], 0) in
  let multiline_restored :=
    _restore_line_endings (join [LF] restored_lines)
                          (info_line_endings info) in
  match info_tag_info info with
  | Some tag_info => _restore_tag_content multiline_restored (Some tag_info)
  | None => multiline_restored
  end.

(** The values of a batch are strings, so the branch for a value that
    is not a [str] (with [_create_empty_info]) is never taken. *)
Definition strip_and_record_affixes (text_dict : dict str) (source_lang : str)
  : dict str * dict Info :=
  (for_items (fun _ t => fst (_process_multiline_text t source_lang)) text_dict,
   for_items (fun _ t => snd (_process_multiline_text t source_lang)) text_dict).

Definition restore_affix_whitespace (processing_info : dict Info)
           (processed_dict : dict str) : dict str :=
  for_items
    (fun key core_text =>
       match dict_get processing_info key with
       | None => core_text
       | Some info => _restore_multiline_text core_text info
       end)
    processed_dict.

(** ** AffixCodec *)

Record PrefixCode := { pc_prefix : str; pc_pattern : str }.
Record SuffixCode := { sc_suffix : str; sc_pattern : str }.

(** The [while True] loop of one prefix pattern.  [None] is a loop that
    has not ended within [fuel] rounds. *)
Fixpoint strip_prefix_loop (fuel : nat) (pattern_obj : Pattern)
         (current_text : str) (current_prefixes : list PrefixCode)
  : option (str * list PrefixCode) :=
  match fuel with
  | 0 => None
  | S f =>
    match p_match pattern_obj current_text with
    | Some e =>
      let prefix_text := firstn e current_text in
      strip_prefix_loop f pattern_obj
        (skipn (length prefix_text) current_text)
        (current_prefixes
           ++ [{| pc_prefix := prefix_text;
                  pc_pattern := pattern pattern_obj |}])
    | None => Some (current_text, current_prefixes)
    end
  end.

Fixpoint strip_prefixes (fuel : nat) (compiled_prefix_patterns : list Pattern)
         (current_text : str) (current_prefixes : list PrefixCode)
  : option (str * list PrefixCode) :=
  match compiled_prefix_patterns with
  | [] => Some (current_text, current_prefixes)
  | pattern_obj :: rest =>
    match strip_prefix_loop fuel pattern_obj current_text current_prefixes with
    | Some (t, ps) => strip_prefixes fuel rest t ps
    | None => None
    end
  end.

(** The last match of [finditer] that ends at the end of the text. *)
Definition best_suffix_match (pattern_obj : Pattern) (current_text : str)
  : option (nat * nat) :=
  fold_left
    (fun best_match m =>
       if snd m =? length current_text then Some m else best_match)
    (p_finditer pattern_obj current_text) None.

(** The [while made_change] loop of one suffix pattern. *)
Fixpoint strip_suffix_loop (fuel : nat) (pattern_obj : Pattern)
         (current_text : str) (current_suffixes : list SuffixCode)
  : option (str * list SuffixCode) :=
  match fuel with
  | 0 => None
  | S f =>
    match best_suffix_match pattern_obj current_text with
    | Some m =>
      let suffix_text := group0 current_text m in
      strip_suffix_loop f pattern_obj (firstn (fst m) current_text)
        ({| sc_suffix := suffix_text; sc_pattern := pattern pattern_obj |}
           :: current_suffixes)
    | None => Some (current_text, current_suffixes)
    end
  end.

Fixpoint strip_suffixes (fuel : nat) (compiled_suffix_patterns : list Pattern)
         (current_text : str) (current_suffixes : list SuffixCode)
  : option (str * list SuffixCode) :=
  match compiled_suffix_patterns with
  | [] => Some (current_text, current_suffixes)
  | pattern_obj :: rest =>
    match strip_suffix_loop fuel pattern_obj current_text current_suffixes with
    | Some (t, ss) => strip_suffixes fuel rest t ss
    | None => None
    end
  end.

(** The two stripping loops of one entry. *)
Definition strip_affixes (fuel : nat)
           (compiled_prefix_patterns compiled_suffix_patterns : list Pattern)
           (text_val : str)
  : option (str * list PrefixCode * list SuffixCode) :=
  match strip_prefixes fuel compiled_prefix_patterns text_val [] with
  | None => None
  | Some (t, current_prefixes) =>
    match strip_suffixes fuel compiled_suffix_patterns t [] with
    | None => None
    | Some (t', current_suffixes) =>
      Some (t', current_prefixes, current_suffixes)
    end
  end.

Definition prefix_str (ps : list PrefixCode) : str := concat (map pc_prefix ps).
Definition suffix_str (ss : list SuffixCode) : str := concat (map sc_suffix ss).
Definition prefix_len (ps : list PrefixCode) : nat :=
  list_sum (map (fun p => length (pc_prefix p)) ps).
Definition suffix_len (ss : list SuffixCode) : nat :=
  list_sum (map (fun s => length (sc_suffix s)) ss).

(** The special case after the loops: a core that is blank takes back
    the fragments of one side. *)
Definition repair_affixes (current_text : str)
           (current_prefixes : list PrefixCode)
           (current_suffixes : list SuffixCode)
  : str * list PrefixCode * list SuffixCode :=
  if is_empty (strip current_text) then
    let temp_prefix_str := prefix_str current_prefixes in
    let temp_suffix_str := suffix_str current_suffixes in
    match current_prefixes, current_suffixes with
    | _ :: _, _ :: _ =>
      if suffix_len current_suffixes <? prefix_len current_prefixes
      then (current_text ++ temp_suffix_str, current_prefixes, [])
      else (temp_prefix_str ++ current_text, [], current_suffixes)
    | _ :: _, [] => (temp_prefix_str ++ current_text, [], current_suffixes)
    | [], _ :: _ => (current_text ++ temp_suffix_str, current_prefixes, [])
    | [], [] => (current_text, current_prefixes, current_suffixes)
    end
  else (current_text, current_prefixes, current_suffixes).

Definition process_affixes_entry (fuel : nat)
           (compiled_prefix_patterns compiled_suffix_patterns : list Pattern)
           (text_val : str)
  : option (str * list PrefixCode * list SuffixCode) :=
  match strip_affixes fuel compiled_prefix_patterns compiled_suffix_patterns
                      text_val with
  | None => None
  | Some (t, ps, ss) => Some (repair_affixes t ps ss)
  end.

Definition AffixResult : Type :=
  dict str * dict (list PrefixCode) * dict (list SuffixCode).

Fixpoint process_affixes_loop (fuel : nat)
         (compiled_prefix_patterns compiled_suffix_patterns : list Pattern)
         (items : list (str * str)) (acc : AffixResult) : option AffixResult :=
  match items with
  | [] => Some acc
  | (key, text_val) :: rest =>
    match process_affixes_entry fuel compiled_prefix_patterns
                                compiled_suffix_patterns text_val with
    | None => None
    | Some (current_text, current_prefixes, current_suffixes) =>
      let '(processed_text_dict, prefix_codes, suffix_codes) := acc in
      process_affixes_loop fuel compiled_prefix_patterns
        compiled_suffix_patterns rest
        (dict_set processed_text_dict key current_text,
         dict_set prefix_codes key current_prefixes,
         dict_set suffix_codes key current_suffixes)
    end
  end.

Definition _process_affixes (fuel : nat) (text_dict : dict str)
           (compiled_prefix_patterns compiled_suffix_patterns : list Pattern)
  : option AffixResult :=
  process_affixes_loop fuel compiled_prefix_patterns compiled_suffix_patterns
                       text_dict ([], [], []).

Definition _restore_affixes (text_dict : dict str)
           (prefix_codes : dict (list PrefixCode))
           (suffix_codes : dict (list SuffixCode)) : dict str :=
  for_items
    (fun key text =>
       prefix_str (dict_get_default prefix_codes key [])
         ++ text ++ suffix_str (dict_get_default suffix_codes key []))
    text_dict.

(** ** PlaceholderMasker *)

Record PlaceholderRec := {
  ph_placeholder : str;
  ph_original : str;
  ph_pattern : str
}.

(** The variables the closure [replacer_for_this_pattern] shares with
    the enclosing loops. *)
Record MaskState := {
  global_match_count : nat;
  sakura_match_count : nat;
  single_pattern_replacements : list PlaceholderRec
}.

Definition replacer_for_this_pattern (target_platform : str)
           (pattern_obj : Pattern) (st : MaskState) (match_group0 : str)
  : str * MaskState :=
  if 50 <=? global_match_count st then (match_group0, st)
  else
    let g := global_match_count st + 1 in
    let s := sakura_match_count st + 1 in
    let placeholder_val :=
      if str_eqb target_platform (u "sakura")
      then concat (repeat (u "↓") s)
      else u "[P" ++ str_of_nat g ++ u "]" in
    (placeholder_val,
     {| global_match_count := g;
        sakura_match_count := s;
        single_pattern_replacements :=
          single_pattern_replacements st
            ++ [{| ph_placeholder := placeholder_val;
                   ph_original := match_group0;
                   ph_pattern := pattern pattern_obj |}] |}).

(** [pattern_obj.sub(replacer, text)]: the text between the matches is
    copied, each match is handed to [replacer] in turn. *)
Fixpoint sub_loop {S} (replacer : S -> str -> str * S) (text : str)
         (spans : list (nat * nat)) (pos : nat) (out : str) (st : S)
  : str * S :=
  match spans with
  | [] => (out ++ skipn pos text, st)
  | m :: rest =>
    let (r, st') := replacer st (group0 text m) in
    sub_loop replacer text rest (snd m) (out ++ slice pos (fst m) text ++ r) st'
  end.

Definition sub_callable {S} (pattern_obj : Pattern)
           (replacer : S -> str -> str * S) (text : str) (st : S) : str * S :=
  sub_loop replacer text (p_finditer pattern_obj text) 0 [] st.

(** The [for pattern_obj in compiled_placeholder_patterns] loop of one
    entry, with its [break]. *)
Fixpoint mask_patterns (target_platform : str) (patterns : list Pattern)
         (current_text : str) (entry_placeholders : list PlaceholderRec)
         (global sakura : nat)
  : str * list PlaceholderRec * nat :=
  match patterns with
  | [] => (current_text, entry_placeholders, global)
  | pattern_obj :: rest =>
    let '(t, st) :=
      sub_callable pattern_obj
        (replacer_for_this_pattern target_platform pattern_obj) current_text
        {| global_match_count := global; sakura_match_count := sakura;
           single_pattern_replacements := [] |} in
    let entry := entry_placeholders ++ single_pattern_replacements st in
    if 50 <=? global_match_count st
    then (t, entry, global_match_count st)
    else mask_patterns target_platform rest t entry
                       (global_match_count st) (sakura_match_count st)
  end.

Definition MaskResult : Type :=
  dict str * dict (list PlaceholderRec) * nat.

(** One round of the [for key, original_text in text_dict.items()] loop. *)
Definition mask_entry (target_platform : str)
           (compiled_placeholder_patterns : list Pattern)
           (acc : MaskResult) (kv : str * str) : MaskResult :=
  let '(new_dict, placeholder_order, global) := acc in
  let '(current_text, entry_placeholders, global') :=
    mask_patterns target_platform compiled_placeholder_patterns (snd kv)
                  [] global 0 in
  (dict_set new_dict (fst kv) current_text,
   dict_set placeholder_order (fst kv) entry_placeholders,
   global').

(** The loop over the batch, from a given state. *)
Definition mask_entries (target_platform : str)
           (compiled_placeholder_patterns : list Pattern)
           (items : list (str * str)) (acc : MaskResult) : MaskResult :=
  fold_left (mask_entry target_platform compiled_placeholder_patterns)
            items acc.

(** [_replace_special_placeholders] together with the final value of
    its local counter [global_match_count]. *)
Definition replace_special_placeholders_run (target_platform : str)
           (text_dict : dict str)
           (compiled_placeholder_patterns : list Pattern) : MaskResult :=
  mask_entries target_platform compiled_placeholder_patterns text_dict
               ([], [], 0).

Definition _replace_special_placeholders (target_platform : str)
           (text_dict : dict str)
           (compiled_placeholder_patterns : list Pattern)
  : dict str * dict (list PlaceholderRec) :=
  fst (replace_special_placeholders_run target_platform text_dict
                                        compiled_placeholder_patterns).

Definition _restore_special_placeholders (text_dict : dict str)
           (placeholder_order : dict (list PlaceholderRec)) : dict str :=
  for_items
    (fun key text =>
       match dict_get_default placeholder_order key [] with
       | [] => text
       | placeholders_for_key =>
         fold_left
           (fun restored_text item =>
              if contains (ph_placeholder item) restored_text
              then replace_first (ph_placeholder item) (ph_original item)
                                 restored_text
              else restored_text)
           (rev placeholders_for_key) text
       end)
    text_dict.

(** ** RuleCompiler *)

(** What a call can raise. *)
Inductive exn :=
| re_error (regex_str : str)
| OSError.

Inductive result (A : Type) :=
| Ok (a : A)
| Raise (e : exn).
Arguments Ok {A} a.
Arguments Raise {A} e.

Definition rbind {A B} (r : result A) (k : A -> result B) : result B :=
  match r with
  | Ok a => k a
  | Raise e => Raise e
  end.

Notation "x <- c1 ;; c2" := (rbind c1 (fun x => c2))
  (at level 61, c1 at next level, right associativity).

(** One rule of [pre_translation_data] / [post_translation_data]: the
    entries ["src"], ["dst"] and ["regex"], each present or not. *)
Record Rule := {
  rule_src : option str;
  rule_dst : option str;
  rule_regex : option str
}.

(** [rule.copy()] with ["compiled_regex"] when it was added. *)
Record CompiledRule := {
  cr_rule : Rule;
  cr_compiled_regex : option Pattern
}.

(** One item of [exclusion_list_data]. *)
Record Exclusion := {
  ex_regex : option str;
  ex_markers : option str
}.

Record Config := {
  pre_translation_switch : bool;
  post_translation_switch : bool;
  auto_process_text_code_segment : bool;
  target_platform : str;
  pre_translation_data : option (list Rule);
  post_translation_data : option (list Rule);
  exclusion_list_data : option (list Exclusion)
}.

Inductive Flags := no_flags | IGNORECASE_MULTILINE.

(** [x] is truthy: present and not the empty string. *)
Definition truthy (x : option str) : option str :=
  match x with
  | Some (c :: s) => Some (c :: s)
  | _ => None
  end.

(** [re.escape]: a backslash before each special character. *)
Definition re_special : str := u "()[]{}?*+-|^$\\.&~# \t\n\r" ++ [11; 12]%N.

Definition re_escape (s : str) : str :=
  flat_map
    (fun c => if existsb (N.eqb c) re_special then [92%N; c] else [c]) s.

Section Construction.

(** [re.compile(regex_str, flags)]: the compiled pattern, or [None]
    when the regular expression is malformed and [re.error] is raised. *)
Variable re_compile : str -> Flags -> option Pattern.

Definition compile (regex_str : str) (flags : Flags) : result Pattern :=
  match re_compile regex_str flags with
  | Some p => Ok p
  | None => Raise (re_error regex_str)
  end.

Fixpoint compile_rules_loop (rules_data : list Rule)
         (compiled_rules : list CompiledRule) : result (list CompiledRule) :=
  match rules_data with
  | [] => Ok compiled_rules
  | rule :: rest =>
    new_rule <-
      match truthy (rule_regex rule) with
      | Some regex_str =>
        p <- compile regex_str no_flags ;;
        Ok {| cr_rule := rule; cr_compiled_regex := Some p |}
      | None => Ok {| cr_rule := rule; cr_compiled_regex := None |}
      end ;;
    compile_rules_loop rest (compiled_rules ++ [new_rule])
  end.

Definition _compile_translation_rules (rules_data : option (list Rule))
  : result (list CompiledRule) :=
  match rules_data with
  | None | Some [] => Ok []
  | Some rules => compile_rules_loop rules []
  end.

(** The regex library file: [None] when it cannot be opened or parsed
    (the [with open] raises), otherwise for each item of the JSON array
    its ["regex"] entry if it is a dictionary that has one. *)
Definition RegexFile := option (list (option str)).

Definition _prepare_code_pattern_strings
           (exclusion_list_data : option (list Exclusion))
           (regex_file : RegexFile) : result (list str) :=
  match regex_file with
  | None => Raise OSError
  | Some data =>
    let file_patterns :=
      flat_map (fun item => match truthy item with
                            | Some r => [r]
                            | None => []
                            end) data in
    let from_exclusion :=
      match exclusion_list_data with
      | None => []
      | Some items =>
        flat_map
          (fun item =>
             match truthy (ex_regex item) with
             | Some regex_str => [regex_str]
             | None =>
               match truthy (ex_markers item) with
               | Some markers => [re_escape markers]
               | None => []
               end
             end)
          items
      end in
    Ok (file_patterns ++ from_exclusion)
  end.

(** [_build_dynamic_pattern_strings(base_patterns, r"\s*{p}\s*")], the
    only format string it is called with. *)
Definition _build_dynamic_pattern_strings (base_patterns : list str)
  : list str :=
  flat_map
    (fun p => match p with
              | [] => []
              | _ :: _ => [u "\\s*" ++ p ++ u "\\s*"]
              end)
    base_patterns.

Fixpoint compile_all (pattern_strings : list str) (flags : Flags)
  : result (list Pattern) :=
  match pattern_strings with
  | [] => Ok []
  | p_str :: rest =>
    match p_str with
    | [] => compile_all rest flags
    | _ :: _ =>
      p <- compile p_str flags ;;
      ps <- compile_all rest flags ;;
      Ok (p :: ps)
    end
  end.

(** The attributes of a [TextProcessor] that depend on the
    configuration. *)
Record TextProcessor := {
  pre_translation_rules_compiled : list CompiledRule;
  post_translation_rules_compiled : list CompiledRule;
  auto_compiled_patterns : list Pattern
}.

Definition __init__ (regex_file : RegexFile) (config : Config)
  : result TextProcessor :=
  pre <- _compile_translation_rules (pre_translation_data config) ;;
  post <- _compile_translation_rules (post_translation_data config) ;;
  code_pattern_strings <-
    _prepare_code_pattern_strings (exclusion_list_data config) regex_file ;;
  let special_placeholder_pattern_strings :=
    _build_dynamic_pattern_strings code_pattern_strings in
  auto <- compile_all special_placeholder_pattern_strings
                      IGNORECASE_MULTILINE ;;
  Ok {| pre_translation_rules_compiled := pre;
        post_translation_rules_compiled := post;
        auto_compiled_patterns := auto |}.

End Construction.

(** ** PipelineOrchestrator *)

(** The rule loop of [replace_before_translation] and
    [replace_after_translation] on one text. *)
Definition apply_rules (rules : list CompiledRule) (text : str) : str :=
  fold_left
    (fun current_text rule =>
       let dst_text :=
         match rule_dst (cr_rule rule) with Some d => d | None => [] end in
       match cr_compiled_regex rule with
       | Some compiled_regex_obj => p_sub compiled_regex_obj dst_text current_text
       | None =>
         match truthy (rule_src (cr_rule rule)) with
         | Some src_text =>
           if contains src_text current_text
           then replace src_text dst_text current_text
           else current_text
         | None => current_text
         end
       end)
    rules text.

(** Both work on [text_dict.copy()] and assign the rewritten texts to
    its keys. *)
Definition replace_before_translation (self : TextProcessor)
           (text_dict : dict str) : dict str :=
  update_values (apply_rules (pre_translation_rules_compiled self)) text_dict.

Definition replace_after_translation (self : TextProcessor)
           (text_dict : dict str) : dict str :=
  update_values (apply_rules (post_translation_rules_compiled self)) text_dict.

Definition Masked : Type :=
  dict str * dict (list PrefixCode) * dict (list SuffixCode)
  * dict (list PlaceholderRec) * dict Info.

Definition replace_all (fuel : nat) (self : TextProcessor) (config : Config)
           (source_lang : str) (text_dict : dict str) : option Masked :=
  let processed_text := text_dict in
  let processed_text :=
    if pre_translation_switch config
    then replace_before_translation self processed_text
    else processed_text in
  let '(processed_text, affix_whitespace_storage) :=
    strip_and_record_affixes processed_text source_lang in
  match
    (if auto_process_text_code_segment config then
       match _process_affixes fuel processed_text
                              (auto_compiled_patterns self)
                              (auto_compiled_patterns self) with
       | None => None
       | Some (processed_text, prefix_codes, suffix_codes) =>
         let '(processed_text, placeholder_order) :=
           _replace_special_placeholders (target_platform config)
             processed_text (auto_compiled_patterns self) in
         Some (processed_text, prefix_codes, suffix_codes, placeholder_order)
       end
     else Some (processed_text, [], [], []))
  with
  | None => None
  | Some (processed_text, prefix_codes, suffix_codes, placeholder_order) =>
    let processed_text := digital_sequence_preprocessing processed_text in
    Some (processed_text, prefix_codes, suffix_codes, placeholder_order,
          affix_whitespace_storage)
  end.

Definition restore_all (self : TextProcessor) (config : Config)
           (text_dict : dict str)
           (prefix_codes : dict (list PrefixCode))
           (suffix_codes : dict (list SuffixCode))
           (placeholder_order : dict (list PlaceholderRec))
           (affix_whitespace_storage : dict Info) : dict str :=
  let restored := text_dict in
  let restored :=
    if auto_process_text_code_segment config then
      let restored := _restore_special_placeholders restored placeholder_order in
      _restore_affixes restored prefix_codes suffix_codes
    else restored in
  let restored :=
    if post_translation_switch config
    then replace_after_translation self restored
    else restored in
  let restored := digital_sequence_recovery restored in
  restore_affix_whitespace affix_whitespace_storage restored.

(** ** The dictionaries as objects

    [replace_all] and [restore_all] receive a reference to the caller's
    dictionary.  A heap of dictionary objects tells the calls that build
    a new dictionary from the ones that assign into the dictionary they
    are given ([digital_sequence_preprocessing] and
    [digital_sequence_recovery] do, and return it). *)
Module Obj.

Definition ref := nat.
Definition heap := list (dict str).

(** A computation on the heap; [None] when it does not return. *)
Definition M (A : Type) := heap -> option (A * heap).

Definition ret {A} (a : A) : M A := fun h => Some (a, h).

Definition bind {A B} (m : M A) (k : A -> M B) : M B :=
  fun h => match m h with
           | Some (a, h') => k a h'
           | None => None
           end.

(** A new dictionary object. *)
Definition alloc (d : dict str) : M ref :=
  fun h => Some (length h, h ++ [d]).

Definition read (r : ref) : M (dict str) :=
  fun h => match nth_error h r with
           | Some d => Some (d, h)
           | None => None
           end.

Fixpoint set_nth (r : nat) (d : dict str) (h : heap) : heap :=
  match h, r with
  | [], _ => []
  | _ :: t, 0 => d :: t
  | x :: t, S r' => x :: set_nth r' d t
  end.

(** Assignments to the keys of the object [r], leaving it as [d]. *)
Definition write (r : ref) (d : dict str) : M unit :=
  fun h => Some (tt, set_nth r d h).

Definition lift_option {A} (o : option A) : M A :=
  fun h => match o with
           | Some a => Some (a, h)
           | None => None
           end.

(** The heap [h] grew out of [h0], and the object [r], created since,
    holds [d]. *)
Definition working (h0 : heap) (h : heap) (r : ref) (d : dict str) : Prop :=
  (exists extra, h = h0 ++ extra) /\ length h0 <= r /\ nth_error h r = Some d.

End Obj.

Module ObjNotations.
Notation "x <~ c1 ;; c2" := (Obj.bind c1 (fun x => c2))
  (at level 61, c1 at next level, right associativity).
Notation "' pat <~ c1 ;; c2" :=
  (Obj.bind c1 (fun x => match x with pat => c2 end))
  (at level 61, pat pattern, c1 at next level, right associativity).
End ObjNotations.

Module Pipeline.
Import Obj ObjNotations.

(** The functions on dictionary values defined above, under names that
    the methods of this module do not shadow. *)
Module V.
Definition strip_and_record_affixes := strip_and_record_affixes.
Definition restore_affix_whitespace := restore_affix_whitespace.
Definition _process_affixes := _process_affixes.
Definition _restore_affixes := _restore_affixes.
Definition _replace_special_placeholders := _replace_special_placeholders.
Definition _restore_special_placeholders := _restore_special_placeholders.
End V.

(** [d.copy()] and [{k: v for k, v in d.items()}]. *)
Definition copy (r : ref) : M ref := d <~ read r ;; alloc d.

Definition digital_sequence_preprocessing (text_dict : ref) : M ref :=
  d <~ read text_dict ;;
  _ <~ write text_dict (update_values digital_sequence_preprocessing_text d) ;;
  ret text_dict.

Definition digital_sequence_recovery (text_dict : ref) : M ref :=
  d <~ read text_dict ;;
  _ <~ write text_dict (update_values digital_sequence_recovery_text d) ;;
  ret text_dict.

Definition replace_before_translation (self : TextProcessor) (text_dict : ref)
  : M ref :=
  processed_text_dict <~ copy text_dict ;;
  d <~ read processed_text_dict ;;
  _ <~ write processed_text_dict
         (update_values (apply_rules (pre_translation_rules_compiled self)) d) ;;
  ret processed_text_dict.

Definition replace_after_translation (self : TextProcessor) (text_dict : ref)
  : M ref :=
  processed_text_dict <~ copy text_dict ;;
  d <~ read processed_text_dict ;;
  _ <~ write processed_text_dict
         (update_values (apply_rules (post_translation_rules_compiled self)) d) ;;
  ret processed_text_dict.

Definition strip_and_record_affixes (text_dict : ref) (source_lang : str)
  : M (ref * dict Info) :=
  d <~ read text_dict ;;
  let '(processed, info) := V.strip_and_record_affixes d source_lang in
  processed_text_dict <~ alloc processed ;;
  ret (processed_text_dict, info).

Definition restore_affix_whitespace (processing_info : dict Info)
           (processed_dict : ref) : M ref :=
  d <~ read processed_dict ;;
  alloc (V.restore_affix_whitespace processing_info d).

Definition _process_affixes (fuel : nat) (text_dict : ref)
           (compiled_prefix_patterns compiled_suffix_patterns : list Pattern)
  : M (ref * dict (list PrefixCode) * dict (list SuffixCode)) :=
  d <~ read text_dict ;;
  ' (processed, prefix_codes, suffix_codes) <~
    lift_option (V._process_affixes fuel d compiled_prefix_patterns
                                      compiled_suffix_patterns) ;;
  processed_text_dict <~ alloc processed ;;
  ret (processed_text_dict, prefix_codes, suffix_codes).

Definition _restore_affixes (text_dict : ref)
           (prefix_codes : dict (list PrefixCode))
           (suffix_codes : dict (list SuffixCode)) : M ref :=
  d <~ read text_dict ;;
  alloc (V._restore_affixes d prefix_codes suffix_codes).

Definition _replace_special_placeholders (target_platform : str)
           (text_dict : ref) (compiled_placeholder_patterns : list Pattern)
  : M (ref * dict (list PlaceholderRec)) :=
  d <~ read text_dict ;;
  let '(new_dict, placeholder_order) :=
    V._replace_special_placeholders target_platform d
                                      compiled_placeholder_patterns in
  r <~ alloc new_dict ;;
  ret (r, placeholder_order).

Definition _restore_special_placeholders (text_dict : ref)
           (placeholder_order : dict (list PlaceholderRec)) : M ref :=
  d <~ read text_dict ;;
  alloc (V._restore_special_placeholders d placeholder_order).

Definition MaskedRef : Type :=
  ref * dict (list PrefixCode) * dict (list SuffixCode)
  * dict (list PlaceholderRec) * dict Info.

Definition replace_all (fuel : nat) (self : TextProcessor) (config : Config)
           (source_lang : str) (text_dict : ref) : M MaskedRef :=
  processed_text <~ copy text_dict ;;
  processed_text <~
    (if pre_translation_switch config
     then replace_before_translation self processed_text
     else ret processed_text) ;;
  ' (processed_text, affix_whitespace_storage) <~
    strip_and_record_affixes processed_text source_lang ;;
  ' (processed_text, prefix_codes, suffix_codes, placeholder_order) <~
    (if auto_process_text_code_segment config then
       ' (processed_text, prefix_codes, suffix_codes) <~
         _process_affixes fuel processed_text (auto_compiled_patterns self)
                          (auto_compiled_patterns self) ;;
       ' (processed_text, placeholder_order) <~
         _replace_special_placeholders (target_platform config)
           processed_text (auto_compiled_patterns self) ;;
       ret (processed_text, prefix_codes, suffix_codes, placeholder_order)
     else ret (processed_text, [], [], [])) ;;
  processed_text <~ digital_sequence_preprocessing processed_text ;;
  ret (processed_text, prefix_codes, suffix_codes, placeholder_order,
       affix_whitespace_storage).

Definition restore_all (self : TextProcessor) (config : Config)
           (text_dict : ref)
           (prefix_codes : dict (list PrefixCode))
           (suffix_codes : dict (list SuffixCode))
           (placeholder_order : dict (list PlaceholderRec))
           (affix_whitespace_storage : dict Info) : M ref :=
  restored <~ copy text_dict ;;
  restored <~
    (if auto_process_text_code_segment config then
       restored <~ _restore_special_placeholders restored placeholder_order ;;
       _restore_affixes restored prefix_codes suffix_codes
     else ret restored) ;;
  restored <~
    (if post_translation_switch config
     then replace_after_translation self restored
     else ret restored) ;;
  restored <~ digital_sequence_recovery restored ;;
  restore_affix_whitespace affix_whitespace_storage restored.

End Pipeline.

(** ** Some concrete patterns and configurations *)

(** The pattern [\s*M\s*] that the constructor builds for an exclusion
    item [{"markers": M}], for a marker [M] without letters that does
    not begin with whitespace (so that IGNORECASE changes nothing and
    the first [\s*] never has to give characters back). *)
Definition marker_match_at (marker s : str) : option nat :=
  let (ws1, r1) := span isspace_char s in
  if startswith marker r1 then
    let (ws2, _) := span isspace_char (skipn (length marker) r1) in
    Some (length ws1 + length marker + length ws2)
  else None.

Fixpoint marker_scan (fuel : nat) (marker : str) (pos : nat) (s : str)
  : list (nat * nat) :=
  match fuel with
  | 0 => []
  | S f =>
    match marker_match_at marker s with
    | Some (S n) =>
      (pos, pos + S n) :: marker_scan f marker (pos + S n) (skipn (S n) s)
    | _ =>
      match s with
      | [] => []
      | _ :: r => marker_scan f marker (S pos) r
      end
    end
  end.

Definition marker_pattern (marker : str) : Pattern :=
  {| pattern := u "\\s*" ++ re_escape marker ++ u "\\s*";
     p_match := marker_match_at marker;
     p_finditer := fun s => marker_scan (S (length s)) marker 0 s;
     p_sub := fun repl s =>
       fst (sub_loop (fun (_ : unit) _ => (repl, tt)) s
                     (marker_scan (S (length s)) marker 0 s) 0 [] tt) |}.

(** A processor without rules and patterns, and the configuration with
    every optional stage switched off. *)
Definition bare_processor : TextProcessor :=
  {| pre_translation_rules_compiled := [];
     post_translation_rules_compiled := [];
     auto_compiled_patterns := [] |}.

Definition stages_off : Config :=
  {| pre_translation_switch := false;
     post_translation_switch := false;
     auto_process_text_code_segment := false;
     target_platform := u "openai";
     pre_translation_data := None;
     post_translation_data := None;
     exclusion_list_data := None |}.

(** A processor whose only masking pattern is the marker ["@"], with
    code-segment processing switched on. *)
Definition marker_processor : TextProcessor :=
  {| pre_translation_rules_compiled := [];
     post_translation_rules_compiled := [];
     auto_compiled_patterns := [marker_pattern (u "@")] |}.

Definition code_segments_on : Config :=
  {| pre_translation_switch := false;
     post_translation_switch := false;
     auto_process_text_code_segment := true;
     target_platform := u "openai";
     pre_translation_data := None;
     post_translation_data := None;
     exclusion_list_data := None |}.

(** A processor with the one pre-translation rule that replaces ["a"]
    by ["b"], switched on. *)
Definition rule_processor : TextProcessor :=
  {| pre_translation_rules_compiled :=
       [{| cr_rule := {| rule_src := Some (u "a"); rule_dst := Some (u "b");
                         rule_regex := None |};
           cr_compiled_regex := None |}];
     post_translation_rules_compiled := [];
     auto_compiled_patterns := [] |}.

Definition pre_translation_on : Config :=
  {| pre_translation_switch := true;
     post_translation_switch := false;
     auto_process_text_code_segment := false;
     target_platform := u "openai";
     pre_translation_data :=
       Some [{| rule_src := Some (u "a"); rule_dst := Some (u "b");
                rule_regex := None |}];
     post_translation_data := None;
     exclusion_list_data := None |}.

(** A stand-in for [re.compile] that raises on the regular expression
    [bad] and compiles any other string as a marker. *)
Definition re_compile_rejecting (bad : str) (regex_str : str) (flags : Flags)
  : option Pattern :=
  if str_eqb regex_str bad then None else Some (marker_pattern regex_str).

(** ** Notions used in the statements and proofs *)

(** A text that [digital_sequence_recovery] rewrites: it begins with
    decimal digits between lenticular brackets. *)
Definition bracketed_ordinal (text : str) : bool :=
  match RE_DIGITAL_SEQ_REC_match text with Some _ => true | None => false end.

(** The rule compiles: it has no regular expression, or one that
    [re.compile] accepts. *)
Definition rule_compiles (re_compile : str -> Flags -> option Pattern)
           (rule : Rule) : Prop :=
  match truthy (rule_regex rule) with
  | Some regex_str => exists p, re_compile regex_str no_flags = Some p
  | None => True
  end.

Definition rule_with_regex (src dst regex : str) : Rule :=
  {| rule_src := Some src; rule_dst := Some dst; rule_regex := Some regex |}.

Definition literal_rule (src dst : str) : Rule :=
  {| rule_src := Some src; rule_dst := Some dst; rule_regex := None |}.

(** The spans are in order and do not overlap, from [pos] on. *)
Fixpoint spans_ok (pos : nat) (spans : list (nat * nat)) : Prop :=
  match spans with
  | [] => True
  | m :: rest => pos <= fst m /\ fst m <= snd m /\ spans_ok (snd m) rest
  end.

Fixpoint spans_okb (pos : nat) (spans : list (nat * nat)) : bool :=
  match spans with
  | [] => true
  | m :: rest => (pos <=? fst m) && (fst m <=? snd m) && spans_okb (snd m) rest
  end.

Definition total_placeholders (placeholder_order : dict (list PlaceholderRec))
  : nat :=
  list_sum (map (fun kv => length (snd kv)) placeholder_order).

Definition numbered_placeholders (first count : nat) : str :=
  concat (map (fun n => u "[P" ++ str_of_nat n ++ u "]") (seq first count)).

(** Patterns whose matches always consume something. *)
Definition prefix_progress (p : Pattern) : Prop :=
  forall t e, p_match p t = Some e -> firstn e t <> [].

Definition suffix_progress (p : Pattern) : Prop :=
  forall t m, best_suffix_match p t = Some m -> group0 t m <> [].

(** The text with each canonical marker replaced by the next recorded
    spelling. *)
Fixpoint restore_walk (s : str) (markers : list str) : str :=
  match s with
  | [] => []
  | c :: r =>
    if (c =? LF)%N then
      match markers with
      | m :: ms => m ++ restore_walk r ms
      | [] => LF :: restore_walk r []
      end
    else c :: restore_walk r markers
  end.

Definition ending_at (line_endings : list (nat * str)) (i : nat) : str :=
  match nth_error line_endings i with
  | Some e => snd e
  | None => [LF]
  end.

Fixpoint interleave (i : nat) (line_endings : list (nat * str))
         (lines : list str) : str :=
  match lines with
  | [] => []
  | l :: rest =>
    match rest with
    | [] => l
    | _ :: _ => l ++ ending_at line_endings i ++ interleave (S i) line_endings rest
    end
  end.

(** The cores of the lines that are not blank, and the records of all
    lines. *)
Definition cores (source_lang : str) (lines : list str) : list str :=
  flat_map (fun l => match fst (process_line source_lang l) with
                     | Some c => [c]
                     | None => []
                     end) lines.

Definition infos (source_lang : str) (lines : list str) : list LineInfo :=
  map (fun l => snd (process_line source_lang l)) lines.

(** The payload of a text: what [_process_multiline_text] hands on. *)
Definition payload (source_lang text : str) : str :=
  fst (_process_multiline_text text source_lang).

(** Masking a batch and restoring the masked output as it is (the
    identity translation) with the records that [replace_all] emitted:
    the masked batch and the restored batch. *)
Definition mask_then_restore (fuel : nat) (self : TextProcessor)
           (config : Config) (source_lang : str) (text_dict : dict str)
  : option (dict str * dict str) :=
  match replace_all fuel self config source_lang text_dict with
  | Some (masked, prefix_codes, suffix_codes, placeholder_order,
          affix_whitespace_storage) =>
    Some (masked,
          restore_all self config masked prefix_codes suffix_codes
                      placeholder_order affix_whitespace_storage)
  | None => None
  end.

(** The tag codec makes no record for the text. *)
Definition no_tag_record (text : str) : bool :=
  match snd (_process_tag_content text) with
  | None => true
  | Some _ => false
  end.

(** The pattern matches nowhere in the text. *)
Definition quiet (p : Pattern) (text : str) : bool :=
  match p_match p text, p_finditer p text with
  | None, [] => true
  | _, _ => false
  end.

(** No key occurs twice, as in every Python dictionary. *)
Fixpoint distinct (ks : list str) : bool :=
  match ks with
  | [] => true
  | k :: r => negb (existsb (str_eqb k) r) && distinct r
  end.

(** ** Notions used in the further properties *)

(** The tags of a text: what [RE_MULTI_TAG_PATTERN] finds in the text
    without its comments. *)
Definition tags_of (text : str) : list str :=
  let text_without_comments := _remove_comments text in
  map (group0 text_without_comments)
      (RE_MULTI_TAG_finditer text_without_comments).

(** The tag is a colon tag or a simple tag. *)
Definition recognized (full_tag : str) : bool :=
  match RE_COLON_TAG_match full_tag, RE_SIMPLE_TAG_match full_tag with
  | None, None => false
  | _, _ => true
  end.

(** A recognized tag on one line whose content, if it has one, is empty
    or not blank. *)
Definition restorable_tag (full_tag : str) : bool :=
  recognized full_tag
  && forallb (fun c => negb (c =? LF)%N) full_tag
  && match RE_COLON_TAG_match full_tag with
     | Some (_, tag_content, _) =>
       is_empty tag_content || negb (is_empty (strip tag_content))
     | None => true
     end.

(** What the third loop of [_process_multiple_tags_only] records and
    extracts for a recognized tag. *)
Definition tag_entry (i : nat) (full_tag : str) : TagEntry :=
  match RE_COLON_TAG_match full_tag with
  | Some (tag_prefix, tag_content, tag_suffix) =>
    {| te_index := i; te_tag_type := colon_tag;
       te_tag_prefix := tag_prefix; te_tag_suffix := tag_suffix;
       te_full_tag := [];
       te_content_leading_whitespace := leading_ws tag_content;
       te_content_trailing_whitespace := trailing_ws tag_content |}
  | None =>
    {| te_index := i; te_tag_type := simple_tag;
       te_tag_prefix := []; te_tag_suffix := [];
       te_full_tag := full_tag;
       te_content_leading_whitespace := [];
       te_content_trailing_whitespace := [] |}
  end.

Definition tag_core (full_tag : str) : str :=
  match RE_COLON_TAG_match full_tag with
  | Some (_, tag_content, _) => strip tag_content
  | None => []
  end.

(** The text before each match, from [last_end] on, and the end of the
    last match. *)
Fixpoint separators_from (t : str) (last_end : nat) (spans : list (nat * nat))
  : list str :=
  match spans with
  | [] => []
  | m :: rest => slice last_end (fst m) t :: separators_from t (snd m) rest
  end.

Definition last_end_of (last_end : nat) (spans : list (nat * nat)) : nat :=
  fold_left (fun _ m => snd m) spans last_end.

(** The text after each match, up to the next match or to the end of
    the text. *)
Fixpoint separators_after (t : str) (spans : list (nat * nat)) : list str :=
  match spans with
  | [] => []
  | m :: rest =>
    match rest with
    | [] => skipn (snd m) t
    | m' :: _ => slice (snd m) (fst m') t
    end :: separators_after t rest
  end.

(** The token of the [n]-th substitution outside the sakura mode. *)
Definition placeholder_token (n : nat) : str :=
  u "[P" ++ str_of_nat n ++ u "]".

(** The loop of [_restore_special_placeholders] over the records of one
    entry, last record first. *)
Definition restore_placeholders (placeholders_for_key : list PlaceholderRec)
           (text : str) : str :=
  fold_left
    (fun restored_text item =>
       if contains (ph_placeholder item) restored_text
       then replace_first (ph_placeholder item) (ph_original item)
                          restored_text
       else restored_text)
    (rev placeholders_for_key) text.

(** No token numbered above [g] begins inside [out] or across its end:
    a search for such a token passes over [out]. *)
Definition transparent (g : nat) (out : str) : Prop :=
  forall x W, g < x ->
    find (placeholder_token x) (out ++ W)
    = option_map (fun j => length out + j) (find (placeholder_token x) W).

(* ================================================================= *)
(** * Properties *)

Unset Implicit Arguments.

#[local] Arguments Nat.leb : simpl never.

(** ** Literals and string primitives on examples *)

Example u_ascii : u "1. Hello" = [49; 46; 32; 72; 101; 108; 108; 111]%N.
Proof. reflexivity. Qed.

Example u_brackets : u "【1】" = [LBRACKET; 49%N; RBRACKET].
Proof. reflexivity. Qed.

Example u_escapes : u "a\r\nb" = [97%N; CR; LF; 98%N].
Proof. reflexivity. Qed.

Example split_example :
  split (u "//") (u "a//b//c") = [u "a"; u "b"; u "c"].
Proof. reflexivity. Qed.

Example str_of_nat_50 : str_of_nat 50 = u "50".
Proof. reflexivity. Qed.



(** ** Strings *)

Lemma str_eqb_eq (a b : str) : str_eqb a b = true <-> a = b.
Proof.
  revert b; induction a as [|x a IH]; intros [|y b]; simpl; split;
    try congruence; try reflexivity.
  - intros H. apply andb_prop in H as [H1 H2].
    apply N.eqb_eq in H1. apply IH in H2. congruence.
  - intros H. injection H as -> ->.
    rewrite N.eqb_refl. simpl. now apply IH.
Qed.

Lemma str_eqb_refl (a : str) : str_eqb a a = true.
Proof. now apply str_eqb_eq. Qed.

Lemma span_spec (p : char -> bool) (s : str) :
  forall a b, span p s = (a, b) ->
    s = a ++ b /\ forallb p a = true /\
    match b with [] => True | c :: _ => p c = false end.
Proof.
  induction s as [|c s IH]; simpl; intros a b H.
  - injection H as <- <-. auto.
  - destruct (p c) eqn:Hc.
    + destruct (span p s) as [a' b'] eqn:E. injection H as <- <-.
      destruct (IH _ _ eq_refl) as (-> & Hall & Hb).
      simpl. rewrite Hc, Hall. auto.
    + injection H as <- <-. simpl. rewrite Hc. auto.
Qed.

Lemma span_app (p : char -> bool) (a b : str) :
  forallb p a = true ->
  match b with [] => True | c :: _ => p c = false end ->
  span p (a ++ b) = (a, b).
Proof.
  induction a as [|x a IH]; simpl; intros Ha Hb.
  - destruct b as [|c b]; simpl; [reflexivity | now rewrite Hb].
  - apply andb_prop in Ha as [Hx Ha]. rewrite Hx, IH; auto.
Qed.

(** ** DigitalSequenceCodec *)

Lemma RE_DIGITAL_SEQ_PRE_match_spec (text g1 rest : str) :
  RE_DIGITAL_SEQ_PRE_match text = Some (g1, rest) <->
  (g1 <> [] /\ forallb isdecimal_char g1 = true /\ text = g1 ++ DOT :: rest).
Proof.
  unfold RE_DIGITAL_SEQ_PRE_match, span_decimal. split.
  - destruct (span isdecimal_char text) as [a b] eqn:E.
    destruct (span_spec _ _ _ _ E) as (-> & Ha & Hb).
    destruct a as [|d ds]; [discriminate|].
    destruct b as [|c b]; [discriminate|].
    destruct (N.eqb_spec c DOT); [|discriminate].
    intros H. injection H as <- <-. subst c. repeat split; auto. discriminate.
  - intros (Hne & Hd & ->).
    rewrite span_app; auto.
    destruct g1; [congruence|]. reflexivity.
Qed.

Lemma RE_DIGITAL_SEQ_REC_match_spec (text g1 rest : str) :
  RE_DIGITAL_SEQ_REC_match text = Some (g1, rest) <->
  (g1 <> [] /\ forallb isdecimal_char g1 = true
   /\ text = LBRACKET :: g1 ++ RBRACKET :: rest).
Proof.
  unfold RE_DIGITAL_SEQ_REC_match, span_decimal. split.
  - destruct text as [|c0 s']; [discriminate|].
    destruct (N.eqb_spec c0 LBRACKET); [|discriminate]. subst c0.
    destruct (span isdecimal_char s') as [a b] eqn:E.
    destruct (span_spec _ _ _ _ E) as (-> & Ha & Hb).
    destruct a as [|d ds]; [discriminate|].
    destruct b as [|c b]; [discriminate|].
    destruct (N.eqb_spec c RBRACKET); [|discriminate].
    intros H. injection H as <- <-. subst c. repeat split; auto. discriminate.
  - intros (Hne & Hd & ->). rewrite N.eqb_refl.
    rewrite span_app; auto.
    destruct g1; [congruence|]. reflexivity.
Qed.

Lemma digital_sequence_text_roundtrip (text : str) :
  bracketed_ordinal text = false ->
  digital_sequence_recovery_text (digital_sequence_preprocessing_text text)
  = text.
Proof.
  unfold bracketed_ordinal, digital_sequence_preprocessing_text. intros Hb.
  destruct (RE_DIGITAL_SEQ_PRE_match text) as [[g1 rest]|] eqn:E.
  - apply RE_DIGITAL_SEQ_PRE_match_spec in E as (Hne & Hd & ->).
    unfold digital_sequence_recovery_text.
    replace (RE_DIGITAL_SEQ_REC_match (LBRACKET :: g1 ++ RBRACKET :: rest))
      with (Some (g1, rest)); [reflexivity|].
    symmetry. apply RE_DIGITAL_SEQ_REC_match_spec. auto.
  - unfold digital_sequence_recovery_text.
    destruct (RE_DIGITAL_SEQ_REC_match text); [discriminate | reflexivity].
Qed.


(** C8.  The examples of the two docstrings do not hold of the code.
    Protection replaces only the digits and the dot, so the space after
    the dot stays: ["1. 这是标题"] becomes ["【1】 这是标题"], not
    ["【1】这是标题"].  Recovery puts back only the digits and a dot, so
    ["【1】这是标题"] becomes ["1.这是标题"], not ["1. 这是标题"].  The
    same on the example of the claim: ["1. Hello"] is masked to
    ["【1】 Hello"], not to ["【1】Hello"], and ["【1】Hello"] is restored
    to ["1.Hello"], not to ["1. Hello"]. *)
Theorem digital_sequence_docstring_examples_fail :
  digital_sequence_preprocessing [(u "k", u "1. 这是标题")]
  = [(u "k", u "【1】 这是标题")]
  /\ str_eqb (u "【1】 这是标题") (u "【1】这是标题") = false
  /\ digital_sequence_recovery [(u "k", u "【1】这是标题")]
     = [(u "k", u "1.这是标题")]
  /\ str_eqb (u "1.这是标题") (u "1. 这是标题") = false
  /\ digital_sequence_preprocessing_text (u "1. Hello") = u "【1】 Hello"
  /\ str_eqb (u "【1】 Hello") (u "【1】Hello") = false
  /\ digital_sequence_recovery_text (u "【1】Hello") = u "1.Hello"
  /\ str_eqb (u "1.Hello") (u "1. Hello") = false.
Proof. repeat apply conj; vm_compute; reflexivity. Qed.

(** ** TagCodec on the examples *)

(** ["<b>A</b><i>B</i>"] holds four tags with [A] and [B] outside
    them: the multi-tag path declines it, the single-tag path too. *)
Lemma html_pair_not_masked :
  RE_MULTI_TAG_finditer (u "<b>A</b><i>B</i>")
  = [(0, 3); (4, 8); (8, 11); (12, 16)]
  /\ content_between_tags (u "<b>A</b><i>B</i>")
       (RE_MULTI_TAG_finditer (u "<b>A</b><i>B</i>")) = u "AB"
  /\ _process_tag_content (u "<b>A</b><i>B</i>") = (u "<b>A</b><i>B</i>", None).
Proof. repeat split; vm_compute; reflexivity. Qed.

(** C2, as amended.  ["<b>A</b><i>B</i>"] passes through the tag codec
    unchanged and without a record; the two colon tags ["<b:A><i:B>"]
    mask to the payload ["A\n===TAG_SEPARATOR===\nB"] with a
    multiple_tags record of two tags, and restoring the translated
    payload ["X\n===TAG_SEPARATOR===\nY"] with that record yields
    ["<b:X><i:Y>"]. *)
Theorem multi_tag_round_trip :
  _process_tag_content (u "<b>A</b><i>B</i>") = (u "<b>A</b><i>B</i>", None)
  /\ (exists tag_infos separators,
        _process_tag_content (u "<b:A><i:B>")
        = (u "A\n===TAG_SEPARATOR===\nB",
           Some (multiple_tags_info tag_infos separators 2))
        /\ _restore_tag_content (u "X\n===TAG_SEPARATOR===\nY")
             (Some (multiple_tags_info tag_infos separators 2))
           = u "<b:X><i:Y>").
Proof.
  split; [vm_compute; reflexivity|].
  eexists. eexists. split; vm_compute; reflexivity.
Qed.

(** ** Line endings on the examples *)

(** The normalized text of the example has four logical lines, and
    four entries in [lines_info]. *)
Lemma line_ending_example_has_four_lines :
  _normalize_line_endings (u "a\r\nb\n<br>c")
  = (u "a\nb\n\nc", [(0, u "\r\n"); (1, u "\n"); (2, u "<br>")])
  /\ split_char LF (fst (_normalize_line_endings (u "a\r\nb\n<br>c")))
     = [u "a"; u "b"; []; u "c"]
  /\ length (info_lines_info
               (snd (_process_multiline_text (u "a\r\nb\n<br>c") (u "en"))))
     = 4.
Proof. repeat split; vm_compute; reflexivity. Qed.

(** C5, as amended.  Normalizing ["a\r\nb\n<br>c"] records the three
    line endings and gives ["a\nb\n\nc"]: four logical lines, the third
    of them empty.  The payload handed to translation is the three
    non-empty lines ["a\nb\nc"], and restoring it unchanged with the
    record reproduces the text exactly, each spelling at its place. *)
Theorem line_ending_fidelity :
  let text := u "a\r\nb\n<br>c" in
  let line_endings := [(0, u "\r\n"); (1, u "\n"); (2, u "<br>")] in
  _normalize_line_endings text = (u "a\nb\n\nc", line_endings)
  /\ split_char LF (u "a\nb\n\nc") = [u "a"; u "b"; []; u "c"]
  /\ _restore_line_endings (u "a\nb\n\nc") line_endings = text
  /\ (forall source_lang,
        exists info,
          _process_multiline_text text source_lang = (u "a\nb\nc", info)
          /\ info_line_endings info = line_endings
          /\ map li_is_empty (info_lines_info info)
             = [false; false; true; false]
          /\ _restore_multiline_text (u "a\nb\nc") info = text).
Proof.
  cbv zeta. split; [vm_compute; reflexivity|].
  split; [vm_compute; reflexivity|]. split; [vm_compute; reflexivity|].
  intros source_lang. unfold _process_multiline_text.
  replace (_process_tag_content (u "a\r\nb\n<br>c"))
    with (u "a\r\nb\n<br>c", @None TagInfo) by (vm_compute; reflexivity).
  replace (_normalize_line_endings (u "a\r\nb\n<br>c"))
    with (u "a\nb\n\nc", [(0, u "\r\n"); (1, u "\n"); (2, u "<br>")])
    by (vm_compute; reflexivity).
  replace (split_char LF (u "a\nb\n\nc")) with [u "a"; u "b"; []; u "c"]
    by (vm_compute; reflexivity).
  unfold process_line, select_pattern.
  destruct (str_eqb source_lang (u "ja") || str_eqb source_lang (u "japanese"));
    (eexists; split; [vm_compute; reflexivity|];
     split; [vm_compute; reflexivity|];
     split; vm_compute; reflexivity).
Qed.

(** C6, the code at the failing input.  Whatever runs from ["<br"] to
    the next [">"] is taken for a line ending: ["<browser>"] and
    ["<bracket>"] are recorded as line endings and leave the line
    content.  The six documented markers are recognised. *)
Theorem br_prefixed_tag_is_line_ending :
  _normalize_line_endings (u "<browser>") = (u "\n", [(0, u "<browser>")])
  /\ _normalize_line_endings (u "a<bracket>b")
     = (u "a\nb", [(0, u "<bracket>")])
  /\ _normalize_line_endings (u "a\r\nb\rc\nd<br>e<BR/>f<Br />g")
     = (u "a\nb\nc\nd\ne\nf\ng",
        [(0, u "\r\n"); (1, u "\r"); (2, u "\n"); (3, u "<br>");
         (4, u "<BR/>"); (5, u "<Br />")]).
Proof. repeat split; vm_compute; reflexivity. Qed.

(** ** RuleCompiler *)

Section CompileRules.

Variable re_compile : str -> Flags -> option Pattern.

Lemma compile_rules_loop_raises (before after : list Rule) (rule : Rule)
      (regex_str : str) :
  Forall (rule_compiles re_compile) before ->
  truthy (rule_regex rule) = Some regex_str ->
  re_compile regex_str no_flags = None ->
  forall acc,
    compile_rules_loop re_compile (before ++ rule :: after) acc
    = Raise (re_error regex_str).
Proof.
  intros Hb Ht Hc. induction Hb as [|r before Hr Hb IH]; intros acc; simpl.
  - rewrite Ht. unfold compile. rewrite Hc. reflexivity.
  - unfold rule_compiles in Hr. destruct (truthy (rule_regex r)) as [rs|].
    + destruct Hr as [p Hp]. unfold compile. rewrite Hp. simpl. apply IH.
    + simpl. apply IH.
Qed.

Lemma compile_rules_loop_ok (rules : list Rule) :
  Forall (rule_compiles re_compile) rules ->
  forall acc, exists compiled,
    compile_rules_loop re_compile rules acc = Ok (acc ++ compiled)
    /\ map cr_rule compiled = rules.
Proof.
  induction 1 as [|r rules Hr Hrs IH]; intros acc; simpl.
  - exists []. now rewrite app_nil_r.
  - unfold rule_compiles in Hr. destruct (truthy (rule_regex r)) as [rs|].
    + destruct Hr as [p Hp]. unfold compile. rewrite Hp. simpl.
      destruct (IH (acc ++ [{| cr_rule := r; cr_compiled_regex := Some p |}]))
        as (c & -> & Hc).
      eexists (_ :: c). rewrite <- app_assoc. simpl. split; [reflexivity|].
      now rewrite Hc.
    + simpl.
      destruct (IH (acc ++ [{| cr_rule := r; cr_compiled_regex := None |}]))
        as (c & -> & Hc).
      eexists (_ :: c). rewrite <- app_assoc. simpl. split; [reflexivity|].
      now rewrite Hc.
Qed.

Lemma compile_all_raises (before after : list str) (p_str : str) flags :
  Forall (fun s => exists p, re_compile s flags = Some p) before ->
  p_str <> [] ->
  re_compile p_str flags = None ->
  compile_all re_compile (before ++ p_str :: after) flags
  = Raise (re_error p_str).
Proof.
  intros Hb Hne Hc. induction Hb as [|s before [p Hp] Hb IH]; simpl.
  - destruct p_str; [congruence|]. unfold compile. now rewrite Hc.
  - destruct s; [exact IH|]. unfold compile. rewrite Hp. simpl.
    now rewrite IH.
Qed.

End CompileRules.

Lemma compile_translation_rules_ok
      (re_compile : str -> Flags -> option Pattern)
      (rules_data : option (list Rule)) :
  Forall (rule_compiles re_compile)
         (match rules_data with Some rules => rules | None => [] end) ->
  exists compiled,
    _compile_translation_rules re_compile rules_data = Ok compiled
    /\ map cr_rule compiled
       = match rules_data with Some rules => rules | None => [] end.
Proof.
  destruct rules_data as [[|r rules]|]; intros H;
    [now exists [] | | now exists []].
  destruct (compile_rules_loop_ok re_compile _ H []) as (c & E & Hc).
  exists c. split; [exact E | exact Hc].
Qed.

Lemma compile_all_ok (re_compile : str -> Flags -> option Pattern)
      (pattern_strings : list str) (flags : Flags) :
  Forall (fun s => exists p, re_compile s flags = Some p) pattern_strings ->
  exists ps,
    compile_all re_compile pattern_strings flags = Ok ps
    /\ length ps
       = length (filter (fun s => negb (is_empty s)) pattern_strings).
Proof.
  induction 1 as [|s l [p Hp] _ (ps & E & Hl)]; [now exists []|].
  cbn [compile_all filter]. destruct s as [|c s]; cbn [is_empty negb].
  - exists ps. auto.
  - unfold compile. rewrite Hp. cbn [rbind]. rewrite E. cbn [rbind].
    exists (p :: ps). cbn [length]. auto.
Qed.

Lemma build_dynamic_pattern_strings_not_empty (base_patterns : list str) :
  filter (fun s => negb (is_empty s))
         (_build_dynamic_pattern_strings base_patterns)
  = _build_dynamic_pattern_strings base_patterns.
Proof.
  induction base_patterns as [|p l IH]; [reflexivity|].
  change (_build_dynamic_pattern_strings (p :: l))
    with (match p with
          | [] => []
          | _ :: _ => [u "\\s*" ++ p ++ u "\\s*"]
          end ++ _build_dynamic_pattern_strings l).
  destruct p as [|c p]; [exact IH|].
  rewrite filter_app. f_equal. exact IH.
Qed.

Section CompileInversion.

Variable re_compile : str -> Flags -> option Pattern.

Lemma compile_rules_loop_inv (rules : list Rule) :
  forall acc compiled,
    compile_rules_loop re_compile rules acc = Ok compiled ->
    Forall (rule_compiles re_compile) rules.
Proof.
  induction rules as [|r rules IH]; intros acc compiled H; [constructor|].
  cbn [compile_rules_loop] in H.
  constructor.
  - unfold rule_compiles. destruct (truthy (rule_regex r)) as [rs|]; [|exact I].
    unfold compile in H. destruct (re_compile rs no_flags) as [p|];
      [now exists p | discriminate H].
  - destruct (truthy (rule_regex r)) as [rs|].
    + unfold compile in H. destruct (re_compile rs no_flags) as [p|];
        [|discriminate H].
      cbn [rbind] in H. exact (IH _ _ H).
    + cbn [rbind] in H. exact (IH _ _ H).
Qed.

Lemma compile_translation_rules_inv (rules_data : option (list Rule))
      (compiled : list CompiledRule) :
  _compile_translation_rules re_compile rules_data = Ok compiled ->
  Forall (rule_compiles re_compile)
         (match rules_data with Some rules => rules | None => [] end)
  /\ map cr_rule compiled
     = match rules_data with Some rules => rules | None => [] end.
Proof.
  destruct rules_data as [[|r rules]|]; cbn [_compile_translation_rules];
    intros H.
  - injection H as <-. split; [constructor | reflexivity].
  - pose proof (compile_rules_loop_inv _ _ _ H) as Hall.
    split; [exact Hall|].
    destruct (compile_rules_loop_ok re_compile _ Hall []) as (c & E & Hc).
    rewrite E in H. injection H as <-. exact Hc.
  - injection H as <-. split; [constructor | reflexivity].
Qed.

Lemma build_dynamic_pattern_strings_each (base_patterns : list str) :
  Forall (fun s => s <> []) (_build_dynamic_pattern_strings base_patterns).
Proof.
  unfold _build_dynamic_pattern_strings.
  induction base_patterns as [|p l IH]; [constructor|].
  cbn [flat_map]. destruct p as [|c p]; [exact IH|].
  cbn [app]. constructor; [|exact IH].
  intros E. apply (f_equal (@length char)) in E.
  rewrite !length_app in E. cbn [length] in E. lia.
Qed.

Lemma compile_all_inv (pattern_strings : list str) (flags : Flags) :
  forall ps,
    compile_all re_compile pattern_strings flags = Ok ps ->
    Forall (fun s => s <> [] -> exists p, re_compile s flags = Some p)
           pattern_strings.
Proof.
  induction pattern_strings as [|s l IH]; intros ps H; [constructor|].
  cbn [compile_all] in H. destruct s as [|c s].
  - constructor; [congruence | exact (IH _ H)].
  - unfold compile in H. destruct (re_compile (c :: s) flags) as [p|] eqn:E;
      [|discriminate H].
    cbn [rbind] in H.
    destruct (compile_all re_compile l flags) as [ps'|] eqn:E'; [|discriminate H].
    constructor; [intros _; now exists p | exact (IH _ eq_refl)].
Qed.

End CompileInversion.

(** C4, as amended.  Nothing on the compile path catches [re.error]:
    a rule list raises at its first rule whose regular expression
    [re.compile] rejects, whatever the later rules are, and so does the
    pattern list at its first pattern that is rejected; the constructor
    raises with them, for the pre-translation list, for the
    post-translation list when the first one compiles, and for the
    pattern list when both compile and the regex library is read.  A
    rule list is compiled exactly when every regular expression in it
    compiles, and then into every rule in order; the constructor returns
    exactly when both rule lists and every pattern string compile. *)
Theorem malformed_rule_aborts_construction
        (re_compile : str -> Flags -> option Pattern) :
  (forall (before after : list Rule) (rule : Rule) (regex_str : str),
      Forall (rule_compiles re_compile) before ->
      truthy (rule_regex rule) = Some regex_str ->
      re_compile regex_str no_flags = None ->
      _compile_translation_rules re_compile (Some (before ++ rule :: after))
      = Raise (re_error regex_str)
      /\ (forall regex_file config,
            pre_translation_data config = Some (before ++ rule :: after) ->
            __init__ re_compile regex_file config = Raise (re_error regex_str))
      /\ (forall regex_file config,
            Forall (rule_compiles re_compile)
                   (match pre_translation_data config with
                    | Some rules => rules | None => [] end) ->
            post_translation_data config = Some (before ++ rule :: after) ->
            __init__ re_compile regex_file config = Raise (re_error regex_str)))
  /\ (forall (before after : list str) (p_str : str),
         Forall (fun s => exists p, re_compile s IGNORECASE_MULTILINE = Some p)
                before ->
         p_str <> [] ->
         re_compile p_str IGNORECASE_MULTILINE = None ->
         compile_all re_compile (before ++ p_str :: after) IGNORECASE_MULTILINE
         = Raise (re_error p_str)
         /\ (forall regex_file config code_pattern_strings,
               Forall (rule_compiles re_compile)
                      (match pre_translation_data config with
                       | Some rules => rules | None => [] end) ->
               Forall (rule_compiles re_compile)
                      (match post_translation_data config with
                       | Some rules => rules | None => [] end) ->
               _prepare_code_pattern_strings (exclusion_list_data config)
                                             regex_file
               = Ok code_pattern_strings ->
               _build_dynamic_pattern_strings code_pattern_strings
               = before ++ p_str :: after ->
               __init__ re_compile regex_file config = Raise (re_error p_str)))
  /\ (forall rules_data,
         (exists compiled,
             _compile_translation_rules re_compile rules_data = Ok compiled)
         <-> Forall (rule_compiles re_compile)
                    (match rules_data with Some rules => rules | None => [] end))
  /\ (forall rules_data compiled,
         _compile_translation_rules re_compile rules_data = Ok compiled ->
         map cr_rule compiled
         = match rules_data with Some rules => rules | None => [] end)
  /\ (forall regex_file config,
         (exists self, __init__ re_compile regex_file config = Ok self)
         <-> (Forall (rule_compiles re_compile)
                     (match pre_translation_data config with
                      | Some rules => rules | None => [] end)
              /\ Forall (rule_compiles re_compile)
                        (match post_translation_data config with
                         | Some rules => rules | None => [] end)
              /\ exists code_pattern_strings,
                  _prepare_code_pattern_strings (exclusion_list_data config)
                                                regex_file
                  = Ok code_pattern_strings
                  /\ Forall (fun s => exists p,
                                 re_compile s IGNORECASE_MULTILINE = Some p)
                            (_build_dynamic_pattern_strings
                               code_pattern_strings)))
  /\ (forall regex_file config self,
         __init__ re_compile regex_file config = Ok self ->
         map cr_rule (pre_translation_rules_compiled self)
         = match pre_translation_data config with
           | Some rules => rules | None => [] end
         /\ map cr_rule (post_translation_rules_compiled self)
            = match post_translation_data config with
              | Some rules => rules | None => [] end
         /\ exists code_pattern_strings,
             _prepare_code_pattern_strings (exclusion_list_data config)
                                           regex_file
             = Ok code_pattern_strings
             /\ length (auto_compiled_patterns self)
                = length (_build_dynamic_pattern_strings
                            code_pattern_strings)).
Proof.
  assert (Hinit : forall regex_file config self,
             __init__ re_compile regex_file config = Ok self ->
             exists pre post code_pattern_strings auto,
               _compile_translation_rules re_compile (pre_translation_data config)
               = Ok pre
               /\ _compile_translation_rules re_compile
                    (post_translation_data config) = Ok post
               /\ _prepare_code_pattern_strings (exclusion_list_data config)
                                                regex_file
                  = Ok code_pattern_strings
               /\ compile_all re_compile
                    (_build_dynamic_pattern_strings code_pattern_strings)
                    IGNORECASE_MULTILINE = Ok auto
               /\ self = {| pre_translation_rules_compiled := pre;
                            post_translation_rules_compiled := post;
                            auto_compiled_patterns := auto |}).
  { intros regex_file config self. unfold __init__.
    destruct (_compile_translation_rules re_compile
                (pre_translation_data config)) as [pre|] eqn:E1;
      [|discriminate].
    destruct (_compile_translation_rules re_compile
                (post_translation_data config)) as [post|] eqn:E2;
      [|discriminate].
    cbn [rbind].
    destruct (_prepare_code_pattern_strings _ regex_file) as [cps|] eqn:E3;
      [|discriminate].
    cbn [rbind].
    destruct (compile_all re_compile _ IGNORECASE_MULTILINE) as [auto|] eqn:E4;
      [|discriminate].
    cbn [rbind]. intros H. injection H as <-.
    exists pre, post, cps, auto. repeat split; assumption. }
  split; [|split; [|split; [|split; [|split]]]].
  - intros before after rule regex_str Hb Ht Hc.
    assert (H : _compile_translation_rules re_compile
                  (Some (before ++ rule :: after)) = Raise (re_error regex_str)).
    { unfold _compile_translation_rules.
      destruct (before ++ rule :: after) eqn:E.
      - destruct before; discriminate.
      - rewrite <- E. now apply compile_rules_loop_raises. }
    split; [exact H|]. split.
    + intros regex_file config Hpre. unfold __init__. rewrite Hpre, H.
      reflexivity.
    + intros regex_file config Hpre Hpost. unfold __init__.
      destruct (compile_translation_rules_ok re_compile _ Hpre)
        as (pre & -> & _).
      rewrite Hpost, H. reflexivity.
  - intros before after p_str Hb Hne Hc.
    pose proof (compile_all_raises re_compile before after p_str
                  IGNORECASE_MULTILINE Hb Hne Hc) as H.
    split; [exact H|].
    intros regex_file config cps Hpre Hpost Hprep Hbuild. unfold __init__.
    destruct (compile_translation_rules_ok re_compile _ Hpre)
      as (pre & -> & _).
    destruct (compile_translation_rules_ok re_compile _ Hpost)
      as (post & -> & _).
    cbn [rbind]. rewrite Hprep. cbn [rbind]. rewrite Hbuild, H. reflexivity.
  - intros rules_data. split.
    + intros [compiled H]. exact (proj1 (compile_translation_rules_inv _ _ _ H)).
    + intros H. destruct (compile_translation_rules_ok re_compile _ H)
        as (c & E & _). now exists c.
  - intros rules_data compiled H.
    exact (proj2 (compile_translation_rules_inv _ _ _ H)).
  - intros regex_file config. split.
    + intros [self H].
      destruct (Hinit _ _ _ H) as (pre & post & cps & auto & H1 & H2 & H3 & H4 & _).
      split; [exact (proj1 (compile_translation_rules_inv _ _ _ H1))|].
      split; [exact (proj1 (compile_translation_rules_inv _ _ _ H2))|].
      exists cps. split; [exact H3|].
      pose proof (compile_all_inv _ _ _ _ H4) as Hall.
      pose proof (build_dynamic_pattern_strings_each cps) as Hne.
      rewrite Forall_forall in *. intros s Hs. exact (Hall s Hs (Hne s Hs)).
    + intros (Hpre & Hpost & cps & Hprep & Hauto). unfold __init__.
      destruct (compile_translation_rules_ok re_compile _ Hpre)
        as (pre & -> & _).
      destruct (compile_translation_rules_ok re_compile _ Hpost)
        as (post & -> & _).
      cbn [rbind]. rewrite Hprep. cbn [rbind].
      destruct (compile_all_ok re_compile _ _ Hauto) as (ps & -> & _).
      cbn [rbind]. eauto.
  - intros regex_file config self H.
    destruct (Hinit _ _ _ H) as (pre & post & cps & auto & H1 & H2 & H3 & H4 & ->).
    cbn [pre_translation_rules_compiled post_translation_rules_compiled
         auto_compiled_patterns].
    split; [exact (proj2 (compile_translation_rules_inv _ _ _ H1))|].
    split; [exact (proj2 (compile_translation_rules_inv _ _ _ H2))|].
    exists cps. split; [exact H3|].
    assert (Hauto : Forall (fun s => exists p,
                                re_compile s IGNORECASE_MULTILINE = Some p)
                           (_build_dynamic_pattern_strings cps)).
    { pose proof (compile_all_inv _ _ _ _ H4) as Hall.
      pose proof (build_dynamic_pattern_strings_each cps) as Hne.
      rewrite Forall_forall in *. intros s Hs. exact (Hall s Hs (Hne s Hs)). }
    destruct (compile_all_ok re_compile _ _ Hauto) as (ps & E & Hlen).
    rewrite E in H4. injection H4 as <-.
    now rewrite build_dynamic_pattern_strings_not_empty in Hlen.
Qed.

Lemma malformed_rule_aborts_construction_witness :
  Forall (rule_compiles (re_compile_rejecting (u "(")))
         [literal_rule (u "a") (u "b")]
  /\ truthy (rule_regex (rule_with_regex (u "x") (u "y") (u "("))) = Some (u "(")
  /\ re_compile_rejecting (u "(") (u "(") no_flags = None
  /\ _compile_translation_rules (re_compile_rejecting (u "("))
       (Some ([literal_rule (u "a") (u "b")]
                ++ rule_with_regex (u "x") (u "y") (u "(")
                :: [literal_rule (u "c") (u "d")]))
     = Raise (re_error (u "(")).
Proof.
  assert (H1 : Forall (rule_compiles (re_compile_rejecting (u "(")))
                      [literal_rule (u "a") (u "b")])
    by (repeat constructor).
  assert (H2 : truthy (rule_regex (rule_with_regex (u "x") (u "y") (u "(")))
               = Some (u "(")) by reflexivity.
  assert (H3 : re_compile_rejecting (u "(") (u "(") no_flags = None)
    by reflexivity.
  split; [exact H1|]. split; [exact H2|]. split; [exact H3|].
  exact (proj1 (proj1 (malformed_rule_aborts_construction
                         (re_compile_rejecting (u "(")))
                      [literal_rule (u "a") (u "b")]
                      [literal_rule (u "c") (u "d")]
                      (rule_with_regex (u "x") (u "y") (u "(")) (u "(")
                      H1 H2 H3)).
Defined.

(** A rule list with one malformed pattern between two well-formed
    rules, and a malformed pattern in the regex library: the compilation
    and the constructor raise, no rule is compiled into a result. *)
Lemma malformed_rule_is_not_skipped :
  _compile_translation_rules (re_compile_rejecting (u "("))
    (Some [literal_rule (u "a") (u "b");
           rule_with_regex (u "x") (u "y") (u "(");
           literal_rule (u "c") (u "d")])
  = Raise (re_error (u "("))
  /\ __init__ (re_compile_rejecting (u "(")) (Some [])
       {| pre_translation_switch := true;
          post_translation_switch := false;
          auto_process_text_code_segment := false;
          target_platform := u "openai";
          pre_translation_data :=
            Some [literal_rule (u "a") (u "b");
                  rule_with_regex (u "x") (u "y") (u "(");
                  literal_rule (u "c") (u "d")];
          post_translation_data := None;
          exclusion_list_data := None |}
     = Raise (re_error (u "("))
  /\ __init__ (re_compile_rejecting (u "\\s*(\\s*")) (Some [Some (u "(")])
       stages_off
     = Raise (re_error (u "\\s*(\\s*")).
Proof. repeat split; vm_compute; reflexivity. Qed.

(** ** Spans of matches *)

Lemma spans_okb_ok pos spans : spans_okb pos spans = true <-> spans_ok pos spans.
Proof.
  revert pos; induction spans as [|m rest IH]; intros pos; simpl.
  - tauto.
  - rewrite !andb_true_iff, !Nat.leb_le, IH. tauto.
Qed.

Lemma slice_skipn (a b : nat) (t : str) :
  a <= b -> slice a b t ++ skipn b t = skipn a t.
Proof.
  intros H. unfold slice.
  replace (skipn b t) with (skipn (b - a) (skipn a t)).
  - apply firstn_skipn.
  - rewrite skipn_skipn. f_equal. lia.
Qed.

Lemma find_bound (needle hay : str) (j : nat) :
  find needle hay = Some j -> startswith needle (skipn j hay) = true.
Proof.
  revert j; induction hay as [|c hay IH]; intros j; simpl.
  - destruct (startswith needle []) eqn:E; [|discriminate].
    intros H; injection H as <-. exact E.
  - destruct (startswith needle (c :: hay)) eqn:E.
    + intros H; injection H as <-. exact E.
    + destruct (find needle hay) as [k|]; [|discriminate].
      simpl. intros H; injection H as <-. simpl. now apply IH.
Qed.

Lemma find_char_lt (c : char) (hay : str) (j : nat) :
  find [c] hay = Some j -> j < length hay.
Proof.
  intros H. apply find_bound in H.
  destruct (skipn j hay) eqn:E; [discriminate|].
  assert (length (skipn j hay) > 0) by (rewrite E; simpl; lia).
  rewrite length_skipn in H0. lia.
Qed.

Lemma spans_ok_weaken (pos pos' : nat) (spans : list (nat * nat)) :
  pos' <= pos -> spans_ok pos spans -> spans_ok pos' spans.
Proof. destruct spans as [|m l]; simpl; intuition lia. Qed.

Lemma multi_tag_scan_ok (fuel : nat) :
  forall pos s, spans_ok pos (multi_tag_scan fuel pos s).
Proof.
  induction fuel as [|f IH]; intros pos s; simpl; [exact I|].
  destruct s as [|c r]; [exact I|].
  assert (Hnext : forall r0, spans_ok pos (multi_tag_scan f (S pos) r0)).
  { intros r0. apply spans_ok_weaken with (S pos); [lia | apply IH]. }
  destruct (c =? LT)%N; [|apply Hnext].
  destruct r as [|c1 r']; [exact I|].
  destruct (c1 =? GT)%N; [apply Hnext|].
  destruct (find [GT] (c1 :: r')) as [j|]; [|apply Hnext].
  simpl. repeat split; try lia. apply IH.
Qed.

Lemma RE_MULTI_TAG_finditer_ok (s : str) : spans_ok 0 (RE_MULTI_TAG_finditer s).
Proof. apply multi_tag_scan_ok. Qed.

(** ** The multi-tag path *)

Lemma reconstruct_fold (t : str) (spans : list (nat * nat)) :
  forall acc last_end,
    spans_ok last_end spans ->
    let '(reconstructed, e) :=
      fold_left
        (fun st m => (fst st ++ slice (snd st) (fst m) t ++ group0 t m, snd m))
        spans (acc, last_end) in
    reconstructed ++ skipn e t = acc ++ skipn last_end t.
Proof.
  induction spans as [|m rest IH]; intros acc last_end Hok; simpl.
  - reflexivity.
  - destruct Hok as (H1 & H2 & Hok).
    specialize (IH (acc ++ slice last_end (fst m) t ++ group0 t m) (snd m) Hok).
    destruct (fold_left _ rest _) as [rec e]. rewrite IH.
    unfold group0. rewrite <- !app_assoc. f_equal.
    rewrite slice_skipn by assumption. now apply slice_skipn.
Qed.

Lemma reconstruct_ok (t : str) (spans : list (nat * nat)) :
  spans_ok 0 spans -> reconstruct t spans = t.
Proof.
  intros Hok. unfold reconstruct.
  pose proof (reconstruct_fold t spans [] 0 Hok) as H.
  destruct (fold_left _ spans _) as [rec e]. exact H.
Qed.

(** C10.  The text rebuilt from the pieces between the tag matches and
    the matches themselves is always the comment-stripped text, so the
    branch that rejects on a difference is never taken:
    [_process_multiple_tags_only] declines a text exactly when it has
    fewer than two tag matches or some text outside the tags is not
    whitespace, and makes a record otherwise. *)
Theorem multi_tag_reconstruction_never_rejects (text : str) :
  let text_without_comments := _remove_comments text in
  let matches := RE_MULTI_TAG_finditer text_without_comments in
  reconstruct text_without_comments matches = text_without_comments
  /\ (_process_multiple_tags_only text = (text, None) <->
      (length matches < 2
       \/ strip (content_between_tags text_without_comments matches) <> []))
  /\ (_process_multiple_tags_only text = (text, None)
      \/ exists payload info,
           _process_multiple_tags_only text = (payload, Some info)).
Proof.
  cbv zeta.
  assert (Hrec : reconstruct (_remove_comments text)
                   (RE_MULTI_TAG_finditer (_remove_comments text))
                 = _remove_comments text)
    by (apply reconstruct_ok, RE_MULTI_TAG_finditer_ok).
  split; [exact Hrec|].
  unfold _process_multiple_tags_only. rewrite Hrec, str_eqb_refl. simpl.
  destruct (Nat.ltb_spec (length (RE_MULTI_TAG_finditer (_remove_comments text))) 2)
    as [Hlt|Hge].
  - split; [|now left]. split; [now left | reflexivity].
  - destruct (strip (content_between_tags _ _)) as [|c rest] eqn:E.
    + split.
      * split; [discriminate|]. intros [H|H]; [lia | congruence].
      * right. eauto.
    + split; [|now left]. split; [|reflexivity].
      intros _. right. discriminate.
Qed.

(** ** PlaceholderMasker: the cap of 50 substitutions *)

Section Cap.

Variable target_platform : str.

Lemma replacer_count (pattern_obj : Pattern) (st : MaskState) (g0 : str) :
  let st' := snd (replacer_for_this_pattern target_platform pattern_obj st g0) in
  global_match_count st <= global_match_count st'
  /\ (global_match_count st <= 50 -> global_match_count st' <= 50)
  /\ length (single_pattern_replacements st') + global_match_count st
     = length (single_pattern_replacements st) + global_match_count st'.
Proof.
  unfold replacer_for_this_pattern.
  destruct (Nat.leb_spec 50 (global_match_count st)); simpl.
  - lia.
  - rewrite length_app. simpl. lia.
Qed.

Lemma replacer_saturated (pattern_obj : Pattern) (st : MaskState) (g0 : str) :
  50 <= global_match_count st ->
  replacer_for_this_pattern target_platform pattern_obj st g0 = (g0, st).
Proof.
  intros H. unfold replacer_for_this_pattern.
  destruct (Nat.leb_spec 50 (global_match_count st)); [reflexivity | lia].
Qed.

Lemma sub_loop_count (pattern_obj : Pattern) (text : str)
      (spans : list (nat * nat)) :
  forall pos out st,
    let st' := snd (sub_loop (replacer_for_this_pattern target_platform pattern_obj)
                             text spans pos out st) in
    global_match_count st <= global_match_count st'
    /\ (global_match_count st <= 50 -> global_match_count st' <= 50)
    /\ length (single_pattern_replacements st') + global_match_count st
       = length (single_pattern_replacements st) + global_match_count st'.
Proof.
  induction spans as [|m rest IH]; intros pos out st; simpl.
  - lia.
  - pose proof (replacer_count pattern_obj st (group0 text m)) as H.
    destruct (replacer_for_this_pattern target_platform pattern_obj st
                                        (group0 text m)) as [r st1].
    simpl in H.
    specialize (IH (snd m) (out ++ slice pos (fst m) text ++ r) st1).
    simpl in IH. lia.
Qed.

(** Once the counter has reached 50, the matches that remain are copied
    as they are. *)
Lemma sub_loop_saturated (pattern_obj : Pattern) (text : str)
      (spans : list (nat * nat)) :
  forall pos out st,
    50 <= global_match_count st ->
    spans_ok pos spans ->
    sub_loop (replacer_for_this_pattern target_platform pattern_obj)
             text spans pos out st
    = (out ++ skipn pos text, st).
Proof.
  induction spans as [|m rest IH]; intros pos out st Hsat Hok; simpl.
  - reflexivity.
  - destruct Hok as (H1 & H2 & Hok).
    rewrite replacer_saturated by assumption.
    rewrite IH by assumption. f_equal.
    rewrite <- !app_assoc. f_equal. unfold group0.
    rewrite slice_skipn by assumption. now apply slice_skipn.
Qed.

Lemma mask_patterns_count (patterns : list Pattern) :
  forall current_text entry global sakura,
    let '(t, entry', global') :=
      mask_patterns target_platform patterns current_text entry global sakura in
    global <= global'
    /\ (global <= 50 -> global' <= 50)
    /\ length entry' + global = length entry + global'.
Proof.
  induction patterns as [|p rest IH]; intros current_text entry global sakura;
    simpl.
  - lia.
  - unfold sub_callable.
    pose proof (sub_loop_count p current_text (p_finditer p current_text) 0 []
                  {| global_match_count := global;
                     sakura_match_count := sakura;
                     single_pattern_replacements := [] |}) as H.
    destruct (sub_loop _ current_text _ 0 [] _) as [t st]. simpl in H.
    destruct (50 <=? global_match_count st).
    + rewrite length_app. lia.
    + specialize (IH t (entry ++ single_pattern_replacements st)
                     (global_match_count st) (sakura_match_count st)).
      destruct (mask_patterns _ rest t _ _ _) as [[t' e'] g'].
      rewrite length_app in IH. lia.
Qed.

Lemma mask_patterns_saturated (patterns : list Pattern) (current_text : str)
      (entry : list PlaceholderRec) (global sakura : nat) :
  50 <= global ->
  Forall (fun p => spans_ok 0 (p_finditer p current_text)) patterns ->
  mask_patterns target_platform patterns current_text entry global sakura
  = (current_text, entry, global).
Proof.
  intros Hsat Hok. destruct patterns as [|p rest]; simpl; [reflexivity|].
  inversion Hok as [|? ? Hp _]; subst.
  unfold sub_callable. rewrite sub_loop_saturated by (simpl; assumption).
  simpl. destruct (Nat.leb_spec 50 global); [|lia].
  now rewrite app_nil_r.
Qed.

Lemma total_placeholders_set (d : dict (list PlaceholderRec)) (k : str)
      (l : list PlaceholderRec) :
  total_placeholders (dict_set d k l) <= total_placeholders d + length l.
Proof.
  unfold total_placeholders.
  induction d as [|[k' v'] d IH]; simpl; [lia|].
  destruct (str_eqb k' k); simpl; lia.
Qed.

Lemma mask_entries_count (patterns : list Pattern) (items : list (str * str)) :
  forall new_dict placeholder_order global,
    let '(new_dict', placeholder_order', global') :=
      mask_entries target_platform patterns items
                   (new_dict, placeholder_order, global) in
    global <= global'
    /\ (global <= 50 -> global' <= 50)
    /\ total_placeholders placeholder_order' + global
       <= total_placeholders placeholder_order + global'.
Proof.
  unfold mask_entries.
  induction items as [|kv items IH]; intros new_dict placeholder_order global;
    simpl.
  - lia.
  - pose proof (mask_patterns_count patterns (snd kv) [] global 0) as H.
    destruct (mask_patterns target_platform patterns (snd kv) [] global 0)
      as [[t e] g].
    specialize (IH (dict_set new_dict (fst kv) t)
                   (dict_set placeholder_order (fst kv) e) g).
    destruct (fold_left _ items _) as [[d' po'] g'].
    pose proof (total_placeholders_set placeholder_order (fst kv) e).
    simpl in H. lia.
Qed.

(** With the counter at 50, each later entry keeps its text and gets an
    empty list of placeholders. *)
Lemma mask_entries_saturated (patterns : list Pattern)
      (items : list (str * str)) :
  forall new_dict placeholder_order global,
    50 <= global ->
    Forall (fun kv => Forall (fun p => spans_ok 0 (p_finditer p (snd kv)))
                             patterns) items ->
    mask_entries target_platform patterns items
                 (new_dict, placeholder_order, global)
    = (fold_left (fun d kv => dict_set d (fst kv) (snd kv)) items new_dict,
       fold_left (fun d kv => dict_set d (fst kv) []) items placeholder_order,
       global).
Proof.
  unfold mask_entries.
  induction items as [|kv items IH]; intros new_dict placeholder_order global
                                            Hsat Hok; simpl.
  - reflexivity.
  - inversion Hok as [|? ? Hkv Hrest]; subst.
    rewrite mask_patterns_saturated by assumption.
    now apply IH.
Qed.

End Cap.

(** C3.  Over a whole batch the masker performs at most 50
    substitutions: the final counter is at most 50 and bounds the number
    of recorded placeholders.  Once the counter has reached 50 after
    some entries, every later entry keeps its text and gets no
    placeholder; inside a text the matches that follow the 50th are
    copied unchanged, and no further pattern changes the text.  A text
    with 60 matches gets the 50 placeholders [P1] to [P50] and keeps its
    last 10 matches, and the entry after it is untouched. *)
Theorem placeholder_cap (target_platform : str) (patterns : list Pattern)
        (text_dict : dict str) :
  (let '(new_dict, placeholder_order, count) :=
     replace_special_placeholders_run target_platform text_dict patterns in
   count <= 50 /\ total_placeholders placeholder_order <= count)
  /\ (forall done later new_dict placeholder_order count,
        text_dict = done ++ later ->
        mask_entries target_platform patterns done ([], [], 0)
        = (new_dict, placeholder_order, count) ->
        50 <= count ->
        Forall (fun kv => Forall (fun p => spans_ok 0 (p_finditer p (snd kv)))
                                 patterns) later ->
        replace_special_placeholders_run target_platform text_dict patterns
        = (fold_left (fun d kv => dict_set d (fst kv) (snd kv)) later new_dict,
           fold_left (fun d kv => dict_set d (fst kv) []) later
                     placeholder_order,
           count))
  /\ (forall pattern_obj text spans pos out st,
        50 <= global_match_count st ->
        spans_ok pos spans ->
        sub_loop (replacer_for_this_pattern target_platform pattern_obj)
                 text spans pos out st
        = (out ++ skipn pos text, st))
  /\ (forall text entry count sakura,
        50 <= count ->
        Forall (fun p => spans_ok 0 (p_finditer p text)) patterns ->
        mask_patterns target_platform patterns text entry count sakura
        = (text, entry, count))
  /\ (exists records,
        replace_special_placeholders_run
          (u "openai") [(u "k1", repeat 64%N 60); (u "k2", u "x @ y")]
          [marker_pattern (u "@")]
        = ([(u "k1", numbered_placeholders 1 50 ++ repeat 64%N 10);
            (u "k2", u "x @ y")],
           [(u "k1", records); (u "k2", [])], 50)
        /\ length records = 50).
Proof.
  split; [|split; [|split; [|split]]].
  - pose proof (mask_entries_count target_platform patterns text_dict [] [] 0)
      as H.
    unfold replace_special_placeholders_run.
    destruct (mask_entries _ _ text_dict _) as [[d po] g].
    unfold total_placeholders in *. simpl in H. lia.
  - intros done later new_dict placeholder_order count -> Hdone Hsat Hok.
    unfold replace_special_placeholders_run, mask_entries in *.
    rewrite fold_left_app, Hdone.
    now apply mask_entries_saturated.
  - intros. now apply sub_loop_saturated.
  - intros. now apply mask_patterns_saturated.
  - eexists. split; vm_compute; reflexivity.
Qed.

(** ** AffixCodec *)

Lemma prefix_str_app (a b : list PrefixCode) :
  prefix_str (a ++ b) = prefix_str a ++ prefix_str b.
Proof. unfold prefix_str. now rewrite map_app, concat_app. Qed.

Lemma is_empty_true (s : str) : is_empty s = true <-> s = [].
Proof. destruct s; simpl; split; congruence. Qed.

Lemma is_empty_false (s : str) : is_empty s = false <-> s <> [].
Proof. destruct s; simpl; split; congruence. Qed.

(** A prefix match that consumes nothing is found again in the next
    round: the loop never ends. *)
Lemma strip_prefix_loop_stuck (p : Pattern) (text : str) (e : nat) :
  p_match p text = Some e -> firstn e text = [] ->
  forall fuel acc, strip_prefix_loop fuel p text acc = None.
Proof.
  intros Hm He. induction fuel as [|f IH]; intros acc; simpl; [reflexivity|].
  rewrite Hm, He. simpl. apply IH.
Qed.

Lemma strip_prefix_loop_spec (p : Pattern) (fuel : nat) :
  forall text acc text' acc',
    strip_prefix_loop fuel p text acc = Some (text', acc') ->
    exists new,
      acc' = acc ++ new
      /\ prefix_str new ++ text' = text
      /\ Forall (fun c => pc_prefix c <> []) new.
Proof.
  induction fuel as [|f IH]; intros text acc text' acc'; simpl; [discriminate|].
  destruct (p_match p text) as [e|] eqn:Hm.
  - intros H.
    destruct (firstn e text) as [|c0 frag] eqn:He.
    { simpl in H. rewrite (strip_prefix_loop_stuck p text e Hm He) in H.
      discriminate. }
    rewrite <- He in H. apply IH in H as (new & -> & Hcat & Hne).
    exists ({| pc_prefix := firstn e text; pc_pattern := pattern p |} :: new).
    rewrite <- app_assoc. simpl. split; [reflexivity|]. split.
    + unfold prefix_str in *. simpl. rewrite <- app_assoc, Hcat.
      rewrite length_firstn.
      replace (skipn (Nat.min e (length text)) text) with (skipn e text).
      * apply firstn_skipn.
      * destruct (Nat.le_ge_cases e (length text)).
        -- now rewrite Nat.min_l.
        -- rewrite Nat.min_r by assumption.
           now rewrite !skipn_all2 by lia.
    + constructor; [simpl; rewrite He; discriminate | assumption].
  - intros H. injection H as <- <-. exists []. rewrite app_nil_r.
    repeat split. constructor.
Qed.

Lemma strip_prefixes_spec (fuel : nat) (patterns : list Pattern) :
  forall text acc text' acc',
    strip_prefixes fuel patterns text acc = Some (text', acc') ->
    exists new,
      acc' = acc ++ new
      /\ prefix_str new ++ text' = text
      /\ Forall (fun c => pc_prefix c <> []) new.
Proof.
  induction patterns as [|p rest IH]; intros text acc text' acc'; simpl.
  - intros H. injection H as <- <-. exists []. rewrite app_nil_r.
    repeat split. constructor.
  - destruct (strip_prefix_loop fuel p text acc) as [[t ps]|] eqn:E;
      [|discriminate].
    intros H. apply strip_prefix_loop_spec in E as (n1 & -> & H1 & F1).
    apply IH in H as (n2 & -> & H2 & F2).
    exists (n1 ++ n2). rewrite <- app_assoc. split; [reflexivity|]. split.
    + rewrite prefix_str_app, <- app_assoc, H2. exact H1.
    + apply Forall_app. auto.
Qed.

Lemma best_suffix_match_end (p : Pattern) (text : str) (m : nat * nat) :
  best_suffix_match p text = Some m -> snd m = length text.
Proof.
  unfold best_suffix_match.
  assert (H : forall l best,
             (forall b, best = Some b -> snd b = length text) ->
             fold_left (fun best_match m0 =>
                          if snd m0 =? length text then Some m0 else best_match)
                       l best = Some m -> snd m = length text).
  { induction l as [|x l IH]; intros best Hb; simpl.
    - intros E. now apply Hb.
    - apply IH. destruct (Nat.eqb_spec (snd x) (length text)).
      + intros b E. now injection E as <-.
      + exact Hb. }
  apply H. discriminate.
Qed.

Lemma suffix_split (text : str) (s : nat) :
  firstn s text ++ slice s (length text) text = text.
Proof.
  unfold slice.
  rewrite (@firstn_all2 _ (length text - s) (skipn s text));
    [apply firstn_skipn|].
  rewrite length_skipn. lia.
Qed.

Lemma empty_suffix_keeps_text (p : Pattern) (text : str) (m : nat * nat) :
  best_suffix_match p text = Some m -> group0 text m = [] ->
  firstn (fst m) text = text.
Proof.
  intros Hm He.
  pose proof (best_suffix_match_end p text m Hm) as Hend.
  pose proof (suffix_split text (fst m)) as Hs.
  unfold group0 in He. rewrite Hend in He. rewrite He, app_nil_r in Hs.
  exact Hs.
Qed.

(** A suffix match that consumes nothing is found again in the next
    round as well. *)
Lemma strip_suffix_loop_stuck (p : Pattern) (text : str) (m : nat * nat) :
  best_suffix_match p text = Some m -> group0 text m = [] ->
  forall fuel acc, strip_suffix_loop fuel p text acc = None.
Proof.
  intros Hm He.
  pose proof (empty_suffix_keeps_text p text m Hm He) as Hsame.
  induction fuel as [|f IH]; intros acc; simpl; [reflexivity|].
  rewrite Hm, Hsame. apply IH.
Qed.

Lemma strip_suffix_loop_spec (p : Pattern) (fuel : nat) :
  forall text acc text' acc',
    strip_suffix_loop fuel p text acc = Some (text', acc') ->
    exists new,
      acc' = new ++ acc
      /\ text' ++ suffix_str new = text
      /\ Forall (fun c => sc_suffix c <> []) new.
Proof.
  induction fuel as [|f IH]; intros text acc text' acc'; simpl; [discriminate|].
  destruct (best_suffix_match p text) as [m|] eqn:Hm.
  - intros H.
    destruct (group0 text m) as [|c0 frag] eqn:He.
    { rewrite (empty_suffix_keeps_text p text m Hm He) in H.
      rewrite (strip_suffix_loop_stuck p text m Hm He) in H. discriminate. }
    rewrite <- He in H. apply IH in H as (new & -> & Hcat & Hne).
    exists (new ++ [{| sc_suffix := group0 text m; sc_pattern := pattern p |}]).
    rewrite <- app_assoc. simpl. split; [reflexivity|]. split.
    + unfold suffix_str in *. rewrite map_app, concat_app. simpl.
      rewrite app_nil_r, app_assoc, Hcat. unfold group0.
      rewrite (best_suffix_match_end p text m Hm). apply suffix_split.
    + apply Forall_app. split; [assumption|].
      constructor; [simpl; rewrite He; discriminate | constructor].
  - intros H. injection H as <- <-. exists [].
    split; [reflexivity|]. split; [apply app_nil_r | constructor].
Qed.

Lemma suffix_str_app (a b : list SuffixCode) :
  suffix_str (a ++ b) = suffix_str a ++ suffix_str b.
Proof. unfold suffix_str. now rewrite map_app, concat_app. Qed.

Lemma strip_suffixes_spec (fuel : nat) (patterns : list Pattern) :
  forall text acc text' acc',
    strip_suffixes fuel patterns text acc = Some (text', acc') ->
    exists new,
      acc' = new ++ acc
      /\ text' ++ suffix_str new = text
      /\ Forall (fun c => sc_suffix c <> []) new.
Proof.
  induction patterns as [|p rest IH]; intros text acc text' acc'; simpl.
  - intros H. injection H as <- <-. exists [].
    split; [reflexivity|]. split; [apply app_nil_r | constructor].
  - destruct (strip_suffix_loop fuel p text acc) as [[t ss]|] eqn:E;
      [|discriminate].
    intros H. apply strip_suffix_loop_spec in E as (n1 & -> & H1 & F1).
    apply IH in H as (n2 & -> & H2 & F2).
    exists (n2 ++ n1). rewrite <- app_assoc. split; [reflexivity|]. split.
    + rewrite suffix_str_app, app_assoc, H2. exact H1.
    + apply Forall_app. auto.
Qed.

(** What the two loops leave: the fragments, none of them empty, and
    the core between them. *)
Lemma strip_affixes_spec (fuel : nat) (pp sp : list Pattern)
      (text core0 : str) (pre0 : list PrefixCode) (suf0 : list SuffixCode) :
  strip_affixes fuel pp sp text = Some (core0, pre0, suf0) ->
  prefix_str pre0 ++ core0 ++ suffix_str suf0 = text
  /\ Forall (fun c => pc_prefix c <> []) pre0
  /\ Forall (fun c => sc_suffix c <> []) suf0.
Proof.
  unfold strip_affixes.
  destruct (strip_prefixes fuel pp text []) as [[t ps]|] eqn:E1; [|discriminate].
  destruct (strip_suffixes fuel sp t []) as [[t' ss]|] eqn:E2; [|discriminate].
  intros H. injection H as <- <- <-.
  apply strip_prefixes_spec in E1 as (n1 & -> & H1 & F1).
  apply strip_suffixes_spec in E2 as (n2 & -> & H2 & F2).
  simpl. rewrite app_nil_r. rewrite H2. auto.
Qed.

Lemma prefix_str_nonempty (ps : list PrefixCode) :
  ps <> [] -> Forall (fun c => pc_prefix c <> []) ps -> prefix_str ps <> [].
Proof.
  destruct ps as [|c ps]; [congruence|]. intros _ H.
  inversion H as [|? ? Hc _]; subst. unfold prefix_str. simpl.
  destruct (pc_prefix c); [congruence | discriminate].
Qed.

Lemma suffix_str_nonempty (ss : list SuffixCode) :
  ss <> [] -> Forall (fun c => sc_suffix c <> []) ss -> suffix_str ss <> [].
Proof.
  destruct ss as [|c ss]; [congruence|]. intros _ H.
  inversion H as [|? ? Hc _]; subst. unfold suffix_str. simpl.
  destruct (sc_suffix c); [congruence | discriminate].
Qed.

Lemma strip_prefix_loop_total (p : Pattern) :
  prefix_progress p ->
  forall fuel text acc,
    length text < fuel ->
    exists r, strip_prefix_loop fuel p text acc = Some r.
Proof.
  intros Hp. induction fuel as [|f IH]; intros text acc Hlt; [lia|]. simpl.
  destruct (p_match p text) as [e|] eqn:Hm; [|eauto].
  apply IH. specialize (Hp text e Hm).
  rewrite length_skipn.
  destruct (firstn e text) eqn:He; [congruence|]. simpl.
  destruct text; [destruct e; discriminate|]. simpl in *. lia.
Qed.

Lemma strip_prefixes_total (fuel : nat) (patterns : list Pattern) :
  Forall prefix_progress patterns ->
  forall text acc,
    length text < fuel ->
    exists r, strip_prefixes fuel patterns text acc = Some r.
Proof.
  induction 1 as [|p rest Hp Hrest IH]; intros text acc Hlt; simpl; [eauto|].
  destruct (strip_prefix_loop_total p Hp fuel text acc Hlt) as [[t ps] E].
  rewrite E. apply IH.
  apply strip_prefix_loop_spec in E as (new & _ & Hcat & _).
  rewrite <- Hcat, length_app in Hlt. lia.
Qed.

Lemma strip_suffix_loop_total (p : Pattern) :
  suffix_progress p ->
  forall fuel text acc,
    length text < fuel ->
    exists r, strip_suffix_loop fuel p text acc = Some r.
Proof.
  intros Hp. induction fuel as [|f IH]; intros text acc Hlt; [lia|]. simpl.
  destruct (best_suffix_match p text) as [m|] eqn:Hm; [|eauto].
  apply IH. specialize (Hp text m Hm).
  pose proof (suffix_split text (fst m)) as Hs.
  unfold group0 in Hp. rewrite (best_suffix_match_end p text m Hm) in Hp.
  destruct (slice (fst m) (length text) text) eqn:E; [congruence|].
  apply (f_equal (@length char)) in Hs. rewrite length_app in Hs.
  simpl in Hs. lia.
Qed.

Lemma strip_suffixes_total (fuel : nat) (patterns : list Pattern) :
  Forall suffix_progress patterns ->
  forall text acc,
    length text < fuel ->
    exists r, strip_suffixes fuel patterns text acc = Some r.
Proof.
  induction 1 as [|p rest Hp Hrest IH]; intros text acc Hlt; simpl; [eauto|].
  destruct (strip_suffix_loop_total p Hp fuel text acc Hlt) as [[t ss] E].
  rewrite E. apply IH.
  apply strip_suffix_loop_spec in E as (new & _ & Hcat & _).
  rewrite <- Hcat, length_app in Hlt. lia.
Qed.

Lemma strip_affixes_total (pp sp : list Pattern) (text : str) :
  Forall prefix_progress pp -> Forall suffix_progress sp ->
  exists r, strip_affixes (S (length text)) pp sp text = Some r.
Proof.
  intros Hpp Hsp. unfold strip_affixes.
  destruct (strip_prefixes_total (S (length text)) pp Hpp text [])
    as [[t ps] E]; [lia|].
  rewrite E.
  apply strip_prefixes_spec in E as (new & _ & Hcat & _).
  destruct (strip_suffixes_total (S (length text)) sp Hsp t [])
    as [[t' ss] E'].
  - rewrite <- Hcat, length_app. lia.
  - rewrite E'. eauto.
Qed.

Lemma dict_get_singleton {V} (k : str) (v : V) :
  dict_get [(k, v)] k = Some v.
Proof. simpl. now rewrite str_eqb_refl. Qed.

Lemma restore_affixes_singleton (key core : str) (pre : list PrefixCode)
      (suf : list SuffixCode) :
  _restore_affixes [(key, core)] [(key, pre)] [(key, suf)]
  = [(key, prefix_str pre ++ core ++ suffix_str suf)].
Proof.
  unfold _restore_affixes, for_items, dict_get_default.
  simpl. now rewrite str_eqb_refl.
Qed.

(** C7.  For a text that is not blank: when the two stripping loops
    end and leave a blank core, exactly one side is taken back, the
    suffix side when the prefix fragments are longer in total than the
    suffix fragments, the prefix side otherwise, and the only stripped
    side when one side alone was stripped; the core is then not empty,
    and the recorded prefix fragments, the core and the recorded suffix
    fragments, in this order, are the text, which is what
    [_restore_affixes] rebuilds.  The loops end when every match of the
    patterns consumes at least one character. *)
Theorem affix_repair (pp sp : list Pattern) (text : str) :
  is_empty (strip text) = false ->
  (forall fuel core0 pre0 suf0,
      strip_affixes fuel pp sp text = Some (core0, pre0, suf0) ->
      is_empty (strip core0) = true ->
      let '(core, pre, suf) := repair_affixes core0 pre0 suf0 in
      process_affixes_entry fuel pp sp text = Some (core, pre, suf)
      /\ (pre0 <> [] -> suf0 <> [] -> suffix_len suf0 < prefix_len pre0 ->
          core = core0 ++ suffix_str suf0 /\ pre = pre0 /\ suf = [])
      /\ (pre0 <> [] -> suf0 <> [] -> prefix_len pre0 <= suffix_len suf0 ->
          core = prefix_str pre0 ++ core0 /\ pre = [] /\ suf = suf0)
      /\ (suf0 = [] ->
          pre0 <> [] /\ core = prefix_str pre0 ++ core0 /\ pre = [] /\ suf = [])
      /\ (pre0 = [] ->
          suf0 <> [] /\ core = core0 ++ suffix_str suf0 /\ pre = [] /\ suf = [])
      /\ is_empty core = false
      /\ prefix_str pre ++ core ++ suffix_str suf = text
      /\ (forall key,
            _restore_affixes [(key, core)] [(key, pre)] [(key, suf)]
            = [(key, text)]))
  /\ (Forall prefix_progress pp -> Forall suffix_progress sp ->
      exists r, strip_affixes (S (length text)) pp sp text = Some r).
Proof.
  intros Htext. split; [|apply strip_affixes_total].
  intros fuel core0 pre0 suf0 Hstrip Hblank.
  pose proof (strip_affixes_spec fuel pp sp text core0 pre0 suf0 Hstrip)
    as (Hcat & Hpre & Hsuf).
  assert (Hentry : process_affixes_entry fuel pp sp text
                   = Some (repair_affixes core0 pre0 suf0)).
  { unfold process_affixes_entry. now rewrite Hstrip. }
  assert (Hsome : pre0 <> [] \/ suf0 <> []).
  { destruct pre0, suf0; try (left; discriminate); try (right; discriminate).
    exfalso. simpl in Hcat. rewrite app_nil_r in Hcat. subst core0.
    rewrite Hblank in Htext. discriminate. }
  unfold repair_affixes in *. rewrite Hblank in *.
  destruct pre0 as [|p0 pre0], suf0 as [|s0 suf0];
    [destruct Hsome; congruence | | |].
  - pose proof (suffix_str_nonempty (s0 :: suf0) ltac:(discriminate) Hsuf)
      as Hn.
    change (prefix_str []) with (@nil char) in *.
    change (suffix_str []) with (@nil char) in *.
    remember (suffix_str (s0 :: suf0)) as B. simpl in Hcat.
    split; [exact Hentry|].
    repeat split; try congruence; try discriminate.
    + apply is_empty_false. intros E. apply app_eq_nil in E as [_ E].
      contradiction.
    + simpl. now rewrite app_nil_r.
    + intros key. rewrite restore_affixes_singleton.
      change (prefix_str []) with (@nil char).
      change (suffix_str []) with (@nil char).
      simpl. now rewrite app_nil_r, Hcat.
  - pose proof (prefix_str_nonempty (p0 :: pre0) ltac:(discriminate) Hpre)
      as Hn.
    change (prefix_str []) with (@nil char) in *.
    change (suffix_str []) with (@nil char) in *.
    remember (prefix_str (p0 :: pre0)) as A. rewrite app_nil_r in Hcat.
    split; [exact Hentry|].
    repeat split; try congruence; try discriminate.
    + apply is_empty_false. intros E. apply app_eq_nil in E as [E _].
      contradiction.
    + simpl. now rewrite app_nil_r.
    + intros key. rewrite restore_affixes_singleton.
      change (prefix_str []) with (@nil char).
      change (suffix_str []) with (@nil char).
      simpl. now rewrite app_nil_r, Hcat.
  - pose proof (prefix_str_nonempty (p0 :: pre0) ltac:(discriminate) Hpre)
      as Hnp.
    pose proof (suffix_str_nonempty (s0 :: suf0) ltac:(discriminate) Hsuf)
      as Hns.
    change (prefix_str []) with (@nil char) in *.
    change (suffix_str []) with (@nil char) in *.
    remember (prefix_str (p0 :: pre0)) as A.
    remember (suffix_str (s0 :: suf0)) as B.
    remember (prefix_len (p0 :: pre0)) as lp.
    remember (suffix_len (s0 :: suf0)) as ls.
    destruct (Nat.ltb_spec ls lp) as [Hlt|Hge].
    + split; [exact Hentry|].
      repeat split; try congruence; try discriminate; try lia.
      * apply is_empty_false. intros E. apply app_eq_nil in E as [_ E].
        contradiction.
      * rewrite <- HeqA. change (suffix_str []) with (@nil char).
        now rewrite app_nil_r.
      * intros key. rewrite restore_affixes_singleton.
        rewrite <- HeqA. change (suffix_str []) with (@nil char).
        now rewrite app_nil_r, Hcat.
    + split; [exact Hentry|].
      repeat split; try congruence; try discriminate; try lia.
      * apply is_empty_false. intros E. apply app_eq_nil in E as [E _].
        contradiction.
      * rewrite <- HeqB. change (prefix_str []) with (@nil char).
        simpl. now rewrite <- app_assoc.
      * intros key. rewrite restore_affixes_singleton.
        rewrite <- HeqB. change (prefix_str []) with (@nil char).
        simpl. now rewrite <- app_assoc, Hcat.
Qed.

Lemma affix_repair_witness :
  is_empty (strip (u "@ @# ")) = false
  /\ strip_affixes 10 [marker_pattern (u "@")] [marker_pattern (u "#")]
                   (u "@ @# ")
     = Some ([],
             [{| pc_prefix := u "@ "; pc_pattern := u "\\s*@\\s*" |};
              {| pc_prefix := u "@"; pc_pattern := u "\\s*@\\s*" |}],
             [{| sc_suffix := u "# "; sc_pattern := u "\\s*\\#\\s*" |}])
  /\ exists core pre suf,
      process_affixes_entry 10 [marker_pattern (u "@")]
                            [marker_pattern (u "#")] (u "@ @# ")
      = Some (core, pre, suf)
      /\ is_empty core = false
      /\ prefix_str pre ++ core ++ suffix_str suf = u "@ @# ".
Proof.
  assert (H0 : is_empty (strip (u "@ @# ")) = false) by (vm_compute; reflexivity).
  assert (H1 : strip_affixes 10 [marker_pattern (u "@")]
                             [marker_pattern (u "#")] (u "@ @# ")
               = Some ([],
                       [{| pc_prefix := u "@ "; pc_pattern := u "\\s*@\\s*" |};
                        {| pc_prefix := u "@"; pc_pattern := u "\\s*@\\s*" |}],
                       [{| sc_suffix := u "# ";
                           sc_pattern := u "\\s*\\#\\s*" |}]))
    by (vm_compute; reflexivity).
  split; [exact H0|]. split; [exact H1|].
  destruct (affix_repair [marker_pattern (u "@")] [marker_pattern (u "#")]
                         (u "@ @# ") H0) as [H _].
  specialize (H 10 _ _ _ H1 eq_refl).
  destruct (repair_affixes _ _ _) as [[core pre] suf].
  exists core, pre, suf. tauto.
Defined.

(** ** The dictionaries as objects: what the calls leave untouched *)

Module ObjFacts.
Import Obj ObjNotations.

Lemma nth_error_set_nth_same (h : heap) (r : nat) (d x : dict str) :
  nth_error h r = Some d -> nth_error (set_nth r x h) r = Some x.
Proof.
  revert r; induction h as [|y h IH]; intros [|r]; simpl; try discriminate.
  - reflexivity.
  - apply IH.
Qed.

Lemma set_nth_app_r (h0 extra : heap) (r : nat) (x : dict str) :
  length h0 <= r ->
  set_nth r x (h0 ++ extra) = h0 ++ set_nth (r - length h0) x extra.
Proof.
  revert r; induction h0 as [|y h0 IH]; intros r Hr; simpl.
  - now rewrite Nat.sub_0_r.
  - destruct r as [|r]; [simpl in Hr; lia|]. simpl in *.
    f_equal. apply IH. lia.
Qed.

Lemma working_alloc h0 h (x : dict str) :
  (exists extra, h = h0 ++ extra) -> working h0 (h ++ [x]) (length h) x.
Proof.
  intros [extra ->]. split; [|split].
  - exists (extra ++ [x]). now rewrite app_assoc.
  - rewrite length_app. lia.
  - rewrite nth_error_app2 by lia. now rewrite Nat.sub_diag.
Qed.

Lemma working_write h0 h r d (x : dict str) :
  working h0 h r d -> working h0 (set_nth r x h) r x.
Proof.
  intros ([extra ->] & Hr & Hd). split; [|split; [exact Hr|]].
  - eexists. now apply set_nth_app_r.
  - eapply nth_error_set_nth_same; eauto.
Qed.

Lemma working_grown h0 h r d : working h0 h r d -> exists extra, h = h0 ++ extra.
Proof. now intros [H _]. Qed.

Lemma working_holds h0 h r d : working h0 h r d -> nth_error h r = Some d.
Proof. now intros (_ & _ & H). Qed.

#[local] Hint Resolve working_alloc working_write working_grown working_holds
  : core.

Lemma set_nth_last (h : heap) (d x : dict str) :
  set_nth (length h) x (h ++ [d]) = h ++ [x].
Proof. rewrite set_nth_app_r by lia. now rewrite Nat.sub_diag. Qed.

(** *** What each method does to the heap *)

Section Runs.

Variables (h : heap) (r : ref) (d : dict str).
Hypothesis Hr : nth_error h r = Some d.

Lemma copy_runs : Pipeline.copy r h = Some (length h, h ++ [d]).
Proof. unfold Pipeline.copy, bind, read, alloc. now rewrite Hr. Qed.

Lemma digital_sequence_preprocessing_runs :
  Pipeline.digital_sequence_preprocessing r h
  = Some (r, set_nth r (digital_sequence_preprocessing d) h).
Proof.
  unfold Pipeline.digital_sequence_preprocessing, bind, read, write, ret.
  now rewrite Hr.
Qed.

Lemma digital_sequence_recovery_runs :
  Pipeline.digital_sequence_recovery r h
  = Some (r, set_nth r (digital_sequence_recovery d) h).
Proof.
  unfold Pipeline.digital_sequence_recovery, bind, read, write, ret.
  now rewrite Hr.
Qed.

Lemma last_object (x : dict str) : nth_error (h ++ [x]) (length h) = Some x.
Proof. rewrite nth_error_app2 by lia. now rewrite Nat.sub_diag. Qed.

Lemma replace_before_translation_runs self :
  Pipeline.replace_before_translation self r h
  = Some (length h, h ++ [replace_before_translation self d]).
Proof.
  unfold Pipeline.replace_before_translation, bind.
  rewrite copy_runs. unfold read, write, ret.
  now rewrite last_object, set_nth_last.
Qed.

Lemma replace_after_translation_runs self :
  Pipeline.replace_after_translation self r h
  = Some (length h, h ++ [replace_after_translation self d]).
Proof.
  unfold Pipeline.replace_after_translation, bind.
  rewrite copy_runs. unfold read, write, ret.
  now rewrite last_object, set_nth_last.
Qed.

Lemma strip_and_record_affixes_runs source_lang :
  Pipeline.strip_and_record_affixes r source_lang h
  = Some ((length h, snd (strip_and_record_affixes d source_lang)),
          h ++ [fst (strip_and_record_affixes d source_lang)]).
Proof.
  unfold Pipeline.strip_and_record_affixes, bind, read, alloc, ret.
  rewrite Hr. unfold Pipeline.V.strip_and_record_affixes.
  now destruct (strip_and_record_affixes d source_lang).
Qed.

Lemma restore_affix_whitespace_runs processing_info :
  Pipeline.restore_affix_whitespace processing_info r h
  = Some (length h, h ++ [restore_affix_whitespace processing_info d]).
Proof.
  unfold Pipeline.restore_affix_whitespace, bind, read, alloc.
  now rewrite Hr.
Qed.

Lemma process_affixes_runs fuel pp sp :
  Pipeline._process_affixes fuel r pp sp h
  = match _process_affixes fuel d pp sp with
    | Some (processed, prefix_codes, suffix_codes) =>
      Some ((length h, prefix_codes, suffix_codes), h ++ [processed])
    | None => None
    end.
Proof.
  unfold Pipeline._process_affixes, bind, read, alloc, ret, lift_option.
  rewrite Hr. unfold Pipeline.V._process_affixes.
  destruct (_process_affixes fuel d pp sp) as [[[p pc] sc]|]; reflexivity.
Qed.

Lemma restore_affixes_runs prefix_codes suffix_codes :
  Pipeline._restore_affixes r prefix_codes suffix_codes h
  = Some (length h, h ++ [_restore_affixes d prefix_codes suffix_codes]).
Proof.
  unfold Pipeline._restore_affixes, bind, read, alloc. now rewrite Hr.
Qed.

Lemma replace_special_placeholders_runs target_platform patterns :
  Pipeline._replace_special_placeholders target_platform r patterns h
  = Some ((length h,
           snd (_replace_special_placeholders target_platform d patterns)),
          h ++ [fst (_replace_special_placeholders target_platform d patterns)]).
Proof.
  unfold Pipeline._replace_special_placeholders, bind, read, alloc, ret.
  rewrite Hr. unfold Pipeline.V._replace_special_placeholders.
  now destruct (_replace_special_placeholders target_platform d patterns).
Qed.

Lemma restore_special_placeholders_runs placeholder_order :
  Pipeline._restore_special_placeholders r placeholder_order h
  = Some (length h, h ++ [_restore_special_placeholders d placeholder_order]).
Proof.
  unfold Pipeline._restore_special_placeholders, bind, read, alloc.
  now rewrite Hr.
Qed.

End Runs.

(** *** The two entry points *)

Ltac alloc_step W x :=
  let W' := fresh "W" in
  match type of W with
  | working ?h0 ?h ?r ?d =>
    pose proof (working_alloc h0 h x (working_grown _ _ _ _ W)) as W'
  end;
  clear W; rename W' into W.

Ltac write_step W x :=
  let W' := fresh "W" in
  pose proof (working_write _ _ _ _ x W) as W'; clear W; rename W' into W.

Lemma working_start (h0 : heap) (d : dict str) :
  working h0 (h0 ++ [d]) (length h0) d.
Proof. apply working_alloc. exists []. now rewrite app_nil_r. Qed.

(** One method call that builds a new dictionary from the working one. *)
Ltac new_dict_step W :=
  match type of W with
  | working ?h0 ?h ?r ?d =>
    first
      [ rewrite (replace_before_translation_runs h r d
                   (working_holds _ _ _ _ W))
      | rewrite (replace_after_translation_runs h r d
                   (working_holds _ _ _ _ W))
      | rewrite (strip_and_record_affixes_runs h r d
                   (working_holds _ _ _ _ W))
      | rewrite (restore_affix_whitespace_runs h r d
                   (working_holds _ _ _ _ W))
      | rewrite (restore_affixes_runs h r d (working_holds _ _ _ _ W))
      | rewrite (replace_special_placeholders_runs h r d
                   (working_holds _ _ _ _ W))
      | rewrite (restore_special_placeholders_runs h r d
                   (working_holds _ _ _ _ W)) ];
    cbv beta iota;
    match goal with
    | |- context [h ++ [?x]] => alloc_step W x
    end
  end.

(** One method call that assigns into the working dictionary. *)
Ltac in_place_step W :=
  match type of W with
  | working ?h0 ?h ?r ?d =>
    first
      [ rewrite (digital_sequence_preprocessing_runs h r d
                   (working_holds _ _ _ _ W))
      | rewrite (digital_sequence_recovery_runs h r d
                   (working_holds _ _ _ _ W)) ];
    cbv beta iota;
    match goal with
    | |- context [set_nth r ?x h] => write_step W x
    end
  end.

Lemma replace_all_runs fuel self config source_lang h0 text_dict d :
  nth_error h0 text_dict = Some d ->
  match replace_all fuel self config source_lang d with
  | Some (masked, pc, sc, po, aws) =>
    exists r' h',
      Pipeline.replace_all fuel self config source_lang text_dict h0
      = Some ((r', pc, sc, po, aws), h')
      /\ working h0 h' r' masked
  | None =>
    Pipeline.replace_all fuel self config source_lang text_dict h0 = None
  end.
Proof.
  intros H. unfold Pipeline.replace_all, replace_all, bind.
  rewrite (copy_runs _ _ _ H). cbv beta iota.
  pose proof (working_start h0 d) as W.
  destruct (pre_translation_switch config);
    [new_dict_step W | unfold ret; cbv beta iota];
    new_dict_step W;
    (destruct (strip_and_record_affixes _ source_lang) as [d2 aws];
     cbn [fst snd] in *;
     destruct (auto_process_text_code_segment config);
     [ rewrite (process_affixes_runs _ _ _ (working_holds _ _ _ _ W));
       destruct (_process_affixes fuel d2 (auto_compiled_patterns self)
                                  (auto_compiled_patterns self))
         as [[[d3 pc] sc]|]; [|reflexivity];
       cbv beta iota; alloc_step W d3;
       new_dict_step W;
       destruct (_replace_special_placeholders (target_platform config) d3
                                               (auto_compiled_patterns self))
         as [d4 po];
       cbn [fst snd] in *
     | unfold ret; cbv beta iota ];
     unfold ret; cbv beta iota; in_place_step W; eauto).
Qed.

Lemma restore_all_runs self config h0 text_dict d pc sc po aws :
  nth_error h0 text_dict = Some d ->
  exists r' h',
    Pipeline.restore_all self config text_dict pc sc po aws h0 = Some (r', h')
    /\ working h0 h' r' (restore_all self config d pc sc po aws).
Proof.
  intros H. unfold Pipeline.restore_all, restore_all, bind.
  rewrite (copy_runs _ _ _ H). cbv beta iota.
  pose proof (working_start h0 d) as W.
  destruct (auto_process_text_code_segment config);
    [new_dict_step W; new_dict_step W | unfold ret; cbv beta iota];
    (destruct (post_translation_switch config);
     [new_dict_step W | unfold ret; cbv beta iota];
     unfold ret; cbv beta iota; in_place_step W; new_dict_step W; eauto).
Qed.

Lemma working_untouched h0 h r d :
  working h0 h r d ->
  forall r0, r0 < length h0 -> nth_error h r0 = nth_error h0 r0.
Proof.
  intros ([extra ->] & _ & _) r0 Hlt. now apply nth_error_app1.
Qed.

End ObjFacts.

(** C9.  [replace_all] and [restore_all] leave the caller's dictionary,
    and every object that existed before the call, as they were: the
    result is a new object that holds what the functions on dictionary
    values compute, and the assignments of
    [digital_sequence_preprocessing] and [digital_sequence_recovery] go
    to objects created during the call.  [restore_all] always returns;
    [replace_all] returns whenever its stripping loops end. *)
Theorem caller_dictionary_untouched (h : Obj.heap) (text_dict : Obj.ref)
        (d : dict str) :
  nth_error h text_dict = Some d ->
  (forall fuel self config source_lang,
      match replace_all fuel self config source_lang d with
      | Some (masked, pc, sc, po, aws) =>
        exists r' h',
          Pipeline.replace_all fuel self config source_lang text_dict h
          = Some ((r', pc, sc, po, aws), h')
          /\ nth_error h' text_dict = Some d
          /\ (forall r, r < length h -> nth_error h' r = nth_error h r)
          /\ length h <= r'
          /\ nth_error h' r' = Some masked
      | None =>
        Pipeline.replace_all fuel self config source_lang text_dict h = None
      end)
  /\ (forall self config pc sc po aws,
        exists r' h',
          Pipeline.restore_all self config text_dict pc sc po aws h
          = Some (r', h')
          /\ nth_error h' text_dict = Some d
          /\ (forall r, r < length h -> nth_error h' r = nth_error h r)
          /\ length h <= r'
          /\ nth_error h' r' = Some (restore_all self config d pc sc po aws)).
Proof.
  intros H.
  assert (Hlt : text_dict < length h) by (apply nth_error_Some; congruence).
  split.
  - intros fuel self config source_lang.
    pose proof (ObjFacts.replace_all_runs fuel self config source_lang
                  h text_dict d H) as R.
    destruct (replace_all fuel self config source_lang d)
      as [[[[[masked pc] sc] po] aws]|]; [|exact R].
    destruct R as (r' & h' & E & W). exists r', h'.
    pose proof (ObjFacts.working_untouched _ _ _ _ W) as U.
    destruct W as (_ & Hr & Hd).
    repeat split; auto. rewrite U by assumption. exact H.
  - intros self config pc sc po aws.
    destruct (ObjFacts.restore_all_runs self config h text_dict d pc sc po aws H)
      as (r' & h' & E & W).
    exists r', h'.
    pose proof (ObjFacts.working_untouched _ _ _ _ W) as U.
    destruct W as (_ & Hr & Hd).
    repeat split; auto. rewrite U by assumption. exact H.
Qed.

Lemma caller_dictionary_untouched_witness :
  nth_error [[(u "k", u "1. Hello")]] 0 = Some [(u "k", u "1. Hello")]
  /\ (exists r' h' aws,
        Pipeline.replace_all 5 bare_processor stages_off (u "en") 0
                             [[(u "k", u "1. Hello")]]
        = Some ((r', [], [], [], aws), h')
        /\ nth_error h' 0 = Some [(u "k", u "1. Hello")]
        /\ nth_error h' r' = Some [(u "k", u "【1】 Hello")])
  /\ (exists r' h',
        Pipeline.restore_all bare_processor stages_off 0 [] [] [] []
                             [[(u "k", u "1. Hello")]]
        = Some (r', h')
        /\ nth_error h' 0 = Some [(u "k", u "1. Hello")]).
Proof.
  split; [reflexivity|].
  destruct (caller_dictionary_untouched
              [[(u "k", u "1. Hello")]] 0 [(u "k", u "1. Hello")] eq_refl)
    as [Hmask Hrestore].
  split.
  - specialize (Hmask 5 bare_processor stages_off (u "en")).
    destruct (replace_all 5 bare_processor stages_off (u "en")
                          [(u "k", u "1. Hello")])
      as [[[[[masked pc] sc] po] aws]|] eqn:E; [|vm_compute in E; discriminate].
    vm_compute in E. injection E as <- <- <- <- <-.
    destruct Hmask as (r' & h' & Hrun & Hkeep & _ & _ & Hres).
    exists r', h'. eexists. split; [exact Hrun|]. split; [exact Hkeep|].
    exact Hres.
  - destruct (Hrestore bare_processor stages_off [] [] [] [])
      as (r' & h' & Hrun & Hkeep & _).
    exists r', h'. split; [exact Hrun | exact Hkeep].
Defined.

(** ** Dictionaries with distinct keys *)

Lemma str_eqb_neq (a b : str) : str_eqb a b = false <-> a <> b.
Proof.
  destruct (str_eqb a b) eqn:E.
  - apply str_eqb_eq in E. split; congruence.
  - split; [|reflexivity]. intros _ H. apply str_eqb_eq in H. congruence.
Qed.

Lemma dict_set_fresh {V} (d : dict V) (k : str) (v : V) :
  ~ In k (keys d) -> dict_set d k v = d ++ [(k, v)].
Proof.
  induction d as [|[k' v'] d IH]; simpl; intros H; [reflexivity|].
  destruct (str_eqb k' k) eqn:E.
  - apply str_eqb_eq in E. tauto.
  - rewrite IH; tauto.
Qed.

Lemma dict_set_mid {V} (done rest : dict V) (k : str) (v x : V) :
  ~ In k (keys done) ->
  dict_set (done ++ (k, v) :: rest) k x = done ++ (k, x) :: rest.
Proof.
  induction done as [|[k' v'] done IH]; simpl; intros H.
  - now rewrite str_eqb_refl.
  - destruct (str_eqb k' k) eqn:E.
    + apply str_eqb_eq in E. tauto.
    + rewrite IH; tauto.
Qed.

Lemma dict_get_mid {V} (done rest : dict V) (k : str) (v : V) :
  ~ In k (keys done) -> dict_get (done ++ (k, v) :: rest) k = Some v.
Proof.
  induction done as [|[k' v'] done IH]; simpl; intros H.
  - now rewrite str_eqb_refl.
  - destruct (str_eqb k' k) eqn:E.
    + apply str_eqb_eq in E. tauto.
    + apply IH; tauto.
Qed.

Lemma keys_app {V} (a b : dict V) : keys (a ++ b) = keys a ++ keys b.
Proof. unfold keys. apply map_app. Qed.

Lemma for_items_from {V W} (f : str -> V -> W) (d : dict V) :
  forall acc : dict W,
    NoDup (keys acc ++ keys d) ->
    fold_left (fun acc kv => dict_set acc (fst kv) (f (fst kv) (snd kv))) d acc
    = acc ++ map (fun kv => (fst kv, f (fst kv) (snd kv))) d.
Proof.
  induction d as [|[k v] d IH]; intros acc Hnd; simpl.
  - now rewrite app_nil_r.
  - simpl in Hnd.
    rewrite dict_set_fresh.
    + rewrite IH.
      * now rewrite <- app_assoc.
      * rewrite keys_app. simpl. rewrite <- app_assoc. exact Hnd.
    + apply NoDup_remove_2 in Hnd. intros Hin. apply Hnd.
      apply in_or_app. now left.
Qed.

Lemma for_items_map {V W} (f : str -> V -> W) (d : dict V) :
  NoDup (keys d) ->
  for_items f d = map (fun kv => (fst kv, f (fst kv) (snd kv))) d.
Proof. intros H. unfold for_items. now rewrite for_items_from. Qed.

Lemma dict_get_map {V W} (g : str * V -> W) (d : dict V) (k : str) (v : V) :
  NoDup (keys d) -> In (k, v) d ->
  dict_get (map (fun kv => (fst kv, g kv)) d) k = Some (g (k, v)).
Proof.
  induction d as [|[k' v'] d IH]; simpl; intros Hnd Hin; [tauto|].
  inversion Hnd as [|? ? Hk Hd]; subst.
  destruct Hin as [E|Hin].
  - injection E as -> ->. now rewrite str_eqb_refl.
  - destruct (str_eqb k' k) eqn:E.
    + apply str_eqb_eq in E. subst k'. exfalso. apply Hk.
      change k with (fst (k, v)). now apply in_map.
    + now apply IH.
Qed.

Lemma update_values_from (f : str -> str) (rest : dict str) :
  forall done : dict str,
    NoDup (keys done ++ keys rest) ->
    fold_left (fun acc k => match dict_get acc k with
                            | Some v => dict_set acc k (f v)
                            | None => acc
                            end)
              (keys rest) (done ++ rest)
    = done ++ map (fun kv => (fst kv, f (snd kv))) rest.
Proof.
  induction rest as [|[k v] rest IH]; intros done Hnd; simpl.
  - reflexivity.
  - assert (Hk : ~ In k (keys done)).
    { simpl in Hnd. apply NoDup_remove_2 in Hnd. intros Hin. apply Hnd.
      apply in_or_app. now left. }
    rewrite dict_get_mid, dict_set_mid by assumption.
    change (done ++ (k, f v) :: rest) with (done ++ [(k, f v)] ++ rest).
    rewrite app_assoc, IH.
    + now rewrite <- app_assoc.
    + rewrite keys_app. simpl. rewrite <- app_assoc. exact Hnd.
Qed.

Lemma update_values_map (f : str -> str) (d : dict str) :
  NoDup (keys d) ->
  update_values f d = map (fun kv => (fst kv, f (snd kv))) d.
Proof.
  intros H. unfold update_values. now apply (update_values_from f d []).
Qed.

Lemma keys_map_values {V W} (g : str * V -> W) (d : dict V) :
  keys (map (fun kv => (fst kv, g kv)) d) = keys d.
Proof. unfold keys. rewrite map_map. reflexivity. Qed.

(** ** Splitting into lines and joining them *)

Lemma split_char_cons (c : char) (s : str) :
  exists l ls, split_char c s = l :: ls.
Proof.
  induction s as [|x s (l & ls & IH)]; simpl; [eauto|].
  destruct (x =? c)%N; [eauto|]. rewrite IH. eauto.
Qed.

Lemma join_cons (sep l : str) (l' : str) (ls : list str) :
  join sep (l :: l' :: ls) = l ++ sep ++ join sep (l' :: ls).
Proof. reflexivity. Qed.

Lemma join_split_char (c : char) (s : str) : join [c] (split_char c s) = s.
Proof.
  induction s as [|x s IH]; simpl; [reflexivity|].
  destruct (split_char_cons c s) as (l & ls & E). rewrite E in *.
  destruct (N.eqb_spec x c).
  - subst x. rewrite join_cons. cbn [app]. now rewrite IH.
  - destruct ls as [|l' ls].
    + cbn [join] in *. now rewrite IH.
    + rewrite join_cons in *. rewrite <- IH. reflexivity.
Qed.

Lemma split_char_no_sep (c : char) (s : str) :
  Forall (fun l => ~ In c l) (split_char c s).
Proof.
  induction s as [|x s IH]; simpl.
  - constructor; [tauto | constructor].
  - destruct (N.eqb_spec x c).
    + constructor; [tauto | assumption].
    + destruct (split_char c s) as [|l ls].
      * constructor; [|constructor]. simpl. intros [E|[]]. congruence.
      * inversion IH; subst. constructor; [|assumption].
        simpl. intros [E|H]; [congruence | tauto].
Qed.

Lemma split_char_line (c : char) (l : str) :
  ~ In c l -> split_char c l = [l].
Proof.
  induction l as [|x l IH]; simpl; intros H; [reflexivity|].
  destruct (N.eqb_spec x c); [subst; tauto|].
  rewrite IH by tauto. reflexivity.
Qed.

Lemma split_char_app (c : char) (l rest : str) :
  ~ In c l -> split_char c (l ++ c :: rest) = l :: split_char c rest.
Proof.
  induction l as [|x l IH]; simpl; intros H.
  - now rewrite N.eqb_refl.
  - destruct (N.eqb_spec x c); [subst; tauto|].
    rewrite IH by tauto. reflexivity.
Qed.

Lemma split_char_join (c : char) (ls : list str) :
  ls <> [] -> Forall (fun l => ~ In c l) ls ->
  split_char c (join [c] ls) = ls.
Proof.
  induction ls as [|l ls IH]; [congruence|]. intros _ H.
  inversion H as [|? ? Hl Hls]; subst.
  destruct ls as [|l' ls].
  - simpl. now apply split_char_line.
  - rewrite join_cons.
    change ([c] ++ join [c] (l' :: ls)) with (c :: join [c] (l' :: ls)).
    rewrite split_char_app by assumption.
    rewrite IH; [reflexivity | discriminate | assumption].
Qed.

(** ** Line endings *)

Lemma restore_walk_nil (s : str) : restore_walk s [] = s.
Proof.
  induction s as [|c s IH]; simpl; [reflexivity|].
  destruct (N.eqb_spec c LF); [subst|]; now rewrite IH.
Qed.

Lemma restore_fold_interleave (line_endings : list (nat * str))
      (lines : list str) :
  lines <> [] ->
  forall k acc,
    concat
      (fold_left
         (fun result il =>
            result ++ [snd il]
              ++ [match nth_error line_endings (fst il) with
                  | Some e => snd e
                  | None => [LF]
                  end])
         (combine (seq k (length (removelast lines))) (removelast lines)) acc
         ++ [last lines []])
    = concat acc ++ interleave k line_endings lines.
Proof.
  induction lines as [|l rest IH]; [congruence|]. intros _ k acc.
  destruct rest as [|l2 rest].
  - simpl. rewrite concat_app. simpl. now rewrite app_nil_r.
  - change (removelast (l :: l2 :: rest)) with (l :: removelast (l2 :: rest)).
    change (last (l :: l2 :: rest) []) with (last (l2 :: rest) []).
    cbn [length seq combine fold_left fst snd].
    rewrite IH by discriminate.
    rewrite !concat_app. cbn [concat interleave]. unfold ending_at.
    rewrite !app_nil_r, <- !app_assoc. reflexivity.
Qed.

Lemma skipn_markers (line_endings : list (nat * str)) (i : nat) :
  skipn i (map snd line_endings)
  = match nth_error line_endings i with
    | Some e => snd e :: skipn (S i) (map snd line_endings)
    | None => []
    end.
Proof.
  revert i; induction line_endings as [|e es IH]; intros [|i]; simpl;
    try reflexivity.
  rewrite IH. destruct (nth_error es i); reflexivity.
Qed.

Lemma skipn_markers_none (line_endings : list (nat * str)) (i : nat) :
  nth_error line_endings i = None -> skipn (S i) (map snd line_endings) = [].
Proof.
  intros H. apply skipn_all2. rewrite length_map.
  apply nth_error_None in H. lia.
Qed.

Lemma interleave_cons (i : nat) (line_endings : list (nat * str))
      (l0 l : str) (ls : list str) :
  interleave i line_endings (l0 :: l :: ls)
  = l0 ++ ending_at line_endings i ++ interleave (S i) line_endings (l :: ls).
Proof. reflexivity. Qed.

Lemma interleave_walk (line_endings : list (nat * str)) (text : str) :
  forall i,
    interleave i line_endings (split_char LF text)
    = restore_walk text (skipn i (map snd line_endings)).
Proof.
  induction text as [|x text IH]; intros i; [reflexivity|].
  cbn [split_char restore_walk].
  destruct (split_char_cons LF text) as (l & ls & E).
  destruct (N.eqb_spec x LF).
  - rewrite E, interleave_cons. cbn [app]. rewrite <- E, IH.
    rewrite (skipn_markers line_endings i). unfold ending_at.
    destruct (nth_error line_endings i) eqn:En; [reflexivity|].
    now rewrite (skipn_markers_none _ _ En).
  - rewrite <- IH, E. destruct ls as [|l' ls]; reflexivity.
Qed.

Lemma restore_line_endings_walk (text : str) (line_endings : list (nat * str)) :
  _restore_line_endings text line_endings
  = restore_walk text (map snd line_endings).
Proof.
  unfold _restore_line_endings.
  destruct line_endings as [|e es]; [now rewrite restore_walk_nil|].
  remember (e :: es) as line_endings.
  replace (restore_walk text (map snd line_endings))
    with (interleave 0 line_endings (split_char LF text))
    by (apply (interleave_walk line_endings text 0)).
  destruct (split_char_cons LF text) as (l & ls & E).
  destruct (Nat.leb_spec (length (split_char LF text)) 1) as [Hle|Hgt].
  - rewrite E in *. destruct ls; [|simpl in Hle; lia].
    simpl. rewrite <- (join_split_char LF text), E. reflexivity.
  - unfold enumerate.
    rewrite restore_fold_interleave; [reflexivity|]. rewrite E. discriminate.
Qed.

Lemma find_char_split (c : char) (rest : str) (j : nat) :
  find [c] rest = Some j ->
  length (skipn (j + 1) rest) < length rest.
Proof.
  intros H. apply find_char_lt in H. rewrite length_skipn. lia.
Qed.

Lemma startswith_2 (a b : char) (rest : str) :
  startswith [a; b] rest = true -> exists r, rest = a :: b :: r.
Proof.
  destruct rest as [|x [|y r]]; simpl; try discriminate.
  - rewrite andb_false_r. discriminate.
  - destruct (N.eqb_spec a x), (N.eqb_spec b y); simpl; try discriminate.
    subst. eauto.
Qed.

Lemma normalize_loop_spec (fuel : nat) :
  forall rest line_pos normalized_text line_endings,
    length rest <= fuel ->
    exists n e,
      normalize_loop fuel rest line_pos normalized_text line_endings
      = (normalized_text ++ n, line_endings ++ e)
      /\ restore_walk n (map snd e) = rest.
Proof.
  induction fuel as [|f IH]; intros rest lp an ae Hlen.
  - destruct rest; [|simpl in Hlen; lia].
    exists [], []. simpl. now rewrite !app_nil_r.
  - destruct rest as [|c rest'].
    { exists [], []. simpl. now rewrite !app_nil_r. }
    assert (Hstep : forall k m,
               0 < k -> firstn k (c :: rest') = m ->
               exists n e,
                 normalize_loop f (skipn k (c :: rest')) (lp + 1)
                                (an ++ [LF]) (ae ++ [(lp, m)])
                 = (an ++ n, ae ++ e)
                 /\ restore_walk n (map snd e) = c :: rest').
    { intros k m Hk Hm.
      destruct (IH (skipn k (c :: rest')) (lp + 1) (an ++ [LF])
                   (ae ++ [(lp, m)])) as (n & e & E & Hw).
      - rewrite length_skipn. cbn [length] in *. lia.
      - exists (LF :: n), ((lp, m) :: e). rewrite E.
        rewrite <- !app_assoc. split; [reflexivity|].
        simpl. rewrite Hw, <- Hm. apply firstn_skipn. }
    assert (Htrad :
              exists n e,
                (if startswith [CR; LF] (c :: rest') then
                   normalize_loop f (skipn 2 (c :: rest')) (lp + 1)
                                  (an ++ [LF]) (ae ++ [(lp, [CR; LF])])
                 else if (c =? CR)%N then
                   normalize_loop f rest' (lp + 1) (an ++ [LF])
                                  (ae ++ [(lp, [CR])])
                 else if (c =? LF)%N then
                   normalize_loop f rest' (lp + 1) (an ++ [LF])
                                  (ae ++ [(lp, [LF])])
                 else normalize_loop f rest' lp (an ++ [c]) ae)
                = (an ++ n, ae ++ e)
                /\ restore_walk n (map snd e) = c :: rest').
    { destruct (startswith [CR; LF] (c :: rest')) eqn:Ecrlf.
      - apply startswith_2 in Ecrlf as [r Er].
        apply (Hstep 2 [CR; LF]); [lia|]. rewrite Er. reflexivity.
      - destruct (N.eqb_spec c CR).
        + subst c. apply (Hstep 1 [CR]); [lia | reflexivity].
        + destruct (N.eqb_spec c LF).
          * subst c. apply (Hstep 1 [LF]); [lia | reflexivity].
          * destruct (IH rest' lp (an ++ [c]) ae) as (n' & e' & E & Hw).
            { simpl in Hlen. lia. }
            exists (c :: n'), e'. rewrite E, <- app_assoc.
            split; [reflexivity|]. simpl.
            destruct (N.eqb_spec c LF); [congruence|]. now rewrite Hw. }
    cbn [normalize_loop].
    destruct (is_br_open (c :: rest')); [|exact Htrad].
    destruct (find [GT] (c :: rest')) as [j|] eqn:Ej; [|exact Htrad].
    apply (Hstep (j + 1) (firstn (j + 1) (c :: rest'))); [lia | reflexivity].
Qed.

(** Restoring the line endings of a normalized text gives the text
    back, spelling by spelling. *)
Lemma normalize_restore_line_endings (text : str) :
  _restore_line_endings (fst (_normalize_line_endings text))
                        (snd (_normalize_line_endings text)) = text.
Proof.
  rewrite restore_line_endings_walk. unfold _normalize_line_endings.
  destruct (negb _).
  - simpl. apply restore_walk_nil.
  - destruct (normalize_loop_spec (length text) text 0 [] [] (le_n _))
      as (n & e & E & Hw).
    rewrite E. exact Hw.
Qed.

(** ** Lines: prefix, core and suffix *)

Lemma affix_match_spec (a : char -> bool) (line g1 g2 g3 : str) :
  affix_match a line = Some (g1, g2, g3) -> g1 ++ g2 ++ g3 = line.
Proof.
  unfold affix_match.
  destruct (span a line) as [p rest] eqn:E1.
  destruct (span a (rev rest)) as [g3r g2r] eqn:E2.
  intros H. injection H as <- <- <-.
  apply span_spec in E1 as (-> & _ & _).
  apply span_spec in E2 as (E2 & _ & _).
  apply (f_equal (@rev char)) in E2. rewrite rev_involutive, rev_app_distr in E2.
  now rewrite E2.
Qed.

Lemma endswith_char (x : char) (p : str) :
  endswith [x] p = true -> removelast p ++ [x] = p.
Proof.
  unfold endswith. simpl. destruct (rev p) as [|y t] eqn:E; [discriminate|].
  destruct (N.eqb_spec x y); [|discriminate]. intros _. subst y.
  apply (f_equal (@rev char)) in E. rewrite rev_involutive in E. subst p.
  simpl. now rewrite removelast_last.
Qed.

Lemma startswith_char (x : char) (s : str) :
  startswith [x] s = true -> x :: skipn 1 s = s.
Proof.
  destruct s as [|y t]; simpl; [discriminate|].
  destruct (N.eqb_spec x y); [|discriminate]. now subst.
Qed.

Lemma handle_special_characters_spec (prefix core_text suffix : str) :
  forall p c s,
    _handle_special_characters prefix core_text suffix = (p, c, s) ->
    p ++ c ++ s = prefix ++ core_text ++ suffix.
Proof.
  intros p c s. unfold _handle_special_characters.
  set (stage1 := match prefix with [] => _ | _ :: _ => _ end).
  assert (H1 : fst stage1 ++ snd stage1 = prefix ++ core_text).
  { subst stage1. destruct prefix as [|x0 pr]; [reflexivity|].
    remember (x0 :: pr) as prefix.
    repeat match goal with
           | |- context [if endswith ?b prefix then _ else _] =>
             let E := fresh "E" in
             destruct (endswith b prefix) eqn:E;
               [ apply (endswith_char _ prefix) in E; cbn [fst snd];
                 rewrite <- E at 2; now rewrite <- app_assoc
               | clear E ]
           end.
    reflexivity. }
  destruct stage1 as [p1 c1]. cbn [fst snd] in H1.
  set (stage2 := match suffix with [] => _ | _ :: _ => _ end).
  assert (H2 : fst stage2 ++ snd stage2 = c1 ++ suffix).
  { subst stage2. destruct suffix as [|x0 su]; [reflexivity|].
    remember (x0 :: su) as suffix.
    repeat match goal with
           | |- context [if startswith ?b suffix then _ else _] =>
             let E := fresh "E" in
             destruct (startswith b suffix) eqn:E;
               [ apply (startswith_char _ suffix) in E; cbn [fst snd];
                 rewrite <- E at 2; now rewrite <- app_assoc
               | clear E ]
           end.
    reflexivity. }
  destruct stage2 as [c2 s2]. cbn [fst snd] in H2.
  set (stage3 := match s2 with [] => _ | _ :: _ => _ end).
  assert (H3 : fst stage3 ++ snd stage3 = c2 ++ s2).
  { subst stage3. destruct s2 as [|x0 su]; [reflexivity|].
    destruct (isdigit (x0 :: su)); cbn [fst snd]; [now rewrite app_nil_r|].
    reflexivity. }
  destruct stage3 as [c3 s3]. cbn [fst snd] in H3.
  intros H. injection H as <- <- <-.
  rewrite H3, H2, app_assoc, H1, <- app_assoc. reflexivity.
Qed.

Lemma length_lstrip (s : str) : length (lstrip s) <= length s.
Proof.
  induction s as [|c s IH]; simpl; [lia|].
  destruct (isspace_char c); simpl; lia.
Qed.

Lemma length_rstrip (s : str) : length (rstrip s) <= length s.
Proof.
  unfold rstrip. rewrite length_rev.
  pose proof (length_lstrip (rev s)) as H. now rewrite length_rev in H.
Qed.

Lemma leading_ws_split (s : str) :
  leading_ws s ++ skipn (length (leading_ws s)) s = s.
Proof.
  unfold leading_ws. rewrite length_firstn.
  pose proof (length_lstrip s).
  rewrite Nat.min_l by lia. apply firstn_skipn.
Qed.

Lemma trailing_ws_split (s : str) :
  firstn (length s - length (trailing_ws s)) s ++ trailing_ws s = s.
Proof.
  unfold trailing_ws. rewrite length_skipn.
  pose proof (length_rstrip s).
  replace (length s - (length s - length (rstrip s))) with (length (rstrip s))
    by lia.
  apply firstn_skipn.
Qed.

(** What one round of the line loop records is enough to rebuild the
    line. *)
Lemma process_line_spec (source_lang line : str) :
  match process_line source_lang line with
  | (None, li) => li_is_empty li = true /\ li_original_whitespace li = line
  | (Some core, li) =>
    li_is_empty li = false /\ li_prefix li ++ core ++ li_suffix li = line
  end.
Proof.
  unfold process_line.
  destruct (is_empty line || is_empty (strip line));
    [split; reflexivity|].
  destruct (select_pattern source_lang line) as [[[g1 g2] g3]|] eqn:Em;
    [|split; [reflexivity | simpl; apply app_nil_r]].
  assert (Hm : g1 ++ g2 ++ g3 = line).
  { unfold select_pattern, RE_JA_AFFIX_match, RE_WHITESPACE_AFFIX_match in Em.
    destruct (_ || _) in Em; now apply affix_match_spec in Em. }
  destruct (_handle_special_characters g1 g2 g3) as [[p1 c1] s1] eqn:Eh.
  apply handle_special_characters_spec in Eh. rewrite Hm in Eh. clear Hm Em.
  set (stage2 := if is_empty (strip c1) && negb (is_empty (strip line))
                 then (line, [], []) else (c1, p1, s1)).
  assert (H2 : snd (fst stage2) ++ fst (fst stage2) ++ snd stage2 = line).
  { subst stage2. destruct (_ && _); cbn [fst snd]; [|exact Eh].
    now rewrite app_nil_r. }
  destruct stage2 as [[c2 p2] s2]. cbn [fst snd] in H2.
  set (stage3 := if isdigit (strip p2) then _ else _).
  assert (H3 : fst stage3 ++ snd stage3 = p2 ++ c2).
  { subst stage3. destruct (isdigit (strip p2)); cbn [fst snd]; [|reflexivity].
    rewrite app_assoc. now rewrite leading_ws_split. }
  destruct stage3 as [p3 c3]. cbn [fst snd] in H3.
  set (stage4 := if isdigit (strip s2) then _ else _).
  assert (H4 : snd stage4 ++ fst stage4 = c3 ++ s2).
  { subst stage4. destruct (isdigit (strip s2)); cbn [fst snd]; [|reflexivity].
    rewrite <- app_assoc. now rewrite trailing_ws_split. }
  destruct stage4 as [s4 c4]. cbn [fst snd li_is_empty li_prefix li_suffix] in *.
  split; [reflexivity|].
  rewrite H4, app_assoc, H3, <- app_assoc. exact H2.
Qed.

(** ** Texts of several lines *)

Section Multiline.

Variable source_lang : str.

Lemma process_lines_fold (lines : list str) :
  forall non_empty_lines lines_info,
    fold_left
      (fun acc line =>
         let '(core, li) := process_line source_lang line in
         (match core with
          | Some c => fst acc ++ [c]
          | None => fst acc
          end,
          snd acc ++ [li]))
      lines (non_empty_lines, lines_info)
    = (non_empty_lines ++ cores source_lang lines, lines_info ++ infos source_lang lines).
Proof.
  induction lines as [|l lines IH]; intros a b; simpl.
  - now rewrite !app_nil_r.
  - destruct (process_line source_lang l) as [[c|] li]; cbn [fst snd];
      rewrite IH, <- !app_assoc; reflexivity.
Qed.

Lemma restore_lines_fold (translated_lines : list str) (lines : list str) :
  forall restored_lines translated_index,
    (forall j c, nth_error (cores source_lang lines) j = Some c ->
                 nth_error translated_lines (translated_index + j) = Some c) ->
    fold_left
      (fun acc line_info =>
         let '(restored_lines, translated_index) := acc in
         if li_is_empty line_info
         then (restored_lines ++ [li_original_whitespace line_info],
               translated_index)
         else
           match nth_error translated_lines translated_index with
           | Some line =>
             (restored_lines ++ [li_prefix line_info ++ line
                                   ++ li_suffix line_info],
              translated_index + 1)
           | None => (restored_lines ++ [[]], translated_index)
           end)
      (infos source_lang lines) (restored_lines, translated_index)
    = (restored_lines ++ lines, translated_index + length (cores source_lang lines)).
Proof.
  induction lines as [|l lines IH]; intros acc idx Hnth.
  - simpl. now rewrite app_nil_r, Nat.add_0_r.
  - unfold cores, infos in *. cbn [map flat_map fold_left] in *.
    pose proof (process_line_spec source_lang l) as Hl.
    destruct (process_line source_lang l) as [[c|] li]; cbn [fst snd] in *.
    + destruct Hl as [He Hcat]. rewrite He.
      specialize (Hnth 0 c eq_refl) as H0. rewrite Nat.add_0_r in H0.
      rewrite H0, Hcat. rewrite IH.
      * rewrite <- app_assoc. simpl. f_equal. lia.
      * intros j c' Hj. specialize (Hnth (S j) c' Hj).
        now replace (idx + 1 + j) with (idx + S j) by lia.
    + destruct Hl as [He Hw]. rewrite He, Hw. rewrite IH.
      * now rewrite <- app_assoc.
      * exact Hnth.
Qed.

Lemma cores_no_newline (lines : list str) :
  Forall (fun l => ~ In LF l) lines ->
  Forall (fun c => ~ In LF c) (cores source_lang lines).
Proof.
  induction 1 as [|l lines Hl Hls IH]; [constructor|].
  unfold cores in *. cbn [flat_map].
  pose proof (process_line_spec source_lang l) as Hs.
  destruct (process_line source_lang l) as [[c|] li]; cbn [fst]; [|exact IH].
  constructor; [|exact IH].
  destruct Hs as [_ Hcat]. intros Hin. apply Hl. rewrite <- Hcat.
  apply in_or_app. right. apply in_or_app. now left.
Qed.

(** The payload of a text that the tag codec leaves alone, restored
    with the record made of it, is the text. *)
Lemma multiline_round_trip (text : str) :
  _process_tag_content text = (text, None) ->
  _restore_multiline_text (fst (_process_multiline_text text source_lang))
                          (snd (_process_multiline_text text source_lang))
  = text.
Proof.
  intros Htag. unfold _process_multiline_text. rewrite Htag.
  pose proof (normalize_restore_line_endings text) as Hle.
  destruct (_normalize_line_endings text) as [normalized_text line_endings].
  cbn [fst snd] in Hle.
  rewrite process_lines_fold. cbn [app fst snd].
  unfold _restore_multiline_text.
  cbn [info_lines_info info_line_endings info_tag_info].
  set (lines := split_char LF normalized_text).
  rewrite (restore_lines_fold
             (split_char LF (join [LF] (cores source_lang lines))) lines [] 0).
  - cbn [app]. subst lines. now rewrite join_split_char.
  - intros j c Hj. cbn [Nat.add].
    rewrite split_char_join; [exact Hj | |].
    + intros E. rewrite E in Hj. destruct j; discriminate.
    + apply cores_no_newline. apply split_char_no_sep.
Qed.

End Multiline.

(** ** The pipeline on texts that no pattern matches *)

Lemma distinct_NoDup (ks : list str) : distinct ks = true -> NoDup ks.
Proof.
  induction ks as [|k r IH]; simpl; intros H; [constructor|].
  apply andb_prop in H as [Hk Hr]. constructor; [|auto].
  intros Hin. apply negb_true_iff in Hk.
  assert (existsb (str_eqb k) r = true); [|congruence].
  apply existsb_exists. exists k. split; [assumption | apply str_eqb_refl].
Qed.

Lemma no_tag_record_spec (text : str) :
  no_tag_record text = true -> _process_tag_content text = (text, None).
Proof.
  unfold no_tag_record, _process_tag_content.
  destruct (_process_multiple_tags_only text) as [r1 [i1|]]; [discriminate|].
  destruct (_process_single_tag_content text) as [r2 [i2|]]; [discriminate|].
  reflexivity.
Qed.

Lemma quiet_spec (p : Pattern) (text : str) :
  quiet p text = true -> p_match p text = None /\ p_finditer p text = [].
Proof.
  unfold quiet. destruct (p_match p text); [discriminate|].
  destruct (p_finditer p text); [auto | discriminate].
Qed.

Section Quiet.

Variable patterns : list Pattern.
Variable text : str.
Hypothesis Hquiet : forallb (fun p => quiet p text) patterns = true.

Lemma strip_prefixes_quiet (fuel : nat) (acc : list PrefixCode) :
  strip_prefixes (S fuel) patterns text acc = Some (text, acc).
Proof.
  induction patterns as [|p rest IH]; [reflexivity|].
  simpl in Hquiet. apply andb_prop in Hquiet as [Hp Hrest].
  apply quiet_spec in Hp as [Hm _].
  cbn [strip_prefixes strip_prefix_loop]. rewrite Hm. now apply IH.
Qed.

Lemma strip_suffixes_quiet (fuel : nat) (acc : list SuffixCode) :
  strip_suffixes (S fuel) patterns text acc = Some (text, acc).
Proof.
  induction patterns as [|p rest IH]; [reflexivity|].
  simpl in Hquiet. apply andb_prop in Hquiet as [Hp Hrest].
  apply quiet_spec in Hp as [_ Hf].
  cbn [strip_suffixes strip_suffix_loop]. unfold best_suffix_match.
  rewrite Hf. cbn [fold_left]. now apply IH.
Qed.

Lemma process_affixes_entry_quiet (fuel : nat) :
  process_affixes_entry (S fuel) patterns patterns text = Some (text, [], []).
Proof.
  unfold process_affixes_entry, strip_affixes.
  rewrite strip_prefixes_quiet, strip_suffixes_quiet.
  unfold repair_affixes. now destruct (is_empty (strip text)).
Qed.

Lemma mask_patterns_quiet (target_platform : str) (global sakura : nat) :
  mask_patterns target_platform patterns text [] global sakura
  = (text, [], global).
Proof.
  revert sakura. induction patterns as [|p rest IH]; intros sakura;
    [reflexivity|].
  simpl in Hquiet. apply andb_prop in Hquiet as [Hp Hrest].
  apply quiet_spec in Hp as [_ Hf].
  cbn [mask_patterns]. unfold sub_callable. rewrite Hf.
  cbn [sub_loop app skipn global_match_count sakura_match_count
       single_pattern_replacements].
  destruct (50 <=? global); [reflexivity | now apply IH].
Qed.

End Quiet.

Lemma process_affixes_loop_quiet (fuel : nat) (patterns : list Pattern)
      (items : list (str * str)) :
  forallb (fun kv => forallb (fun p => quiet p (snd kv)) patterns) items = true ->
  forall a b c,
    process_affixes_loop (S fuel) patterns patterns items (a, b, c)
    = Some (fold_left (fun acc kv => dict_set acc (fst kv) (snd kv)) items a,
            fold_left (fun acc kv => dict_set acc (fst kv) []) items b,
            fold_left (fun acc kv => dict_set acc (fst kv) []) items c).
Proof.
  induction items as [|[k t] items IH]; intros Hq a b c; [reflexivity|].
  simpl in Hq. apply andb_prop in Hq as [Ht Hrest].
  cbn [process_affixes_loop fold_left fst snd].
  rewrite process_affixes_entry_quiet by assumption. now apply IH.
Qed.

Lemma mask_entries_quiet (target_platform : str) (patterns : list Pattern)
      (items : list (str * str)) :
  forallb (fun kv => forallb (fun p => quiet p (snd kv)) patterns) items = true ->
  forall a b g,
    mask_entries target_platform patterns items (a, b, g)
    = (fold_left (fun acc kv => dict_set acc (fst kv) (snd kv)) items a,
       fold_left (fun acc kv => dict_set acc (fst kv) []) items b,
       g).
Proof.
  unfold mask_entries.
  induction items as [|[k t] items IH]; intros Hq a b g; [reflexivity|].
  simpl in Hq. apply andb_prop in Hq as [Ht Hrest].
  cbn [fold_left mask_entry fst snd].
  rewrite mask_patterns_quiet by assumption. now apply IH.
Qed.

Lemma map_id_values (d : dict str) :
  map (fun kv : str * str => (fst kv, snd kv)) d = d.
Proof. induction d as [|[k v] d IH]; simpl; congruence. Qed.

Lemma set_each_value (d : dict str) :
  NoDup (keys d) ->
  fold_left (fun acc kv => dict_set acc (fst kv) (snd kv)) d [] = d.
Proof.
  intros H.
  rewrite (for_items_from (fun _ v => v) d []) by assumption.
  apply map_id_values.
Qed.

Lemma set_each_empty {A} (d : dict str) :
  NoDup (keys d) ->
  fold_left (fun acc kv => dict_set acc (fst kv) (@nil A)) d []
  = map (fun kv => (fst kv, @nil A)) d.
Proof.
  intros H. now rewrite (for_items_from (fun _ _ => @nil A) d []).
Qed.

Lemma dict_get_default_empty {A} (d : dict str) (k : str) :
  dict_get_default (map (fun kv => (fst kv, @nil A)) d) k [] = [].
Proof.
  unfold dict_get_default.
  induction d as [|[k' v] d IH]; simpl; [reflexivity|].
  destruct (str_eqb k' k); [reflexivity | exact IH].
Qed.

Lemma restore_special_placeholders_empty (d d0 : dict str) :
  NoDup (keys d) ->
  _restore_special_placeholders
    d (map (fun kv => (fst kv, @nil PlaceholderRec)) d0) = d.
Proof.
  intros H. unfold _restore_special_placeholders.
  rewrite for_items_map by assumption.
  rewrite <- (map_id_values d) at 2. apply map_ext. intros [k v]. simpl.
  now rewrite dict_get_default_empty.
Qed.

Lemma restore_affixes_empty (d d0 d1 : dict str) :
  NoDup (keys d) ->
  _restore_affixes d (map (fun kv => (fst kv, @nil PrefixCode)) d0)
                   (map (fun kv => (fst kv, @nil SuffixCode)) d1) = d.
Proof.
  intros H. unfold _restore_affixes.
  rewrite for_items_map by assumption.
  rewrite <- (map_id_values d) at 2. apply map_ext. intros [k v]. simpl.
  rewrite !dict_get_default_empty.
  change (prefix_str []) with (@nil char).
  change (suffix_str []) with (@nil char). simpl. now rewrite app_nil_r.
Qed.

Lemma map_fixes (d : dict str) (g : str * str -> str * str) :
  (forall kv, In kv d -> g kv = kv) -> map g d = d.
Proof.
  intros H. rewrite <- (map_id d) at 2. now apply map_ext_in.
Qed.

Lemma forallb_In {A} (f : A -> bool) (l : list A) (x : A) :
  forallb f l = true -> In x l -> f x = true.
Proof. intros H Hin. rewrite forallb_forall in H. now apply H. Qed.

Section RoundTrip.

Variables (self : TextProcessor) (config : Config) (source_lang : str).
Variable text_dict : dict str.

Hypothesis Hkeys : distinct (keys text_dict) = true.
Hypothesis Htags :
  forallb (fun kv => no_tag_record (snd kv)) text_dict = true.
Hypothesis Hordinal :
  forallb (fun kv => negb (bracketed_ordinal (payload source_lang (snd kv))))
          text_dict = true.

Let payloads : dict str :=
  map (fun kv => (fst kv, payload source_lang (snd kv))) text_dict.

Let records : dict Info :=
  map (fun kv => (fst kv, snd (_process_multiline_text (snd kv) source_lang)))
      text_dict.

Lemma strip_and_record_affixes_maps :
  strip_and_record_affixes text_dict source_lang = (payloads, records).
Proof.
  unfold strip_and_record_affixes.
  rewrite !for_items_map by now apply distinct_NoDup.
  reflexivity.
Qed.

Lemma payloads_keys : NoDup (keys payloads).
Proof.
  unfold payloads.
  rewrite (keys_map_values (fun kv => payload source_lang (snd kv))).
  now apply distinct_NoDup.
Qed.

Lemma digital_sequence_preprocessing_payloads :
  digital_sequence_preprocessing payloads
  = map (fun kv => (fst kv, digital_sequence_preprocessing_text
                              (payload source_lang (snd kv)))) text_dict.
Proof.
  unfold digital_sequence_preprocessing.
  rewrite update_values_map by apply payloads_keys.
  unfold payloads. rewrite map_map. reflexivity.
Qed.

(** The last three stages of [restore_all] undo the first and the last
    stage of [replace_all]. *)
Lemma recover_and_restore_whitespace :
  restore_affix_whitespace
    records
    (digital_sequence_recovery (digital_sequence_preprocessing payloads))
  = text_dict.
Proof.
  pose proof (distinct_NoDup _ Hkeys) as Hnd.
  rewrite digital_sequence_preprocessing_payloads.
  unfold digital_sequence_recovery.
  rewrite update_values_map
    by (rewrite (keys_map_values
                   (fun kv => digital_sequence_preprocessing_text
                                (payload source_lang (snd kv)))); exact Hnd).
  rewrite map_map. cbn [fst snd].
  unfold restore_affix_whitespace.
  rewrite for_items_map
    by (rewrite (keys_map_values
                   (fun kv => digital_sequence_recovery_text
                                (digital_sequence_preprocessing_text
                                   (payload source_lang (snd kv)))));
        exact Hnd).
  rewrite map_map. cbn [fst snd].
  apply map_fixes. intros [k t] Hin. cbn [fst snd].
  unfold records.
  rewrite (dict_get_map
             (fun kv => snd (_process_multiline_text (snd kv) source_lang))
             text_dict k t Hnd Hin).
  cbn [snd].
  rewrite digital_sequence_text_roundtrip.
  - unfold payload. rewrite multiline_round_trip; [reflexivity|].
    apply no_tag_record_spec.
    apply (forallb_In _ _ _ Htags Hin).
  - apply negb_true_iff. apply (forallb_In _ _ _ Hordinal Hin).
Qed.

Lemma quiet_payloads :
  forallb (fun kv => forallb (fun p => quiet p (payload source_lang (snd kv)))
                             (auto_compiled_patterns self)) text_dict = true ->
  forallb (fun kv => forallb (fun p => quiet p (snd kv))
                             (auto_compiled_patterns self)) payloads = true.
Proof.
  intros H. unfold payloads. clear -H.
  induction text_dict as [|kv d IH]; [reflexivity|].
  simpl in *. apply andb_prop in H as [H1 H2]. now rewrite H1, IH.
Qed.

End RoundTrip.

(** C1, as amended.  With the pre- and post-translation substitutions
    switched off, for every source language and every batch of distinct
    keys in which the tag codec makes no record for any text, no payload
    begins with decimal digits between lenticular brackets and, when
    code-segment processing is on, no masking pattern matches a payload:
    [replace_all] returns, and [restore_all] on its unchanged output and
    on the records it emitted returns the batch itself, every key with
    exactly its original text, whitespace and line-break spellings
    included. *)
Theorem mask_restore_round_trip (fuel : nat) (self : TextProcessor)
        (config : Config) (source_lang : str) (text_dict : dict str) :
  distinct (keys text_dict) = true ->
  pre_translation_switch config = false ->
  post_translation_switch config = false ->
  forallb (fun kv => no_tag_record (snd kv)) text_dict = true ->
  forallb (fun kv => negb (bracketed_ordinal (payload source_lang (snd kv))))
          text_dict = true ->
  (auto_process_text_code_segment config = false
   \/ forallb (fun kv =>
                 forallb (fun p => quiet p (payload source_lang (snd kv)))
                         (auto_compiled_patterns self)) text_dict = true) ->
  exists masked,
    mask_then_restore (S fuel) self config source_lang text_dict
    = Some (masked, text_dict).
Proof.
  intros Hkeys Hpre Hpost Htags Hordinal Hauto.
  enough (exists masked pc sc po aws,
             replace_all (S fuel) self config source_lang text_dict
             = Some (masked, pc, sc, po, aws)
             /\ restore_all self config masked pc sc po aws = text_dict)
    as (masked & pc & sc & po & aws & E & R).
  { exists masked. unfold mask_then_restore. now rewrite E, R. }
  unfold replace_all. rewrite Hpre.
  rewrite (strip_and_record_affixes_maps source_lang text_dict Hkeys).
  pose proof (payloads_keys source_lang text_dict Hkeys) as Hnd.
  pose proof (recover_and_restore_whitespace source_lang text_dict Hkeys Htags
                                             Hordinal) as Hback.
  set (payloads := map (fun kv => (fst kv, payload source_lang (snd kv)))
                       text_dict) in *.
  destruct (auto_process_text_code_segment config) eqn:Eauto.
  - destruct Hauto as [Hauto|Hquiet]; [discriminate|].
    apply (quiet_payloads self source_lang) in Hquiet. fold payloads in Hquiet.
    unfold _process_affixes.
    rewrite process_affixes_loop_quiet by exact Hquiet.
    rewrite set_each_value, !set_each_empty by exact Hnd.
    unfold _replace_special_placeholders, replace_special_placeholders_run.
    rewrite mask_entries_quiet by exact Hquiet.
    rewrite set_each_value, set_each_empty by exact Hnd.
    cbn [fst snd].
    do 5 eexists. split; [reflexivity|].
    unfold restore_all. rewrite Eauto, Hpost.
    assert (Hk : NoDup (keys (digital_sequence_preprocessing payloads))).
    { unfold digital_sequence_preprocessing.
      rewrite update_values_map by exact Hnd.
      now rewrite (keys_map_values
                     (fun kv => digital_sequence_preprocessing_text (snd kv))). }
    rewrite restore_special_placeholders_empty by exact Hk.
    rewrite restore_affixes_empty by exact Hk.
    exact Hback.
  - do 5 eexists. split; [reflexivity|].
    unfold restore_all. rewrite Eauto, Hpost. exact Hback.
Qed.

Lemma mask_restore_round_trip_witness :
  let text_dict :=
    [(u "k1", u "  Hello\r\nworld<br> 1. x "); (u "k2", u "1. Hello")] in
  distinct (keys text_dict) = true
  /\ forallb (fun kv => no_tag_record (snd kv)) text_dict = true
  /\ forallb (fun kv => negb (bracketed_ordinal (payload (u "en") (snd kv))))
              text_dict = true
  /\ forallb (fun kv =>
                forallb (fun p => quiet p (payload (u "en") (snd kv)))
                        (auto_compiled_patterns marker_processor))
             text_dict = true
  /\ exists masked,
      mask_then_restore 1 marker_processor code_segments_on (u "en") text_dict
      = Some (masked, text_dict).
Proof.
  cbv zeta.
  assert (H1 : distinct (keys [(u "k1", u "  Hello\r\nworld<br> 1. x ");
                               (u "k2", u "1. Hello")]) = true)
    by (vm_compute; reflexivity).
  assert (H2 : forallb (fun kv => no_tag_record (snd kv))
                       [(u "k1", u "  Hello\r\nworld<br> 1. x ");
                        (u "k2", u "1. Hello")] = true)
    by (vm_compute; reflexivity).
  assert (H3 : forallb
                 (fun kv => negb (bracketed_ordinal
                                    (payload (u "en") (snd kv))))
                 [(u "k1", u "  Hello\r\nworld<br> 1. x ");
                  (u "k2", u "1. Hello")] = true)
    by (vm_compute; reflexivity).
  assert (H4 : forallb
                 (fun kv =>
                    forallb (fun p => quiet p (payload (u "en") (snd kv)))
                            (auto_compiled_patterns marker_processor))
                 [(u "k1", u "  Hello\r\nworld<br> 1. x ");
                  (u "k2", u "1. Hello")] = true)
    by (vm_compute; reflexivity).
  split; [exact H1|]. split; [exact H2|]. split; [exact H3|].
  split; [exact H4|].
  exact (mask_restore_round_trip 0 marker_processor code_segments_on (u "en")
           [(u "k1", u "  Hello\r\nworld<br> 1. x "); (u "k2", u "1. Hello")]
           H1 eq_refl eq_refl H2 H3 (or_intror H4)).
Defined.

(** A text that begins with digits between lenticular brackets is
    masked unchanged and comes back with the brackets rewritten, with
    every optional stage switched off. *)
Lemma bracketed_text_not_restored :
  mask_then_restore 1 bare_processor stages_off (u "en")
                    [(u "k", u "【1】abc")]
  = Some ([(u "k", u "【1】abc")], [(u "k", u "1.abc")])
  /\ str_eqb (u "1.abc") (u "【1】abc") = false.
Proof. split; vm_compute; reflexivity. Qed.

(** The other restrictions of the round trip are needed as well. *)

(** A pre-translation rule rewrites the text for good. *)
Lemma substituted_text_not_restored :
  mask_then_restore 1 rule_processor pre_translation_on (u "en")
                    [(u "k", u "banana")]
  = Some ([(u "k", u "bbnbnb")], [(u "k", u "bbnbnb")]).
Proof. vm_compute. reflexivity. Qed.

(** The tag codec drops a comment, and doubles the blank content of a
    colon tag. *)
Lemma tagged_text_not_restored :
  mask_then_restore 1 bare_processor stages_off (u "en")
                    [(u "k", u "<a:x>//c")]
  = Some ([(u "k", u "x")], [(u "k", u "<a:x>")])
  /\ mask_then_restore 1 bare_processor stages_off (u "en")
                       [(u "k", u "<a: >")]
     = Some ([(u "k", [])], [(u "k", u "<a:  >")]).
Proof. split; vm_compute; reflexivity. Qed.

(** With code-segment processing on, a stripped prefix hides the
    protected ordinal from [digital_sequence_recovery], and a text that
    holds a placeholder token gets the fragment back at the wrong
    place. *)
Lemma masked_text_not_restored :
  mask_then_restore 5 marker_processor code_segments_on (u "en")
                    [(u "k", u "@1. y")]
  = Some ([(u "k", u "【1】 y")], [(u "k", u "@【1】 y")])
  /\ mask_then_restore 5 marker_processor code_segments_on (u "en")
                       [(u "k", u "[P1] @ x")]
     = Some ([(u "k", u "[P1][P1]x")], [(u "k", u " @ [P1]x")]).
Proof. split; vm_compute; reflexivity. Qed.

(* ================================================================= *)
(** * Further properties of the codecs *)

(** ** Line endings: structure of the normalized text *)

Lemma contains_char_false (c : char) (s : str) :
  contains [c] s = false -> ~ In c s.
Proof.
  unfold contains. induction s as [|x s IH]; simpl; [tauto|].
  destruct (N.eqb_spec c x); simpl; [discriminate|].
  destruct (find [c] s); simpl; [discriminate|].
  intros _ [E|H]; [congruence | now apply IH].
Qed.

Lemma split_char_length (c : char) (s : str) :
  length (split_char c s) = S (count_occ N.eq_dec s c).
Proof.
  induction s as [|x s IH]; simpl; [reflexivity|].
  destruct (split_char_cons c s) as (l & ls & E). rewrite E in *.
  destruct (N.eqb_spec x c), (N.eq_dec x c); try congruence; simpl in *; lia.
Qed.

Lemma count_occ_not_In_char (c : char) (s : str) :
  ~ In c s -> count_occ N.eq_dec s c = 0.
Proof. intros H. now apply count_occ_not_In. Qed.

Lemma normalize_loop_structure (fuel : nat) :
  forall rest line_pos normalized_text line_endings,
    length rest <= fuel ->
    exists n e,
      normalize_loop fuel rest line_pos normalized_text line_endings
      = (normalized_text ++ n, line_endings ++ e)
      /\ map fst e = seq line_pos (length e)
      /\ count_occ N.eq_dec n LF = length e
      /\ ~ In CR n
      /\ Forall (fun x => snd x <> []) e.
Proof.
  induction fuel as [|f IH]; intros rest lp an ae Hlen.
  - destruct rest; [|simpl in Hlen; lia].
    exists [], []. simpl. rewrite !app_nil_r. repeat split; auto.
  - destruct rest as [|c rest'].
    { exists [], []. simpl. rewrite !app_nil_r. repeat split; auto. }
    assert (Hstep : forall k m,
               0 < k -> m <> [] ->
               exists n e,
                 normalize_loop f (skipn k (c :: rest')) (lp + 1)
                                (an ++ [LF]) (ae ++ [(lp, m)])
                 = (an ++ n, ae ++ e)
                 /\ map fst e = seq lp (length e)
                 /\ count_occ N.eq_dec n LF = length e
                 /\ ~ In CR n
                 /\ Forall (fun x => snd x <> []) e).
    { intros k m Hk Hm.
      destruct (IH (skipn k (c :: rest')) (lp + 1) (an ++ [LF])
                   (ae ++ [(lp, m)])) as (n & e & E & Hpos & Hcount & Hcr & Hne).
      - rewrite length_skipn. cbn [length] in *. lia.
      - exists (LF :: n), ((lp, m) :: e). rewrite E.
        rewrite <- !app_assoc. split; [reflexivity|].
        cbn [map fst length seq]. rewrite Hpos.
        replace (lp + 1) with (S lp) by lia.
        repeat split.
        + cbn [count_occ]. destruct (N.eq_dec LF LF); [|congruence].
          now rewrite Hcount.
        + intros [E'|H']; [discriminate | tauto].
        + constructor; assumption. }
    assert (Htrad :
              exists n e,
                (if startswith [CR; LF] (c :: rest') then
                   normalize_loop f (skipn 2 (c :: rest')) (lp + 1)
                                  (an ++ [LF]) (ae ++ [(lp, [CR; LF])])
                 else if (c =? CR)%N then
                   normalize_loop f rest' (lp + 1) (an ++ [LF])
                                  (ae ++ [(lp, [CR])])
                 else if (c =? LF)%N then
                   normalize_loop f rest' (lp + 1) (an ++ [LF])
                                  (ae ++ [(lp, [LF])])
                 else normalize_loop f rest' lp (an ++ [c]) ae)
                = (an ++ n, ae ++ e)
                /\ map fst e = seq lp (length e)
                /\ count_occ N.eq_dec n LF = length e
                /\ ~ In CR n
                /\ Forall (fun x => snd x <> []) e).
    { destruct (startswith [CR; LF] (c :: rest')) eqn:Ecrlf.
      - apply (Hstep 2 [CR; LF]); [lia | discriminate].
      - destruct (N.eqb_spec c CR).
        + subst c. apply (Hstep 1 [CR]); [lia | discriminate].
        + destruct (N.eqb_spec c LF).
          * subst c. apply (Hstep 1 [LF]); [lia | discriminate].
          * destruct (IH rest' lp (an ++ [c]) ae)
              as (n' & e' & E & Hpos & Hcount & Hcr & Hne).
            { simpl in Hlen. lia. }
            exists (c :: n'), e'. rewrite E, <- app_assoc.
            split; [reflexivity|]. repeat split; try assumption.
            -- cbn [count_occ]. destruct (N.eq_dec c LF); [congruence|].
               assumption.
            -- intros [E'|H']; [congruence | tauto]. }
    cbn [normalize_loop].
    destruct (is_br_open (c :: rest')); [|exact Htrad].
    destruct (find [GT] (c :: rest')) as [j|] eqn:Ej; [|exact Htrad].
    apply (Hstep (j + 1) (firstn (j + 1) (c :: rest'))); [lia|].
    replace (j + 1) with (S j) by lia. discriminate.
Qed.

(** X1. Restoring the recorded line endings of a normalized text gives
    back the text exactly, for every text. *)
Theorem line_endings_round_trip (text : str) :
  let '(normalized_text, line_endings) := _normalize_line_endings text in
  _restore_line_endings normalized_text line_endings = text.
Proof.
  pose proof (normalize_restore_line_endings text) as H.
  destruct (_normalize_line_endings text). exact H.
Qed.

Lemma normalize_line_endings_structure (text : str) :
  map fst (snd (_normalize_line_endings text))
  = seq 0 (length (snd (_normalize_line_endings text)))
  /\ length (split_char LF (fst (_normalize_line_endings text)))
     = S (length (snd (_normalize_line_endings text)))
  /\ ~ In CR (fst (_normalize_line_endings text))
  /\ Forall (fun e => snd e <> []) (snd (_normalize_line_endings text)).
Proof.
  unfold _normalize_line_endings.
  destruct (contains [CR] text) eqn:Ecr; cbn [orb negb].
  2: destruct (contains [LF] text) eqn:Elf; cbn [orb negb].
  3: destruct (contains_br text) eqn:Ebr; cbn [orb negb].
  4: { apply contains_char_false in Ecr, Elf. cbn [fst snd].
       rewrite split_char_length, count_occ_not_In_char by assumption.
       repeat split; auto. }
  all: destruct (normalize_loop_structure (length text) text 0 [] [] (le_n _))
      as (n & e & E & Hpos & Hcount & Hcr & Hne);
    rewrite E; cbn [app fst snd]; rewrite split_char_length, Hcount; auto.
Qed.

(** X2. The normalized text holds no carriage return, one line ending
    is recorded for each newline of it, under the positions 0, 1, 2, ...
    in order, no recorded spelling is empty, and the normalized text
    has one line more than there are records. *)
Theorem normalized_text_structure (text : str) :
  let '(normalized_text, line_endings) := _normalize_line_endings text in
  map fst line_endings = seq 0 (length line_endings)
  /\ length (split_char LF normalized_text) = S (length line_endings)
  /\ ~ In CR normalized_text
  /\ Forall (fun e => snd e <> []) line_endings.
Proof.
  pose proof (normalize_line_endings_structure text) as H.
  destruct (_normalize_line_endings text). exact H.
Qed.

Lemma restore_walk_step (a b m : str) (ms : list str) :
  ~ In LF a ->
  restore_walk (a ++ LF :: b) (m :: ms) = a ++ m ++ restore_walk b ms.
Proof.
  induction a as [|x a IH]; intros H.
  - reflexivity.
  - cbn [app restore_walk]. destruct (N.eqb_spec x LF).
    + subst. exfalso. apply H. now left.
    + rewrite IH; [reflexivity|]. intros H'. apply H. now right.
Qed.

Lemma restore_walk_no_newline (a : str) (ms : list str) :
  ~ In LF a -> restore_walk a ms = a.
Proof.
  induction a as [|x a IH]; intros H; [reflexivity|].
  cbn [restore_walk]. destruct (N.eqb_spec x LF).
  - subst. exfalso. apply H. now left.
  - rewrite IH; [reflexivity|]. intros H'. apply H. now right.
Qed.

(** X3. Restoring line endings into any text walks its newlines in
    order: the first newline takes the first recorded spelling and the
    rest of the text is restored with the rest of the record; newlines
    beyond the record stay as they are, and records beyond the last
    newline are ignored. *)
Theorem restore_line_endings_walks_newlines :
  (forall a b e line_endings,
      ~ In LF a ->
      _restore_line_endings (a ++ LF :: b) (e :: line_endings)
      = a ++ snd e ++ _restore_line_endings b line_endings)
  /\ (forall text, _restore_line_endings text [] = text)
  /\ (forall text line_endings,
        ~ In LF text -> _restore_line_endings text line_endings = text).
Proof.
  split; [|split]; intros.
  - rewrite !restore_line_endings_walk. cbn [map]. now apply restore_walk_step.
  - reflexivity.
  - rewrite restore_line_endings_walk. now apply restore_walk_no_newline.
Qed.

(** ** Blank strings *)

Lemma lstrip_nil (s : str) : lstrip s = [] <-> forallb isspace_char s = true.
Proof.
  induction s as [|c s IH]; simpl; [tauto|].
  destruct (isspace_char c); simpl; [exact IH|]. split; discriminate.
Qed.

Lemma lstrip_head (s : str) (c : char) (r : str) :
  lstrip s = c :: r -> isspace_char c = false.
Proof.
  induction s as [|x s IH]; simpl; [discriminate|].
  destruct (isspace_char x) eqn:E; [exact IH|].
  intros H. injection H as <- _. exact E.
Qed.

Lemma forallb_rev {A} (f : A -> bool) (l : list A) :
  forallb f (rev l) = forallb f l.
Proof.
  induction l as [|x l IH]; [reflexivity|].
  simpl. rewrite forallb_app, IH. simpl. rewrite andb_true_r. apply andb_comm.
Qed.

Lemma lstrip_blank_suffix (s : str) :
  forallb isspace_char (lstrip s) = forallb isspace_char s.
Proof.
  induction s as [|c s IH]; simpl; [reflexivity|].
  destruct (isspace_char c) eqn:E; simpl; [exact IH|]. now rewrite E.
Qed.

(** A string strips to nothing exactly when all its characters are
    white space. *)
Lemma strip_nil (s : str) : strip s = [] <-> forallb isspace_char s = true.
Proof.
  unfold strip, rstrip.
  rewrite <- lstrip_blank_suffix, <- (forallb_rev _ (lstrip s)), <- lstrip_nil.
  split; intros H.
  - apply (f_equal (@rev char)) in H. now rewrite rev_involutive in H.
  - now rewrite H.
Qed.

Lemma strip_app_not_blank (a c b : str) :
  strip c <> [] -> strip (a ++ c ++ b) <> [].
Proof.
  rewrite !strip_nil, !forallb_app. intros H H'.
  apply andb_prop in H' as [_ H']. apply andb_prop in H' as [H' _]. tauto.
Qed.

(** ** Lines *)

Lemma process_line_core (source_lang line : str) :
  match process_line source_lang line with
  | (None, li) => strip line = []
  | (Some core, li) => strip line <> [] /\ strip core <> []
  end.
Proof.
  unfold process_line.
  destruct (is_empty line || is_empty (strip line)) eqn:Eb.
  { apply orb_prop in Eb as [Eb|Eb]; apply is_empty_true in Eb;
      [now subst | assumption]. }
  apply orb_false_elim in Eb as [_ Eb]. apply is_empty_false in Eb.
  destruct (select_pattern source_lang line) as [[[g1 g2] g3]|];
    [|split; assumption].
  destruct (_handle_special_characters g1 g2 g3) as [[p1 c1] s1].
  set (stage2 := if is_empty (strip c1) && negb (is_empty (strip line))
                 then (line, [], []) else (c1, p1, s1)).
  assert (H2 : strip (fst (fst stage2)) <> []).
  { subst stage2. destruct (is_empty (strip c1)) eqn:Ec; cbn [andb].
    - destruct (is_empty (strip line)) eqn:El; cbn [negb fst snd].
      + apply is_empty_true in El. contradiction.
      + assumption.
    - cbn [fst snd]. now apply is_empty_false. }
  destruct stage2 as [[c2 p2] s2]. cbn [fst snd] in H2.
  set (stage3 := if isdigit (strip p2) then _ else _).
  assert (H3 : strip (snd stage3) <> []).
  { subst stage3. destruct (isdigit (strip p2)); cbn [fst snd]; [|assumption].
    rewrite <- (app_nil_r c2). now apply strip_app_not_blank. }
  destruct stage3 as [p3 c3]. cbn [fst snd] in H3.
  set (stage4 := if isdigit (strip s2) then _ else _).
  assert (H4 : strip (snd stage4) <> []).
  { subst stage4. destruct (isdigit (strip s2)); cbn [fst snd]; [|assumption].
    now apply (strip_app_not_blank []). }
  destruct stage4 as [s4 c4]. cbn [fst snd] in H4.
  split; assumption.
Qed.

(** X4. [process_line] on any line: a blank line gives no core and is
    recorded as it is; any other line gives a core that is not blank,
    between a prefix and a suffix that, put around the core, make up
    the line. *)
Theorem process_line_splits_line (source_lang line : str) :
  match process_line source_lang line with
  | (None, li) =>
    strip line = [] /\ li_is_empty li = true /\ li_original_whitespace li = line
  | (Some core, li) =>
    strip line <> [] /\ strip core <> [] /\ li_is_empty li = false
    /\ li_prefix li ++ core ++ li_suffix li = line
  end.
Proof.
  pose proof (process_line_spec source_lang line) as H1.
  pose proof (process_line_core source_lang line) as H2.
  destruct (process_line source_lang line) as [[core|] li]; tauto.
Qed.

Lemma cores_not_blank (source_lang : str) (lines : list str) :
  Forall (fun c => strip c <> []) (cores source_lang lines).
Proof.
  induction lines as [|l lines IH]; [constructor|].
  unfold cores in *. cbn [flat_map].
  pose proof (process_line_core source_lang l) as H.
  destruct (process_line source_lang l) as [[c|] li]; cbn [fst app];
    [constructor; tauto | exact IH].
Qed.

Lemma infos_count (source_lang : str) (lines : list str) :
  length (filter (fun li => negb (li_is_empty li)) (infos source_lang lines))
  = length (cores source_lang lines).
Proof.
  induction lines as [|l lines IH]; [reflexivity|].
  unfold cores, infos in *. cbn [flat_map map filter].
  pose proof (process_line_spec source_lang l) as H.
  destruct (process_line source_lang l) as [[c|] li]; cbn [fst snd];
    destruct H as [-> _]; cbn [negb app length]; now rewrite IH.
Qed.

(** X5. The payload of any text has exactly one line for each line
    record that is not marked empty, and none of these lines is blank;
    when every line of the text is blank the payload is the empty
    string. *)
Theorem payload_lines_match_records (text source_lang : str) :
  let '(payload, info) := _process_multiline_text text source_lang in
  let expected :=
    length (filter (fun li => negb (li_is_empty li)) (info_lines_info info)) in
  (expected = 0 -> payload = [])
  /\ (0 < expected ->
      length (split_char LF payload) = expected
      /\ Forall (fun l => strip l <> []) (split_char LF payload))
  /\ length (info_lines_info info) = S (length (info_line_endings info)).
Proof.
  unfold _process_multiline_text.
  destruct (_process_tag_content text) as [content tag_info].
  pose proof (normalize_line_endings_structure content) as Hn.
  destruct (_normalize_line_endings content) as [normalized_text line_endings].
  cbn [fst snd] in Hn.
  rewrite process_lines_fold. cbn [app fst snd info_lines_info info_line_endings].
  rewrite infos_count.
  set (lines := split_char LF normalized_text) in *.
  split; [|split].
  - intros E. destruct (cores source_lang lines); [reflexivity | discriminate].
  - intros Hpos.
    rewrite split_char_join.
    + split; [reflexivity | apply cores_not_blank].
    + intros E. rewrite E in Hpos. simpl in Hpos. lia.
    + apply cores_no_newline. apply split_char_no_sep.
  - unfold infos. rewrite length_map. tauto.
Qed.

(** X6. The line and white-space layer is transparent: for every text,
    restoring the payload as it is with the record made of the text gives
    what the tag codec alone restores from its own content; for a text
    without a tag record that is the text itself. *)
Theorem multiline_layer_is_transparent (text source_lang : str) :
  let '(content, tag_info) := _process_tag_content text in
  let '(payload, info) := _process_multiline_text text source_lang in
  _restore_multiline_text payload info = _restore_tag_content content tag_info.
Proof.
  unfold _process_multiline_text.
  destruct (_process_tag_content text) as [content tag_info].
  pose proof (normalize_restore_line_endings content) as Hle.
  destruct (_normalize_line_endings content) as [normalized_text line_endings].
  cbn [fst snd] in Hle.
  rewrite process_lines_fold. cbn [app fst snd].
  unfold _restore_multiline_text.
  cbn [info_lines_info info_line_endings info_tag_info].
  set (lines := split_char LF normalized_text).
  rewrite (restore_lines_fold source_lang
             (split_char LF (join [LF] (cores source_lang lines))) lines [] 0).
  - cbn [app]. subst lines. rewrite join_split_char, Hle.
    destruct tag_info; reflexivity.
  - intros j c Hj. cbn [Nat.add].
    rewrite split_char_join; [exact Hj | |].
    + intros E. rewrite E in Hj. destruct j; discriminate.
    + apply cores_no_newline. apply split_char_no_sep.
Qed.

(** ** Special characters at the borders of a line *)

(** X7. [_handle_special_characters] only moves characters across the
    two borders of the core: at most one character from the end of the
    prefix, and from the start of the suffix at most one character
    unless the whole suffix goes into the core.  Nothing is dropped or
    reordered. *)
Theorem handle_special_characters_moves_borders (prefix core_text suffix : str) :
  let '(p, c, s) := _handle_special_characters prefix core_text suffix in
  exists a b,
    prefix = p ++ a /\ suffix = b ++ s /\ c = a ++ core_text ++ b
    /\ length a <= 1 /\ (length b <= 1 \/ s = []).
Proof.
  unfold _handle_special_characters.
  set (stage1 := match prefix with [] => _ | _ :: _ => _ end).
  assert (H1 : exists a, prefix = fst stage1 ++ a
                         /\ snd stage1 = a ++ core_text /\ length a <= 1).
  { subst stage1. destruct prefix as [|x0 pr].
    { exists []. cbn. auto. }
    remember (x0 :: pr) as prefix.
    repeat match goal with
           | |- context [if endswith ?b prefix then _ else _] =>
             let E := fresh "E" in
             destruct (endswith b prefix) eqn:E;
               [ apply (endswith_char _ prefix) in E; cbn [fst snd];
                 eexists; split; [symmetry; exact E | split; [reflexivity|]];
                 simpl; lia
               | clear E ]
           end.
    exists []. cbn [fst snd app length]. rewrite app_nil_r. auto. }
  destruct stage1 as [p1 c1]. cbn [fst snd] in H1.
  destruct H1 as (a & Ha & Hc1 & Hla).
  set (stage2 := match suffix with [] => _ | _ :: _ => _ end).
  assert (H2 : exists b, suffix = b ++ snd stage2
                         /\ fst stage2 = c1 ++ b /\ length b <= 1).
  { subst stage2. destruct suffix as [|x0 su].
    { exists []. cbn [fst snd app length]. rewrite app_nil_r. auto. }
    remember (x0 :: su) as suffix.
    repeat match goal with
           | |- context [if startswith ?b suffix then _ else _] =>
             let E := fresh "E" in
             destruct (startswith b suffix) eqn:E;
               [ apply (startswith_char _ suffix) in E; cbn [fst snd];
                 exists b; split; [exact (eq_sym E) | split; [reflexivity|]];
                 simpl; lia
               | clear E ]
           end.
    exists []. cbn [fst snd app length]. rewrite app_nil_r. auto. }
  destruct stage2 as [c2 s2]. cbn [fst snd] in H2.
  destruct H2 as (b & Hb & Hc2 & Hlb).
  destruct s2 as [|x0 su].
  - exists a, b. rewrite Hc2, Hc1, <- app_assoc. repeat split; auto.
  - destruct (isdigit (x0 :: su)).
    + exists a, (b ++ x0 :: su).
      rewrite app_nil_r, Hc2, Hc1, <- !app_assoc. repeat split; auto.
    + exists a, b. rewrite Hc2, Hc1, <- app_assoc. repeat split; auto.
Qed.

(** ** Substrings *)

Lemma startswith_app (n a b : str) :
  startswith n a = true -> startswith n (a ++ b) = true.
Proof.
  revert a; induction n as [|x n IH]; intros [|y a]; simpl; try easy.
  destruct (x =? y)%N; simpl; [apply IH | discriminate].
Qed.

Lemma find_None_tail (n : str) (x : char) (s : str) :
  find n (x :: s) = None -> startswith n (x :: s) = false /\ find n s = None.
Proof.
  cbn [find]. destruct (startswith n (x :: s)); [discriminate|].
  destruct (find n s); [discriminate | auto].
Qed.

Lemma contains_tail (n : str) (x : char) (s : str) :
  contains n (x :: s) = false -> contains n s = false.
Proof.
  unfold contains. destruct (find n (x :: s)) eqn:E; [discriminate|].
  apply find_None_tail in E as [_ ->]. reflexivity.
Qed.

Lemma contains_suffix (n a b : str) :
  contains n (a ++ b) = false -> contains n b = false.
Proof.
  induction a as [|x a IH]; [trivial|].
  intros H. apply IH. exact (contains_tail _ _ _ H).
Qed.

Lemma contains_prefix (n a b : str) :
  n <> [] -> contains n (a ++ b) = false -> contains n a = false.
Proof.
  intros Hn. unfold contains. induction a as [|x a IH]; intros H.
  - destruct n; [congruence | reflexivity].
  - cbn [app] in H. destruct (find n (x :: a ++ b)) eqn:E; [discriminate|].
    apply find_None_tail in E as [E1 E2].
    cbn [find]. destruct (startswith n (x :: a)) eqn:Es.
    + apply (startswith_app _ _ b) in Es. cbn [app] in Es. congruence.
    + rewrite E2 in IH. specialize (IH eq_refl).
      destruct (find n a); [discriminate | reflexivity].
Qed.

Lemma split_char_head (c : char) (s l : str) (ls : list str) :
  split_char c s = l :: ls -> exists rest, s = l ++ rest.
Proof.
  intros E. pose proof (join_split_char c s) as H. rewrite E in H.
  destruct ls as [|l' ls].
  - exists []. simpl in H. now rewrite app_nil_r.
  - rewrite join_cons in H. eauto.
Qed.

Lemma split_char_contains (n : str) (c : char) (s : str) :
  n <> [] -> contains n s = false ->
  Forall (fun l => contains n l = false) (split_char c s).
Proof.
  intros Hn. induction s as [|x s IH]; intros H.
  - constructor; [|constructor]. destruct n; [congruence | reflexivity].
  - specialize (IH (contains_tail _ _ _ H)). cbn [split_char].
    destruct (x =? c)%N.
    + constructor; [|exact IH]. destruct n; [congruence | reflexivity].
    + destruct (split_char c s) as [|l ls] eqn:E.
      * constructor; [|constructor].
        destruct (split_char_cons c s) as (? & ? & E'). congruence.
      * inversion IH; subst. constructor; [|assumption].
        apply split_char_head in E as [rest ->].
        apply (contains_prefix n (x :: l) rest Hn). exact H.
Qed.

(** ** Comments *)

Lemma remove_block_comments_none (fuel : nat) (s : str) :
  contains (u "/*") s = false -> remove_block_comments_fuel fuel s = s.
Proof.
  revert s; induction fuel as [|f IH]; intros s H; [reflexivity|].
  destruct s as [|c r]; [reflexivity|]. cbn [remove_block_comments_fuel].
  unfold contains in H. destruct (find (u "/*") (c :: r)) eqn:E; [discriminate|].
  apply find_None_tail in E as [E1 E2]. rewrite E1.
  rewrite IH; [reflexivity|]. unfold contains. now rewrite E2.
Qed.

(** X8. A text that holds neither two slashes in a row nor a slash
    followed by a star is returned as it is by [_remove_comments]; in
    particular a hash sign never starts a comment. *)
Theorem remove_comments_keeps_plain_text (text : str) :
  contains (u "//") text = false ->
  contains (u "/*") text = false ->
  _remove_comments text = text.
Proof.
  intros H1 H2. unfold _remove_comments.
  assert (E : map strip_line_comment (split_char LF text) = split_char LF text).
  { pose proof (split_char_contains (u "//") LF text ltac:(discriminate) H1)
      as HF.
    induction HF as [|l ls Hl _ IH]; [reflexivity|].
    cbn [map]. rewrite IH. unfold strip_line_comment. now rewrite Hl. }
  rewrite E, join_split_char.
  now apply remove_block_comments_none.
Qed.

Lemma remove_comments_keeps_plain_text_witness :
  contains (u "//") (u "a/b # c\nd*/") = false
  /\ contains (u "/*") (u "a/b # c\nd*/") = false
  /\ _remove_comments (u "a/b # c\nd*/") = u "a/b # c\nd*/".
Proof.
  split; [reflexivity | split; [reflexivity|]].
  apply (remove_comments_keeps_plain_text (u "a/b # c\nd*/")); reflexivity.
Defined.

(** ** What stripping and comment removal keep *)

Lemma In_skipn_elim {A} (x : A) (n : nat) (l : list A) :
  In x (skipn n l) -> In x l.
Proof.
  intros H. rewrite <- (firstn_skipn n l). apply in_or_app. now right.
Qed.

Lemma In_firstn_elim {A} (x : A) (n : nat) (l : list A) :
  In x (firstn n l) -> In x l.
Proof.
  intros H. rewrite <- (firstn_skipn n l). apply in_or_app. now left.
Qed.

Lemma lstrip_In (x : char) (s : str) : In x (lstrip s) -> In x s.
Proof.
  induction s as [|c s IH]; simpl; [tauto|].
  destruct (isspace_char c); simpl; tauto.
Qed.

Lemma strip_In (x : char) (s : str) : In x (strip s) -> In x s.
Proof.
  unfold strip, rstrip. intros H.
  apply in_rev, lstrip_In, in_rev, lstrip_In in H. exact H.
Qed.

Lemma join_In (x : char) (sep : str) (ls : list str) :
  In x (join sep ls) -> In x sep \/ exists l, In l ls /\ In x l.
Proof.
  induction ls as [|l ls IH]; [simpl; tauto|].
  destruct ls as [|l' ls].
  - simpl. intros H. right. exists l. auto.
  - rewrite join_cons. intros H.
    apply in_app_or in H as [H|H]; [right; exists l; simpl; auto|].
    apply in_app_or in H as [H|H]; [now left|].
    destruct (IH H) as [H'|(l0 & Hl0 & Hx)]; [now left|].
    right. exists l0. split; [now right | assumption].
Qed.

Lemma split_char_In (c x : char) (s l : str) :
  In l (split_char c s) -> In x l -> In x s.
Proof.
  revert l; induction s as [|y s IH]; intros l; cbn [split_char].
  - intros [<-|[]] [].
  - destruct (y =? c)%N.
    + intros [<-|H] Hx; [destruct Hx|]. right. eauto.
    + destruct (split_char c s) as [|l0 ls].
      * intros [<-|[]] [->|[]]. now left.
      * intros [<-|H] Hx.
        -- destruct Hx as [->|Hx]; [now left|]. right. apply (IH l0); simpl; auto.
        -- right. apply (IH l); simpl; auto.
Qed.

Lemma strip_line_comment_In (x : char) (line : str) :
  In x (strip_line_comment line) -> In x line.
Proof.
  unfold strip_line_comment. destruct (contains (u "//") line); [|trivial].
  unfold split. cbn [split_fuel].
  destruct (find (u "//") line); cbn [hd]; [apply In_firstn_elim | trivial].
Qed.

Lemma remove_block_comments_In (x : char) (fuel : nat) :
  forall s, In x (remove_block_comments_fuel fuel s) -> In x s.
Proof.
  induction fuel as [|f IH]; intros s; [trivial|].
  destruct s as [|c r]; [trivial|]. cbn [remove_block_comments_fuel].
  assert (Hkeep : In x (c :: remove_block_comments_fuel f r) -> In x (c :: r)).
  { intros [->|H]; [now left | right; auto]. }
  destruct (startswith (u "/*") (c :: r)); [|exact Hkeep].
  destruct (find (u "*/") (skipn 2 (c :: r))); [|exact Hkeep].
  intros H. apply IH in H. exact (In_skipn_elim _ _ _ H).
Qed.

(** Every character of the text without comments, the newline apart, is
    a character of the text. *)
Lemma remove_comments_In (x : char) (text : str) :
  x <> LF -> In x (_remove_comments text) -> In x text.
Proof.
  intros Hx H. unfold _remove_comments, remove_block_comments in H.
  apply remove_block_comments_In, join_In in H.
  destruct H as [[H|[]]|(l & Hl & Hin)]; [congruence|].
  apply in_map_iff in Hl as (l0 & <- & Hl0).
  apply strip_line_comment_In in Hin. exact (split_char_In _ _ _ _ Hl0 Hin).
Qed.

Lemma multi_tag_scan_none (fuel : nat) :
  forall pos s, ~ In LT s -> multi_tag_scan fuel pos s = [].
Proof.
  induction fuel as [|f IH]; intros pos s H; [reflexivity|].
  destruct s as [|c r]; [reflexivity|]. cbn [multi_tag_scan].
  destruct (N.eqb_spec c LT); [subst; exfalso; apply H; now left|].
  apply IH. intros H'. apply H. now right.
Qed.

Lemma startswith_In (x : char) (s : str) : startswith [x] s = true -> In x s.
Proof.
  destruct s as [|y s]; simpl; [discriminate|].
  destruct (N.eqb_spec x y); [now left | discriminate].
Qed.

Lemma is_single_tag_only_plain (text : str) :
  ~ In LT text -> _is_single_tag_only text = false.
Proof.
  intros H. unfold _is_single_tag_only. cbv zeta.
  match goal with |- context [strip ?X] => set (t := X) end.
  assert (Ht : ~ In LT t).
  { subst t. destruct (_ || _); [|exact H].
    intros H'. apply H. now apply remove_comments_In in H'. }
  destruct (startswith [LT] (strip t)) eqn:E; [|reflexivity].
  exfalso. apply Ht. apply strip_In. now apply startswith_In.
Qed.

(** X9. The tag codec leaves alone every text without a ['<']: no
    record is made and the text is handed on as it is, comments
    included.  More generally, whenever the codec makes no record the
    text it returns is the text it was given. *)
Theorem tag_codec_leaves_plain_text (text : str) :
  (forallb (fun c => negb (c =? LT)%N) text = true ->
   _process_tag_content text = (text, None))
  /\ match _process_tag_content text with
     | (result, None) => result = text
     | (_, Some _) => True
     end.
Proof.
  split.
  - intros Hplain.
    assert (H : ~ In LT text).
    { intros Hin. rewrite forallb_forall in Hplain.
      specialize (Hplain _ Hin). now rewrite N.eqb_refl in Hplain. }
    assert (Hc : ~ In LT (_remove_comments text)).
    { intros H'. apply H. now apply remove_comments_In in H'. }
    unfold _process_tag_content, _process_multiple_tags_only,
      _process_single_tag_content.
    unfold RE_MULTI_TAG_finditer. rewrite multi_tag_scan_none by exact Hc.
    cbn [length Nat.ltb].
    rewrite is_single_tag_only_plain by exact Hc. reflexivity.
  - unfold _process_tag_content.
    destruct (_process_multiple_tags_only text) as [r1 [i1|]]; [trivial|].
    destruct (_process_single_tag_content text) as [r2 [i2|]]; trivial.
Qed.

(** ** The white space around a string *)

Lemma lstrip_suffix (s : str) : exists a, s = a ++ lstrip s.
Proof.
  induction s as [|c s [a IH]]; [now exists []|]. simpl.
  destruct (isspace_char c); [|now exists []].
  exists (c :: a). simpl. now rewrite <- IH.
Qed.

Lemma lstrip_split (s : str) : leading_ws s ++ lstrip s = s.
Proof.
  unfold leading_ws. destruct (lstrip_suffix s) as [a E].
  remember (lstrip s) as r eqn:Hr. clear Hr. subst s.
  rewrite length_app, Nat.add_sub.
  rewrite firstn_app, Nat.sub_diag, firstn_all. simpl. now rewrite app_nil_r.
Qed.

Lemma rstrip_split (s : str) : rstrip s ++ trailing_ws s = s.
Proof.
  unfold trailing_ws. destruct (lstrip_suffix (rev s)) as [a E].
  assert (Es : s = rstrip s ++ rev a).
  { unfold rstrip. rewrite <- rev_app_distr, <- E. now rewrite rev_involutive. }
  remember (rstrip s) as r eqn:Hr. clear Hr E. subst s.
  rewrite skipn_app, Nat.sub_diag, skipn_all. reflexivity.
Qed.

Lemma lstrip_app_not_blank (x y : str) :
  forallb isspace_char x = false -> lstrip (x ++ y) = lstrip x ++ y.
Proof.
  induction x as [|c x IH]; simpl; [discriminate|].
  destruct (isspace_char c); simpl; [exact IH | reflexivity].
Qed.

Lemma rstrip_app_not_blank (a r : str) :
  forallb isspace_char r = false -> rstrip (a ++ r) = a ++ rstrip r.
Proof.
  intros H. unfold rstrip. rewrite rev_app_distr.
  rewrite lstrip_app_not_blank by now rewrite forallb_rev.
  now rewrite rev_app_distr, rev_involutive.
Qed.

Lemma rstrip_nil (s : str) : rstrip s = [] <-> forallb isspace_char s = true.
Proof.
  unfold rstrip. rewrite <- (forallb_rev _ s), <- lstrip_nil.
  split; intros H.
  - apply (f_equal (@rev char)) in H. now rewrite rev_involutive in H.
  - now rewrite H.
Qed.

(** A string that is not blank is its leading white space, its stripped
    form and its trailing white space. *)
Lemma strip_parts (s : str) :
  strip s <> [] -> leading_ws s ++ strip s ++ trailing_ws s = s.
Proof.
  intros Hs. unfold strip in *.
  assert (Hr : forallb isspace_char (lstrip s) = false).
  { destruct (forallb isspace_char (lstrip s)) eqn:E; [|reflexivity].
    apply rstrip_nil in E. contradiction. }
  pose proof (lstrip_split s) as E1.
  assert (E2 : trailing_ws s = trailing_ws (lstrip s)).
  { unfold trailing_ws. rewrite <- E1 at 1 2.
    rewrite (rstrip_app_not_blank _ _ Hr).
    rewrite skipn_app, length_app.
    replace (_ + _ - _) with (length (rstrip (lstrip s))) by lia.
    rewrite skipn_all2 by lia. reflexivity. }
  rewrite E2, rstrip_split. exact E1.
Qed.

Lemma strip_parts_content (s : str) :
  strip s <> [] \/ leading_ws s = [] ->
  leading_ws s ++ strip s ++ trailing_ws s = s.
Proof.
  intros [H|H]; [now apply strip_parts|].
  destruct (list_eq_dec N.eq_dec (strip s) []) as [E|E]; [|now apply strip_parts].
  apply strip_nil, lstrip_nil in E.
  pose proof (lstrip_split s) as E1. rewrite H, E in E1. now subst s.
Qed.

Lemma strip_last (s r : str) (c : char) :
  strip s = r ++ [c] -> isspace_char c = false.
Proof.
  unfold strip, rstrip. intros H.
  apply (f_equal (@rev char)) in H.
  rewrite rev_involutive, rev_app_distr in H. simpl in H.
  exact (lstrip_head _ _ _ H).
Qed.

Lemma endswith_app (p a b : str) :
  endswith p b = true -> endswith p (a ++ b) = true.
Proof.
  unfold endswith. rewrite rev_app_distr. apply startswith_app.
Qed.

Lemma endswith_strip (s : str) : endswith [LF] (strip s) = false.
Proof.
  destruct (endswith [LF] (strip s)) eqn:E; [|reflexivity].
  apply endswith_char in E. symmetry in E. apply strip_last in E. discriminate.
Qed.

Lemma endswith_not_In (c : char) (s : str) : ~ In c s -> endswith [c] s = false.
Proof.
  intros H. destruct (endswith [c] s) eqn:E; [|reflexivity].
  apply endswith_char in E. exfalso. apply H. rewrite <- E.
  apply in_or_app. right. now left.
Qed.

(** ** The two kinds of tag *)

Lemma endswith_2 (a b : char) (s : str) :
  endswith [a; b] s = true -> endswith [b] s = true.
Proof.
  unfold endswith. simpl. destruct (rev s) as [|x [|y r]]; simpl; try easy.
  - now rewrite andb_false_r.
  - destruct (b =? x)%N; simpl; [reflexivity | discriminate].
Qed.

(** The three groups of a colon tag make up the tag when it does not
    end with a newline. *)
Lemma RE_COLON_TAG_match_groups (s g1 g2 g3 : str) :
  RE_COLON_TAG_match s = Some (g1, g2, g3) ->
  endswith [LF] s = false ->
  g1 ++ g2 ++ g3 = s.
Proof.
  unfold RE_COLON_TAG_match. destruct s as [|c r]; [discriminate|].
  destruct (N.eqb_spec c LT); [subst c | discriminate].
  destruct (span_name r) as [name tail] eqn:En.
  apply span_spec in En as (-> & _ & _).
  destruct name as [|n ns]; [discriminate|].
  destruct tail as [|c2 rest]; [discriminate|].
  destruct (N.eqb_spec c2 COLON); [subst c2 | discriminate].
  destruct (endswith [GT] rest) eqn:E1.
  - intros H _. injection H as <- <- <-.
    apply endswith_char in E1. cbn [app]. rewrite <- !app_assoc. cbn [app].
    now rewrite E1.
  - destruct (endswith [GT; LF] rest) eqn:E2; [|discriminate].
    intros _ H. apply endswith_2 in E2.
    apply (endswith_app _ (LT :: (n :: ns) ++ [COLON])) in E2.
    replace ((LT :: (n :: ns) ++ [COLON]) ++ rest)
      with (LT :: (n :: ns) ++ COLON :: rest) in E2
      by (cbn [app]; now rewrite <- app_assoc).
    congruence.
Qed.

Lemma RE_SIMPLE_TAG_match_whole (s full_tag : str) :
  RE_SIMPLE_TAG_match s = Some full_tag ->
  endswith [LF] s = false ->
  full_tag = s.
Proof.
  unfold RE_SIMPLE_TAG_match. destruct s as [|c r]; [discriminate|].
  destruct (N.eqb_spec c LT); [subst c | discriminate].
  destruct (span_name r) as [name tail] eqn:En.
  apply span_spec in En as (-> & _ & _).
  destruct name as [|n ns]; [discriminate|].
  destruct tail as [|c2 rest]; [discriminate|].
  destruct (N.eqb_spec c2 GT); [subst c2 | discriminate]. cbn [andb].
  destruct (str_eqb rest []) eqn:E1.
  - apply str_eqb_eq in E1. subst rest. intros H _. now injection H as <-.
  - destruct (str_eqb rest [LF]) eqn:E2; [|discriminate].
    apply str_eqb_eq in E2. subst rest. cbn [orb]. intros _ H.
    exfalso.
    assert (E : endswith [LF] ((LT :: (n :: ns) ++ [GT]) ++ [LF]) = true).
    { apply (endswith_app [LF] (LT :: (n :: ns) ++ [GT]) [LF]). reflexivity. }
    replace ((LT :: (n :: ns) ++ [GT]) ++ [LF])
      with (LT :: (n :: ns) ++ [GT; LF]) in E
      by (cbn [app]; now rewrite <- app_assoc).
    congruence.
Qed.

Lemma multiple_tags_only_info (text r : str) (info : TagInfo) :
  _process_multiple_tags_only text = (r, Some info) ->
  exists tag_infos separators tag_count,
    info = multiple_tags_info tag_infos separators tag_count.
Proof.
  unfold _process_multiple_tags_only.
  destruct (_ <? 2); [discriminate|].
  destruct (negb _); [discriminate|].
  destruct (strip _); [|discriminate].
  intros H. injection H as _ <-. eauto.
Qed.

(** X10. A text of one tag: restoring the content as it is gives the
    text without its comments, white space around the tag and around
    its content included, provided the content of the tag is empty or
    not blank. *)
Theorem single_tag_round_trip (text content : str) (t : SingleTag) :
  _process_tag_content text = (content, Some (single_tag_info t)) ->
  content <> [] \/ st_content_leading_whitespace t = [] ->
  _restore_tag_content content (Some (single_tag_info t))
  = _remove_comments text.
Proof.
  unfold _process_tag_content.
  destruct (_process_multiple_tags_only text) as [r1 [i1|]] eqn:Em.
  { apply multiple_tags_only_info in Em as (? & ? & ? & ->). discriminate. }
  clear Em.
  destruct (_process_single_tag_content text) as [r2 [i2|]] eqn:Es;
    [|discriminate].
  intros H. injection H as -> ->.
  unfold _process_single_tag_content in Es.
  destruct (negb _); [discriminate|].
  set (twc := _remove_comments text) in *.
  pose proof (endswith_strip twc) as Hlf.
  destruct (RE_COLON_TAG_match (strip twc)) as [[[g1 g2] g3]|] eqn:Ec.
  - injection Es as <- <-.
    cbn [_restore_tag_content _restore_single_tag_content st_tag_type
         st_leading_whitespace st_tag_prefix st_content_leading_whitespace
         st_content_trailing_whitespace st_tag_suffix st_trailing_whitespace].
    intros Hc.
    pose proof (RE_COLON_TAG_match_groups _ _ _ _ Ec Hlf) as Hg.
    assert (Hs : strip twc <> []).
    { intros E. rewrite E in Ec. discriminate. }
    pose proof (strip_parts_content g2 Hc) as Hg2.
    rewrite <- Hg2 in Hg at 1.
    transitivity (leading_ws twc ++ strip twc ++ trailing_ws twc);
      [|now apply strip_parts].
    rewrite <- Hg, <- !app_assoc. reflexivity.
  - destruct (RE_SIMPLE_TAG_match (strip twc)) as [full_tag|] eqn:Ef;
      [|discriminate].
    injection Es as <- <-. intros _.
    cbn [_restore_tag_content _restore_single_tag_content st_tag_type
         st_leading_whitespace st_full_tag st_trailing_whitespace].
    pose proof (RE_SIMPLE_TAG_match_whole _ _ Ef Hlf) as ->.
    apply strip_parts. intros E. rewrite E in Ef. discriminate.
Qed.

Lemma single_tag_round_trip_witness :
  let t := {| st_tag_type := colon_tag;
              st_tag_prefix := u "<name:";
              st_tag_suffix := u ">";
              st_full_tag := [];
              st_leading_whitespace := u "  ";
              st_trailing_whitespace := u "  ";
              st_content_leading_whitespace := u " ";
              st_content_trailing_whitespace := u " " |} in
  _process_tag_content (u "  <name: hello >  // note")
  = (u "hello", Some (single_tag_info t))
  /\ _restore_tag_content (u "hello") (Some (single_tag_info t))
     = u "  <name: hello >  ".
Proof.
  intros t.
  assert (H : _process_tag_content (u "  <name: hello >  // note")
              = (u "hello", Some (single_tag_info t))) by reflexivity.
  assert (Hc : u "hello" <> [] \/ st_content_leading_whitespace t = [])
    by (left; discriminate).
  pose proof (single_tag_round_trip (u "  <name: hello >  // note")
                (u "hello") t H Hc) as R.
  split; [exact H|]. rewrite R. vm_compute. reflexivity.
Defined.

(** ** Splitting a joined payload *)

Lemma find_clean_none (c : char) (sep' p : str) :
  ~ In c p -> find (c :: sep') p = None.
Proof.
  induction p as [|x p IH]; intros H; [reflexivity|].
  cbn [find startswith]. destruct (N.eqb_spec c x).
  - subst. exfalso. apply H. now left.
  - cbn [andb]. rewrite IH; [reflexivity|]. intros H'. apply H. now right.
Qed.

Lemma startswith_self_app (n rest : str) : startswith n (n ++ rest) = true.
Proof.
  induction n as [|x n IH]; [reflexivity|]. simpl. now rewrite N.eqb_refl.
Qed.

Lemma find_clean (c : char) (sep' p rest : str) :
  ~ In c p ->
  find (c :: sep') (p ++ (c :: sep') ++ rest) = Some (length p).
Proof.
  induction p as [|x p IH]; intros H.
  - cbn [app find startswith length].
    now rewrite N.eqb_refl, startswith_self_app.
  - rewrite <- app_comm_cons. cbn [find startswith length].
    destruct (N.eqb_spec c x).
    + subst. exfalso. apply H. now left.
    + cbn [andb]. rewrite IH; [reflexivity|]. intros H'. apply H. now right.
Qed.

Lemma split_fuel_join (c : char) (sep' : str) (parts : list str) :
  forall fuel,
    parts <> [] -> Forall (fun p => ~ In c p) parts ->
    length parts <= fuel ->
    split_fuel fuel (c :: sep') (join (c :: sep') parts) = parts.
Proof.
  induction parts as [|p parts IH]; [congruence|]. intros fuel _ H Hf.
  inversion H as [|? ? Hp Hps]; subst.
  destruct fuel as [|f]; [simpl in Hf; lia|].
  destruct parts as [|p' parts].
  - cbn [join split_fuel]. now rewrite find_clean_none.
  - rewrite join_cons. cbn [split_fuel].
    rewrite find_clean by assumption.
    rewrite firstn_app, Nat.sub_diag, firstn_all. cbn [firstn].
    rewrite app_nil_r. f_equal.
    rewrite skipn_app, skipn_all2 by lia.
    replace (length p + length (c :: sep') - length p)
      with (length (c :: sep')) by lia.
    rewrite app_nil_l, (skipn_app _ (c :: sep')), Nat.sub_diag, skipn_all.
    cbn [skipn app].
    apply IH; [discriminate | assumption | simpl in *; lia].
Qed.

Lemma join_length (c : char) (sep' : str) (parts : list str) :
  length parts <= S (length (join (c :: sep') parts)).
Proof.
  induction parts as [|p parts IH]; [simpl; lia|].
  destruct parts as [|p' parts]; [simpl; lia|].
  rewrite join_cons, !length_app. cbn [length] in *. lia.
Qed.

(** Splitting the joined parts at the separator gives the parts back
    when no part holds the first character of the separator. *)
Lemma split_join (c : char) (sep' : str) (parts : list str) :
  parts <> [] -> Forall (fun p => ~ In c p) parts ->
  split (c :: sep') (join (c :: sep') parts) = parts.
Proof.
  intros H1 H2. unfold split. apply split_fuel_join; try assumption.
  apply join_length.
Qed.

(** ** Texts of several tags *)

Lemma forallb_map_compose {A B} (f : B -> bool) (g : A -> B) (l : list A) :
  forallb f (map g l) = forallb (fun x => f (g x)) l.
Proof. induction l as [|x l IH]; simpl; [reflexivity | now rewrite IH]. Qed.

Lemma extract_fold (t : str) (spans : list (nat * nat)) :
  forall k st,
    forallb (fun m => recognized (group0 t m)) spans = true ->
    fold_left (extract_step t) (combine (seq k (length spans)) spans) st
    = {| xs_tag_infos :=
           xs_tag_infos st
             ++ map (fun im => tag_entry (fst im) (group0 t (snd im)))
                    (combine (seq k (length spans)) spans);
         xs_extracted_contents :=
           xs_extracted_contents st
             ++ map (fun m => tag_core (group0 t m)) spans;
         xs_separators :=
           xs_separators st ++ separators_from t (xs_last_end st) spans;
         xs_last_end := last_end_of (xs_last_end st) spans |}.
Proof.
  induction spans as [|m spans IH]; intros k st H.
  - destruct st. simpl. now rewrite !app_nil_r.
  - cbn [forallb] in H. apply andb_prop in H as [Hm H].
    cbn [length seq combine fold_left]. rewrite (IH _ _ H). clear IH.
    unfold last_end_of. cbn [map fst snd separators_from fold_left].
    unfold extract_step, tag_entry, tag_core, recognized in *.
    cbn [fst snd].
    destruct (RE_COLON_TAG_match (group0 t m)) as [[[g1 g2] g3]|].
    + cbn. now rewrite <- !app_assoc.
    + destruct (RE_SIMPLE_TAG_match (group0 t m)); [|discriminate].
      cbn. now rewrite <- !app_assoc.
Qed.

Lemma separators_shift (t : str) (rest : list (nat * nat)) :
  forall m last_end,
    separators_from t last_end (m :: rest)
      ++ [skipn (last_end_of last_end (m :: rest)) t]
    = slice last_end (fst m) t :: separators_after t (m :: rest).
Proof.
  induction rest as [|m' rest IH]; intros m last_end; [reflexivity|].
  specialize (IH m' (snd m)).
  unfold last_end_of in *. cbn [separators_from fold_left app] in *.
  rewrite IH. reflexivity.
Qed.

Lemma tag_core_In (x : char) (full_tag : str) :
  endswith [LF] full_tag = false -> In x (tag_core full_tag) -> In x full_tag.
Proof.
  unfold tag_core. intros Hlf.
  destruct (RE_COLON_TAG_match full_tag) as [[[g1 g2] g3]|] eqn:E; [|intros []].
  intros H. apply strip_In in H.
  rewrite <- (RE_COLON_TAG_match_groups _ _ _ _ E Hlf).
  apply in_or_app. right. apply in_or_app. now left.
Qed.

Lemma forallb_not_In (c : char) (s : str) :
  forallb (fun x => negb (x =? c)%N) s = true -> ~ In c s.
Proof.
  intros H Hin. rewrite forallb_forall in H. specialize (H _ Hin).
  now rewrite N.eqb_refl in H.
Qed.

Section RestoreTags.

Variables (t : str) (translated_parts separators : list str).
Variable step : str -> nat * TagEntry -> str.

Hypothesis Hstep :
  forall result i e,
    step result (i, e)
    = result
        ++ match te_tag_type e with
           | colon_tag =>
             match nth_error translated_parts i with
             | Some translated_part =>
               te_tag_prefix e ++ te_content_leading_whitespace e
                 ++ translated_part ++ te_content_trailing_whitespace e
                 ++ te_tag_suffix e
             | None => te_tag_prefix e ++ te_tag_suffix e
             end
           | simple_tag => te_full_tag e
           end
        ++ match nth_error separators (i + 1) with
           | Some sep => sep
           | None => []
           end.

Lemma restored_tag_whole (i : nat) (full_tag : str) :
  restorable_tag full_tag = true ->
  match te_tag_type (tag_entry i full_tag) with
  | colon_tag =>
    te_tag_prefix (tag_entry i full_tag)
      ++ te_content_leading_whitespace (tag_entry i full_tag)
      ++ tag_core full_tag
      ++ te_content_trailing_whitespace (tag_entry i full_tag)
      ++ te_tag_suffix (tag_entry i full_tag)
  | simple_tag => te_full_tag (tag_entry i full_tag)
  end = full_tag.
Proof.
  unfold restorable_tag, tag_entry, tag_core. intros H.
  apply andb_prop in H as [H Hc]. apply andb_prop in H as [_ Hlf].
  apply forallb_not_In, endswith_not_In in Hlf.
  destruct (RE_COLON_TAG_match full_tag) as [[[g1 g2] g3]|] eqn:E;
    [|reflexivity].
  cbn [te_tag_type te_tag_prefix te_content_leading_whitespace
       te_content_trailing_whitespace te_tag_suffix].
  transitivity (g1 ++ g2 ++ g3);
    [|exact (RE_COLON_TAG_match_groups _ _ _ _ E Hlf)].
  f_equal. rewrite !app_assoc. f_equal. rewrite <- !app_assoc.
  apply strip_parts_content.
  apply orb_prop in Hc as [Hc|Hc].
  - apply is_empty_true in Hc. subst g2. now right.
  - left. apply is_empty_false. now destruct (is_empty (strip g2)).
Qed.

Lemma restore_tags_fold (spans : list (nat * nat)) :
  forall k result,
    forallb (fun m => restorable_tag (group0 t m)) spans = true ->
    (forall j m, nth_error spans j = Some m ->
                 nth_error translated_parts (k + j)
                 = Some (tag_core (group0 t m))) ->
    (forall j, j < length spans ->
               nth_error separators (k + j + 1)
               = nth_error (separators_after t spans) j) ->
    fold_left step
      (combine (seq k (length spans))
               (map (fun im => tag_entry (fst im) (group0 t (snd im)))
                    (combine (seq k (length spans)) spans)))
      result
    = result
        ++ concat (map (fun p => fst p ++ snd p)
                       (combine (map (group0 t) spans)
                                (separators_after t spans))).
Proof.
  induction spans as [|m spans IH]; intros k result H Hparts Hseps.
  - simpl. now rewrite app_nil_r.
  - cbn [forallb] in H. apply andb_prop in H as [Hm H].
    cbn [length seq combine map fold_left fst snd].
    rewrite Hstep.
    specialize (Hparts 0 m eq_refl) as Hp0. rewrite Nat.add_0_r in Hp0.
    rewrite Hp0.
    pose proof (restored_tag_whole k _ Hm) as Htag.
    specialize (Hseps 0 ltac:(simpl; lia)) as Hs0.
    rewrite Nat.add_0_r in Hs0. rewrite Hs0.
    cbn [separators_after nth_error concat combine map fst snd].
    rewrite IH.
    + rewrite <- !app_assoc. f_equal.
      destruct (te_tag_type (tag_entry k (group0 t m)));
        rewrite Htag; reflexivity.
    + exact H.
    + intros j m' Hj. specialize (Hparts (S j) m' Hj).
      now replace (S k + j) with (k + S j) by lia.
    + intros j Hj. specialize (Hseps (S j) ltac:(simpl; lia)).
      now replace (S k + j + 1) with (k + S j + 1) by lia.
Qed.

End RestoreTags.

(** The tags and the text around them, in order, make up the text. *)
Lemma weave_tags (t : str) (spans : list (nat * nat)) :
  forall last_end m,
    spans_ok last_end (m :: spans) ->
    slice last_end (fst m) t
      ++ concat (map (fun p => fst p ++ snd p)
                     (combine (map (group0 t) (m :: spans))
                              (separators_after t (m :: spans))))
    = skipn last_end t.
Proof.
  induction spans as [|m' spans IH]; intros last_end m (H1 & H2 & H3).
  - cbn [map combine concat separators_after fst snd]. rewrite app_nil_r.
    unfold group0. rewrite (slice_skipn _ _ _ H2). now apply slice_skipn.
  - specialize (IH (snd m) m' H3).
    cbn [map combine concat separators_after fst snd] in *.
    rewrite <- app_assoc, IH.
    unfold group0. rewrite (slice_skipn _ _ _ H2). now apply slice_skipn.
Qed.

Lemma single_tag_content_info (text r : str) (info : TagInfo) :
  _process_single_tag_content text = (r, Some info) ->
  exists t, info = single_tag_info t.
Proof.
  unfold _process_single_tag_content.
  destruct (negb _); [discriminate|].
  destruct (RE_COLON_TAG_match _) as [[[g1 g2] g3]|].
  - intros H. injection H as _ <-. eauto.
  - destruct (RE_SIMPLE_TAG_match _); [|discriminate].
    intros H. injection H as _ <-. eauto.
Qed.

Lemma forallb_impl {A} (f g : A -> bool) (l : list A) :
  (forall x, f x = true -> g x = true) ->
  forallb f l = true -> forallb g l = true.
Proof.
  intros Hfg. induction l as [|x l IH]; simpl; [trivial|].
  intros H. apply andb_prop in H as [H1 H2]. now rewrite (Hfg _ H1), IH.
Qed.

(** X11. A text of several tags: when every tag is a colon tag or a
    simple tag, lies on one line and has a content that is empty or not
    blank, restoring the payload as it is gives the text without its
    comments, the white space between the tags included. *)
Theorem multi_tag_general_round_trip (text payload : str)
        (tag_infos : list TagEntry) (separators : list str) (tag_count : nat) :
  _process_tag_content text
  = (payload, Some (multiple_tags_info tag_infos separators tag_count)) ->
  forallb restorable_tag (tags_of text) = true ->
  _restore_tag_content payload
    (Some (multiple_tags_info tag_infos separators tag_count))
  = _remove_comments text.
Proof.
  unfold _process_tag_content.
  destruct (_process_multiple_tags_only text) as [r1 [i1|]] eqn:Em.
  2: { destruct (_process_single_tag_content text) as [r2 [i2|]] eqn:Es;
         [|discriminate].
       apply single_tag_content_info in Es as [t0 ->]. discriminate. }
  intros H. injection H as -> ->. intros Htags.
  unfold _process_multiple_tags_only in Em. unfold tags_of in Htags.
  cbv zeta in Htags, Em.
  set (t := _remove_comments text) in *.
  set (matches := RE_MULTI_TAG_finditer t) in *.
  pose proof (RE_MULTI_TAG_finditer_ok t) as Hok. fold matches in Hok.
  destruct (length matches <? 2) eqn:Elen; [discriminate|].
  destruct (negb _); [discriminate|].
  destruct (strip _); [|discriminate].
  rewrite forallb_map_compose in Htags.
  assert (Hrec : forallb (fun m => recognized (group0 t m)) matches = true).
  { revert Htags. apply forallb_impl. intros m Hm. unfold restorable_tag in Hm.
    apply andb_prop in Hm as [Hm _]. now apply andb_prop in Hm as [Hm _]. }
  unfold enumerate in Em. rewrite (extract_fold t matches 0 _ Hrec) in Em.
  cbn [xs_tag_infos xs_extracted_contents xs_separators xs_last_end app] in Em.
  injection Em as <- <- <- <-.
  destruct matches as [|m rest] eqn:Ematches; [discriminate|].
  rewrite separators_shift.
  cbn [_restore_tag_content]. unfold _restore_multiple_tags.
  set (parts := map (fun m0 => tag_core (group0 t m0)) (m :: rest)).
  assert (Hsplit : split TAG_SEPARATOR (join TAG_SEPARATOR parts) = parts).
  { assert (Hsep : exists sep', TAG_SEPARATOR = LF :: sep')
      by (eexists; vm_compute; reflexivity).
    destruct Hsep as [sep' ->].
    apply split_join; [discriminate|].
    subst parts. apply Forall_forall. intros p Hp.
    apply in_map_iff in Hp as (m0 & <- & Hm0).
    rewrite forallb_forall in Htags. specialize (Htags _ Hm0).
    unfold restorable_tag in Htags.
    apply andb_prop in Htags as [Htags _].
    apply andb_prop in Htags as [_ Hlf]. apply forallb_not_In in Hlf.
    intros Hin. apply Hlf. apply tag_core_In; [|exact Hin].
    now apply endswith_not_In. }
  rewrite Hsplit.
  assert (Hn : length parts
               = length (map (fun im => tag_entry (fst im) (group0 t (snd im)))
                             (combine (seq 0 (length (m :: rest))) (m :: rest)))).
  { subst parts. rewrite !length_map, length_combine, length_seq.
    now rewrite Nat.min_id. }
  rewrite <- Hn, Nat.eqb_refl. unfold enumerate. rewrite <- Hn.
  replace (length parts) with (length (m :: rest))
    by (subst parts; now rewrite length_map).
  match goal with
  | |- fold_left ?f _ _ = _ =>
    rewrite (restore_tags_fold t parts
               (slice 0 (fst m) t :: separators_after t (m :: rest))
               f (fun _ _ _ => eq_refl) (m :: rest) 0 _ Htags)
  end.
  - rewrite (weave_tags t rest 0 m Hok). reflexivity.
  - intros j m0 Hj. cbn [Nat.add]. subst parts.
    now rewrite nth_error_map, Hj.
  - intros j _. replace (0 + j + 1) with (S j) by lia. reflexivity.
Qed.

Lemma multi_tag_general_round_trip_witness :
  let tag_infos :=
    [{| te_index := 0; te_tag_type := colon_tag;
        te_tag_prefix := u "<a:"; te_tag_suffix := u ">"; te_full_tag := [];
        te_content_leading_whitespace := u " ";
        te_content_trailing_whitespace := u " " |};
     {| te_index := 1; te_tag_type := simple_tag;
        te_tag_prefix := []; te_tag_suffix := []; te_full_tag := u "<b>";
        te_content_leading_whitespace := [];
        te_content_trailing_whitespace := [] |}] in
  let separators := [[]; u "\n"; []] in
  _process_tag_content (u "<a: x >\n<b>")
  = (u "x\n===TAG_SEPARATOR===\n",
     Some (multiple_tags_info tag_infos separators 2))
  /\ forallb restorable_tag (tags_of (u "<a: x >\n<b>")) = true
  /\ _restore_tag_content (u "x\n===TAG_SEPARATOR===\n")
       (Some (multiple_tags_info tag_infos separators 2))
     = u "<a: x >\n<b>".
Proof.
  intros tag_infos separators.
  assert (H : _process_tag_content (u "<a: x >\n<b>")
              = (u "x\n===TAG_SEPARATOR===\n",
                 Some (multiple_tags_info tag_infos separators 2)))
    by (vm_compute; reflexivity).
  assert (Ht : forallb restorable_tag (tags_of (u "<a: x >\n<b>")) = true)
    by (vm_compute; reflexivity).
  pose proof (multi_tag_general_round_trip (u "<a: x >\n<b>")
                (u "x\n===TAG_SEPARATOR===\n") tag_infos separators 2
                H Ht) as R.
  split; [exact H|]. split; [exact Ht|]. rewrite R. vm_compute. reflexivity.
Defined.

(** ** The affix codec on a batch *)

Lemma process_affixes_entry_spec (fuel : nat) (pp sp : list Pattern)
      (text core : str) (pre : list PrefixCode) (suf : list SuffixCode) :
  process_affixes_entry fuel pp sp text = Some (core, pre, suf) ->
  prefix_str pre ++ core ++ suffix_str suf = text.
Proof.
  unfold process_affixes_entry.
  destruct (strip_affixes fuel pp sp text) as [[[c0 p0] s0]|] eqn:E;
    [|discriminate].
  apply strip_affixes_spec in E as (E & _ & _).
  unfold repair_affixes. intros H. injection H as H.
  assert (Hdone : forall core' pre' suf',
             prefix_str pre' ++ core' ++ suffix_str suf'
             = prefix_str p0 ++ c0 ++ suffix_str s0 ->
             (core', pre', suf') = (core, pre, suf) ->
             prefix_str pre ++ core ++ suffix_str suf = text).
  { intros ? ? ? Hcat Heq. injection Heq as <- <- <-. rewrite Hcat. exact E. }
  destruct (is_empty (strip c0)); [|exact (Hdone _ _ _ eq_refl H)].
  destruct p0 as [|a p0], s0 as [|b s0];
    try destruct (_ <? _);
    apply (fun Hcat => Hdone _ _ _ Hcat H);
    change (prefix_str []) with (@nil char);
    change (suffix_str []) with (@nil char);
    cbn [app]; rewrite ?app_nil_r, <- ?app_assoc; reflexivity.
Qed.

(** What the loop over the batch leaves in the three dictionaries. *)
Lemma process_affixes_loop_spec (fuel : nat) (pp sp : list Pattern)
      (items : list (str * str)) :
  forall d p s r,
    NoDup (keys d ++ keys items) ->
    keys p = keys d -> keys s = keys d ->
    process_affixes_loop fuel pp sp items (d, p, s) = Some r ->
    exists entries,
      map fst entries = keys items
      /\ Forall2 (fun kv e =>
                    fst e = fst kv
                    /\ process_affixes_entry fuel pp sp (snd kv) = Some (snd e))
                 items entries
      /\ r = (d ++ map (fun e => (fst e, fst (fst (snd e)))) entries,
              p ++ map (fun e => (fst e, snd (fst (snd e)))) entries,
              s ++ map (fun e => (fst e, snd (snd e))) entries).
Proof.
  induction items as [|[key text_val] items IH]; intros d p s r Hnd Hp Hs H.
  - injection H as <-. exists []. simpl. rewrite !app_nil_r. auto.
  - cbn [process_affixes_loop] in H.
    destruct (process_affixes_entry fuel pp sp text_val)
      as [[[core pre] suf]|] eqn:E; [|discriminate].
    assert (Hk : ~ In key (keys d)).
    { cbn [keys map fst] in Hnd. apply NoDup_remove_2 in Hnd.
      intros Hin. apply Hnd. apply in_or_app. now left. }
    rewrite (dict_set_fresh d) in H by exact Hk.
    rewrite (dict_set_fresh p) in H by now rewrite Hp.
    rewrite (dict_set_fresh s) in H by now rewrite Hs.
    apply IH in H as (entries & Hkeys & Hall & ->).
    + exists ((key, (core, pre, suf)) :: entries).
      cbn [map fst snd keys]. rewrite Hkeys, <- !app_assoc.
      split; [reflexivity|]. split; [|reflexivity].
      constructor; [split; [reflexivity | exact E] | exact Hall].
    + rewrite keys_app. cbn [keys map fst] in *.
      rewrite <- app_assoc. exact Hnd.
    + now rewrite !keys_app, Hp.
    + now rewrite !keys_app, Hs.
Qed.

(** X12. The affix codec on a batch of distinct keys: whenever
    [_process_affixes] returns, restoring its output with the prefix
    and suffix records it made gives back every text of the batch, and
    the three dictionaries it returns have the keys of the batch in the
    order of the batch. *)
Theorem affix_codec_round_trip (fuel : nat) (text_dict : dict str)
        (compiled_prefix_patterns compiled_suffix_patterns : list Pattern) :
  distinct (keys text_dict) = true ->
  match _process_affixes fuel text_dict compiled_prefix_patterns
                         compiled_suffix_patterns with
  | Some (processed, prefix_codes, suffix_codes) =>
    _restore_affixes processed prefix_codes suffix_codes = text_dict
    /\ keys processed = keys text_dict
    /\ keys prefix_codes = keys text_dict
    /\ keys suffix_codes = keys text_dict
  | None => True
  end.
Proof.
  intros Hd. apply distinct_NoDup in Hd.
  unfold _process_affixes.
  destruct (process_affixes_loop _ _ _ _ _) as [r|] eqn:E; [|trivial].
  apply process_affixes_loop_spec in E
    as (entries & Hkeys & Hall & ->); [|exact Hd | reflexivity | reflexivity].
  cbn [app].
  assert (Hk : forall A (g : _ -> A),
             keys (map (fun e => (fst e, g e)) entries) = keys text_dict).
  { intros A g. unfold keys at 1. rewrite map_map. exact Hkeys. }
  split; [|split; [|split]];
    try exact (Hk _ (fun e => fst (fst (snd e))));
    try exact (Hk _ (fun e => snd (fst (snd e))));
    try exact (Hk _ (fun e => snd (snd e))).
  assert (Hnd : NoDup (keys entries)) by (unfold keys; now rewrite Hkeys).
  unfold _restore_affixes. rewrite for_items_map by now rewrite Hk.
  rewrite map_map. cbn [fst snd].
  rewrite (map_ext_in _
             (fun e => (fst e,
                        prefix_str (snd (fst (snd e)))
                          ++ fst (fst (snd e)) ++ suffix_str (snd (snd e))))).
  - clear Hkeys Hk Hnd Hd. induction Hall as [|kv e items entries [Hf He] _ IH];
      [reflexivity|].
    cbn [map]. rewrite IH. f_equal.
    destruct e as [k [[core pre] suf]], kv as [k' text]. cbn [fst snd] in *.
    subst k'. now rewrite (process_affixes_entry_spec _ _ _ _ _ _ _ He).
  - intros [k [[core pre] suf]] Hin. cbn [fst snd]. unfold dict_get_default.
    rewrite (dict_get_map (fun e => snd (fst (snd e))) entries k _ Hnd Hin).
    rewrite (dict_get_map (fun e => snd (snd e)) entries k _ Hnd Hin).
    reflexivity.
Qed.

Lemma affix_codec_round_trip_witness :
  let text_dict := [(u "k1", u "@ @# "); (u "k2", u "@hello#")] in
  distinct (keys text_dict) = true
  /\ exists processed prefix_codes suffix_codes,
      _process_affixes 10 text_dict [marker_pattern (u "@")]
                       [marker_pattern (u "#")]
      = Some (processed, prefix_codes, suffix_codes)
      /\ processed = [(u "k1", u "# "); (u "k2", u "hello")]
      /\ _restore_affixes processed prefix_codes suffix_codes = text_dict.
Proof.
  intros text_dict. split; [reflexivity|].
  pose proof (affix_codec_round_trip 10 text_dict [marker_pattern (u "@")]
                [marker_pattern (u "#")] eq_refl) as H.
  destruct (_process_affixes 10 text_dict [marker_pattern (u "@")]
                             [marker_pattern (u "#")])
    as [[[processed prefix_codes] suffix_codes]|] eqn:E.
  - exists processed, prefix_codes, suffix_codes.
    split; [reflexivity|]. split; [|exact (proj1 H)].
    vm_compute in E. now injection E as <- _ _.
  - vm_compute in E. discriminate.
Defined.

(** X13. The stripping loops end for every text shorter than the fuel
    when every match of a prefix pattern at the start, and every match
    of a suffix pattern at the end, consumes at least one character:
    [_process_affixes] then returns. *)
Theorem process_affixes_returns (fuel : nat) (text_dict : dict str)
        (compiled_prefix_patterns compiled_suffix_patterns : list Pattern) :
  Forall prefix_progress compiled_prefix_patterns ->
  Forall suffix_progress compiled_suffix_patterns ->
  forallb (fun kv => length (snd kv) <? fuel) text_dict = true ->
  exists r,
    _process_affixes fuel text_dict compiled_prefix_patterns
                     compiled_suffix_patterns = Some r.
Proof.
  intros Hp Hs Hlen. unfold _process_affixes.
  generalize (@nil (str * str), @nil (str * list PrefixCode),
              @nil (str * list SuffixCode)).
  induction text_dict as [|[key text_val] items IH]; intros acc; [simpl; eauto|].
  cbn [forallb snd] in Hlen. apply andb_prop in Hlen as [Hl Hlen].
  apply Nat.ltb_lt in Hl. cbn [process_affixes_loop].
  assert (He : exists r, process_affixes_entry fuel compiled_prefix_patterns
                           compiled_suffix_patterns text_val = Some r).
  { unfold process_affixes_entry, strip_affixes.
    destruct (strip_prefixes_total fuel _ Hp text_val [] Hl) as [[t ps] E].
    rewrite E.
    assert (Ht : length t < fuel).
    { apply strip_prefixes_spec in E as (new & _ & Hcat & _).
      apply (f_equal (@length char)) in Hcat. rewrite length_app in Hcat. lia. }
    destruct (strip_suffixes_total fuel _ Hs t [] Ht) as [[t' ss] ->]. eauto. }
  destruct He as [[[core pre] suf] ->]. destruct acc as [[d p] s]. apply IH.
  exact Hlen.
Qed.

(** The marker patterns make progress. *)
Lemma marker_prefix_progress (c : char) (marker : str) :
  prefix_progress (marker_pattern (c :: marker)).
Proof.
  intros t e. cbn [p_match marker_pattern]. unfold marker_match_at.
  destruct (span isspace_char t) as [ws1 r1] eqn:Es.
  apply span_spec in Es as (-> & _ & _).
  destruct (startswith (c :: marker) r1) eqn:E; [|discriminate].
  destruct (span isspace_char (skipn (length (c :: marker)) r1)) as [ws2 r2].
  intros H. injection H as <-.
  destruct r1 as [|x r1]; [discriminate|].
  destruct ws1 as [|w ws1]; cbn; discriminate.
Qed.

Lemma marker_scan_spans (marker : str) (fuel : nat) :
  forall pos s,
    Forall (fun m => fst m < snd m) (marker_scan fuel marker pos s).
Proof.
  induction fuel as [|f IH]; intros pos s; [constructor|].
  cbn [marker_scan].
  destruct (marker_match_at marker s) as [[|n]|].
  - destruct s; [constructor | apply IH].
  - constructor; [simpl; lia | apply IH].
  - destruct s; [constructor | apply IH].
Qed.

Lemma best_suffix_match_In (p : Pattern) (text : str) (m : nat * nat) :
  best_suffix_match p text = Some m -> In m (p_finditer p text).
Proof.
  unfold best_suffix_match.
  assert (H : forall l b,
             fold_left (fun best m0 => if snd m0 =? length text
                                       then Some m0 else best) l b = Some m ->
             b = Some m \/ In m l).
  { induction l as [|x l IH]; intros b Hb; [now left|].
    cbn [fold_left] in Hb. apply IH in Hb as [Hb|Hb]; [|right; now right].
    destruct (snd x =? length text); [|now left].
    injection Hb as <-. right. now left. }
  intros Hm. apply H in Hm as [Hm|Hm]; [discriminate | exact Hm].
Qed.

Lemma marker_suffix_progress (marker : str) :
  suffix_progress (marker_pattern marker).
Proof.
  intros t m Hm.
  pose proof (best_suffix_match_end _ _ _ Hm) as Hend.
  apply best_suffix_match_In in Hm. cbn [p_finditer marker_pattern] in Hm.
  pose proof (marker_scan_spans marker (S (length t)) 0 t) as Hs.
  rewrite Forall_forall in Hs. specialize (Hs _ Hm).
  unfold group0, slice. intros E.
  apply (f_equal (@length char)) in E.
  rewrite length_firstn, length_skipn in E. simpl in E. lia.
Qed.

Lemma process_affixes_returns_witness :
  let text_dict := [(u "k1", u "@ @# "); (u "k2", u "@hello#")] in
  Forall prefix_progress [marker_pattern (u "@")]
  /\ Forall suffix_progress [marker_pattern (u "#")]
  /\ forallb (fun kv => length (snd kv) <? 8) text_dict = true
  /\ exists r,
      _process_affixes 8 text_dict [marker_pattern (u "@")]
                       [marker_pattern (u "#")] = Some r.
Proof.
  intros text_dict.
  assert (Hp : Forall prefix_progress [marker_pattern (u "@")]).
  { constructor; [|constructor]. exact (marker_prefix_progress 64%N []). }
  assert (Hs : Forall suffix_progress [marker_pattern (u "#")]).
  { constructor; [|constructor]. apply marker_suffix_progress. }
  split; [exact Hp|]. split; [exact Hs|]. split; [reflexivity|].
  exact (process_affixes_returns 8 text_dict _ _ Hp Hs eq_refl).
Defined.

(** X14. A match that consumes nothing keeps a stripping loop running
    for ever: when the first prefix pattern matches the empty string at
    the start of the first text, or (with no prefix pattern) the first
    suffix pattern matches the empty string at its end, every round
    leaves the text as it is and [_process_affixes] does not return,
    whatever the fuel.  The pattern made of optional white space alone
    does so on any text that starts with another character. *)
Theorem empty_match_never_returns :
  (forall (p : Pattern) (later sp : list Pattern) (key text : str)
          (rest : dict str) (e fuel : nat),
      p_match p text = Some e -> firstn e text = [] ->
      _process_affixes fuel ((key, text) :: rest) (p :: later) sp = None)
  /\ (forall (p : Pattern) (later : list Pattern) (key text : str)
             (rest : dict str) (m : nat * nat) (fuel : nat),
         best_suffix_match p text = Some m -> group0 text m = [] ->
         _process_affixes fuel ((key, text) :: rest) [] (p :: later) = None)
  /\ (forall fuel,
         p_match (marker_pattern []) (u "abc") = Some 0
         /\ _process_affixes fuel [(u "k", u "abc")] [marker_pattern []] []
            = None).
Proof.
  assert (H1 : forall (p : Pattern) (later sp : list Pattern) (key text : str)
                      (rest : dict str) (e fuel : nat),
             p_match p text = Some e -> firstn e text = [] ->
             _process_affixes fuel ((key, text) :: rest) (p :: later) sp = None).
  { intros p later sp key text rest e fuel Hm He.
    unfold _process_affixes. cbn [process_affixes_loop].
    unfold process_affixes_entry, strip_affixes. cbn [strip_prefixes].
    now rewrite (strip_prefix_loop_stuck p text e Hm He). }
  split; [exact H1 | split].
  - intros p later key text rest m fuel Hm He.
    unfold _process_affixes. cbn [process_affixes_loop].
    unfold process_affixes_entry, strip_affixes. cbn [strip_prefixes strip_suffixes].
    now rewrite (strip_suffix_loop_stuck p text m Hm He).
  - intros fuel. split; [reflexivity|].
    apply (H1 _ _ _ _ _ _ 0); reflexivity.
Qed.

(** ** Placeholder tokens *)

Lemma map_seq_shift {A} (f : nat -> A) (a : nat) (n : nat) :
  forall b, map f (seq (a + b) n) = map (fun i => f (a + i)) (seq b n).
Proof.
  induction n as [|n IH]; intros b; [reflexivity|].
  cbn [seq map]. f_equal. rewrite <- IH. f_equal. f_equal. lia.
Qed.

Section Names.

Variable target_platform : str.

(** The token for the match that makes the global counter [g] and the
    counter of the entry [s]. *)
Let name (g s : nat) : str :=
  if str_eqb target_platform (u "sakura")
  then concat (repeat (u "↓") s)
  else u "[P" ++ str_of_nat g ++ u "]".

Let names (g s k : nat) : list str :=
  map (fun i => name (g + i) (s + i)) (seq 1 k).

Lemma names_app (g s k1 k2 : nat) :
  names g s (k1 + k2) = names g s k1 ++ names (g + k1) (s + k1) k2.
Proof.
  unfold names. rewrite seq_app, map_app. f_equal.
  replace (1 + k1) with (k1 + 1) by lia. rewrite map_seq_shift.
  apply map_ext. intros i. f_equal; lia.
Qed.

Lemma replacer_names (pattern_obj : Pattern) (st : MaskState) (g0 : str) :
  let st' := snd (replacer_for_this_pattern target_platform pattern_obj st g0) in
  exists k,
    global_match_count st' = global_match_count st + k
    /\ sakura_match_count st' = sakura_match_count st + k
    /\ map ph_placeholder (single_pattern_replacements st')
       = map ph_placeholder (single_pattern_replacements st)
           ++ names (global_match_count st) (sakura_match_count st) k.
Proof.
  unfold replacer_for_this_pattern.
  destruct (50 <=? global_match_count st).
  - exists 0. cbn. rewrite app_nil_r. auto.
  - exists 1. cbn [snd global_match_count sakura_match_count
                   single_pattern_replacements].
    split; [reflexivity|]. split; [reflexivity|].
    rewrite map_app. reflexivity.
Qed.

Lemma sub_loop_names (pattern_obj : Pattern) (text : str)
      (spans : list (nat * nat)) :
  forall pos out st,
    let st' := snd (sub_loop (replacer_for_this_pattern target_platform
                                                        pattern_obj)
                             text spans pos out st) in
    exists k,
      global_match_count st' = global_match_count st + k
      /\ sakura_match_count st' = sakura_match_count st + k
      /\ map ph_placeholder (single_pattern_replacements st')
         = map ph_placeholder (single_pattern_replacements st)
             ++ names (global_match_count st) (sakura_match_count st) k.
Proof.
  induction spans as [|m spans IH]; intros pos out st; cbn [sub_loop].
  - exists 0. cbn. rewrite app_nil_r. auto.
  - pose proof (replacer_names pattern_obj st (group0 text m)) as H1.
    destruct (replacer_for_this_pattern target_platform pattern_obj st
                                        (group0 text m)) as [r st1].
    cbn [snd] in H1. destruct H1 as (k1 & Hg1 & Hs1 & Hn1).
    specialize (IH (snd m) (out ++ slice pos (fst m) text ++ r) st1).
    cbv zeta in IH. destruct IH as (k2 & Hg2 & Hs2 & Hn2).
    exists (k1 + k2). rewrite Hg2, Hs2, Hn2, Hn1, Hg1, Hs1, names_app.
    rewrite <- app_assoc. repeat split; lia.
Qed.

Lemma mask_patterns_names (patterns : list Pattern) :
  forall current_text entry global sakura,
    let '(t, entry', global') :=
      mask_patterns target_platform patterns current_text entry global sakura in
    exists k,
      global' = global + k
      /\ map ph_placeholder entry'
         = map ph_placeholder entry ++ names global sakura k.
Proof.
  induction patterns as [|p patterns IH]; intros t entry g s; cbn [mask_patterns].
  - exists 0. cbn. rewrite app_nil_r. auto.
  - unfold sub_callable.
    pose proof (sub_loop_names p t (p_finditer p t) 0 []
                  {| global_match_count := g; sakura_match_count := s;
                     single_pattern_replacements := [] |}) as H1.
    destruct (sub_loop _ t (p_finditer p t) 0 [] _) as [t1 st1].
    cbn [snd global_match_count sakura_match_count
         single_pattern_replacements map app] in H1.
    destruct H1 as (k1 & Hg1 & Hs1 & Hn1).
    destruct (50 <=? global_match_count st1).
    + exists k1. rewrite map_app, Hn1. auto.
    + specialize (IH t1 (entry ++ single_pattern_replacements st1)
                     (global_match_count st1) (sakura_match_count st1)).
      destruct (mask_patterns _ _ _ _ _ _) as [[t2 e2] g2].
      destruct IH as (k2 & Hg2 & Hn2).
      exists (k1 + k2). rewrite Hg2, Hn2, map_app, Hn1, Hg1, Hs1, names_app.
      rewrite <- app_assoc. split; [lia | reflexivity].
Qed.

End Names.

Lemma mask_entries_numbered (target_platform : str) (patterns : list Pattern)
      (items : list (str * str)) :
  str_eqb target_platform (u "sakura") = false ->
  forall new_dict placeholder_order global,
    NoDup (keys placeholder_order ++ keys items) ->
    let '(new_dict', placeholder_order', global') :=
      mask_entries target_platform patterns items
                   (new_dict, placeholder_order, global) in
    exists entries k,
      placeholder_order' = placeholder_order ++ entries
      /\ keys entries = keys items
      /\ global' = global + k
      /\ map ph_placeholder (concat (map snd entries))
         = map (fun n => u "[P" ++ str_of_nat n ++ u "]") (seq (S global) k).
Proof.
  intros Htp. unfold mask_entries.
  induction items as [|[key text] items IH]; intros nd po g Hnd.
  - exists [], 0. cbn. rewrite app_nil_r. auto.
  - cbn [fold_left mask_entry fst snd].
    pose proof (mask_patterns_names target_platform patterns text [] g 0) as H1.
    destruct (mask_patterns target_platform patterns text [] g 0)
      as [[t1 e1] g1].
    destruct H1 as (k1 & Hg1 & Hn1). rewrite Htp in Hn1. cbn [map app] in Hn1.
    assert (Hk : ~ In key (keys po)).
    { cbn [keys map fst] in Hnd. apply NoDup_remove_2 in Hnd.
      intros Hin. apply Hnd. apply in_or_app. now left. }
    rewrite (dict_set_fresh po) by exact Hk.
    specialize (IH (dict_set nd key t1) (po ++ [(key, e1)]) g1).
    destruct (fold_left _ items _) as [[nd' po'] g'].
    destruct IH as (entries & k2 & -> & Hkeys & -> & Hn2).
    { rewrite keys_app. cbn [keys map fst] in *.
      rewrite <- app_assoc. exact Hnd. }
    exists ((key, e1) :: entries), (k1 + k2).
    split; [now rewrite <- app_assoc|].
    split; [unfold keys in *; cbn [map fst]; now rewrite Hkeys|].
    split; [lia|].
    cbn [map snd concat]. rewrite map_app, Hn2, Hn1, Hg1.
    rewrite seq_app, map_app. f_equal.
    replace (S g) with (g + 1) by lia. now rewrite map_seq_shift.
Qed.

(** X15. Outside the sakura mode the placeholder tokens of a batch are
    numbered by one counter for the whole batch: listed entry by entry,
    in the order of the batch, the recorded tokens are [P1], [P2], ...
    up to the number of substitutions made; no token is used twice and
    the numbering does not start again with an entry. *)
Theorem placeholder_tokens_numbered (target_platform : str)
        (text_dict : dict str) (patterns : list Pattern) :
  str_eqb target_platform (u "sakura") = false ->
  distinct (keys text_dict) = true ->
  let '(new_dict, placeholder_order, count) :=
    replace_special_placeholders_run target_platform text_dict patterns in
  keys placeholder_order = keys text_dict
  /\ map ph_placeholder (concat (map snd placeholder_order))
     = map (fun n => u "[P" ++ str_of_nat n ++ u "]") (seq 1 count).
Proof.
  intros Htp Hd. apply distinct_NoDup in Hd.
  unfold replace_special_placeholders_run.
  pose proof (mask_entries_numbered target_platform patterns text_dict Htp
                [] [] 0 Hd) as H.
  destruct (mask_entries _ _ _ _) as [[nd po] g].
  destruct H as (entries & k & -> & Hkeys & -> & Hn).
  cbn [app Nat.add]. auto.
Qed.

Lemma placeholder_tokens_numbered_witness :
  let text_dict := [(u "k1", u "a@b@"); (u "k2", u "@c")] in
  str_eqb (u "openai") (u "sakura") = false
  /\ distinct (keys text_dict) = true
  /\ exists new_dict placeholder_order,
      replace_special_placeholders_run (u "openai") text_dict
                                       [marker_pattern (u "@")]
      = (new_dict, placeholder_order, 3)
      /\ new_dict = [(u "k1", u "a[P1]b[P2]"); (u "k2", u "[P3]c")]
      /\ map ph_placeholder (concat (map snd placeholder_order))
         = [u "[P1]"; u "[P2]"; u "[P3]"].
Proof.
  intros text_dict. split; [reflexivity|]. split; [reflexivity|].
  pose proof (placeholder_tokens_numbered (u "openai") text_dict
                [marker_pattern (u "@")] eq_refl eq_refl) as H.
  destruct (replace_special_placeholders_run (u "openai") text_dict
                                             [marker_pattern (u "@")])
    as [[new_dict placeholder_order] count] eqn:E.
  vm_compute in E. injection E as <- <- <-.
  eexists _, _. split; [reflexivity|]. split; [reflexivity|].
  exact (proj2 H).
Defined.

(** X16. In the sakura mode the counter of the tokens starts again with
    every entry and runs on from one pattern to the next: the recorded
    tokens of an entry are one arrow, two arrows, three arrows, ... in
    the order of the substitutions. *)
Theorem sakura_tokens_count_per_entry (text_dict : dict str)
        (patterns : list Pattern) :
  let '(new_dict, placeholder_order, count) :=
    replace_special_placeholders_run (u "sakura") text_dict patterns in
  Forall (fun kv =>
            map ph_placeholder (snd kv)
            = map (fun j => concat (repeat (u "↓") j))
                  (seq 1 (length (snd kv))))
         placeholder_order.
Proof.
  unfold replace_special_placeholders_run, mask_entries.
  assert (H : forall items nd po g,
             Forall (fun kv =>
                       map ph_placeholder (snd kv)
                       = map (fun j => concat (repeat (u "↓") j))
                             (seq 1 (length (snd kv)))) po ->
             let '(nd', po', g') :=
               fold_left (mask_entry (u "sakura") patterns) items (nd, po, g) in
             Forall (fun kv =>
                       map ph_placeholder (snd kv)
                       = map (fun j => concat (repeat (u "↓") j))
                             (seq 1 (length (snd kv)))) po').
  { induction items as [|[key text] items IH]; intros nd po g Hpo; [exact Hpo|].
    cbn [fold_left mask_entry fst snd].
    pose proof (mask_patterns_names (u "sakura") patterns text [] g 0) as H1.
    destruct (mask_patterns (u "sakura") patterns text [] g 0) as [[t1 e1] g1].
    destruct H1 as (k1 & Hg1 & Hn1).
    change (str_eqb (u "sakura") (u "sakura")) with true in Hn1.
    cbn [map app Nat.add] in Hn1.
    apply IH. clear IH.
    assert (He : map ph_placeholder e1
                 = map (fun j => concat (repeat (u "↓") j))
                       (seq 1 (length e1))).
    { rewrite Hn1. f_equal. f_equal.
      apply (f_equal (@length str)) in Hn1.
      now rewrite !length_map, length_seq in Hn1. }
    clear Hn1. induction po as [|[k' v'] po IHpo]; cbn [dict_set].
    - constructor; [exact He | constructor].
    - inversion Hpo; subst. destruct (str_eqb k' key).
      + constructor; assumption.
      + constructor; [assumption | now apply IHpo]. }
  apply (H text_dict [] [] 0). constructor.
Qed.

(** ** The ordinal codec on a batch *)

Lemma digital_sequence_preprocessing_text_idempotent (text : str) :
  digital_sequence_preprocessing_text (digital_sequence_preprocessing_text text)
  = digital_sequence_preprocessing_text text.
Proof.
  assert (H : digital_sequence_preprocessing_text text = text
              \/ exists t, digital_sequence_preprocessing_text text
                           = LBRACKET :: t).
  { unfold digital_sequence_preprocessing_text.
    destruct (RE_DIGITAL_SEQ_PRE_match text) as [[g1 rest]|]; eauto. }
  destruct H as [H|[t H]]; rewrite H; [exact H | reflexivity].
Qed.

Lemma digital_sequence_recovery_text_idempotent (text : str) :
  digital_sequence_recovery_text (digital_sequence_recovery_text text)
  = digital_sequence_recovery_text text.
Proof.
  assert (H : digital_sequence_recovery_text text = text
              \/ exists d t, isdecimal_char d = true
                             /\ digital_sequence_recovery_text text = d :: t).
  { unfold digital_sequence_recovery_text.
    destruct (RE_DIGITAL_SEQ_REC_match text) as [[g1 rest]|] eqn:E;
      [|now left].
    apply RE_DIGITAL_SEQ_REC_match_spec in E as (Hne & Hdec & _).
    destruct g1 as [|d ds]; [congruence|].
    cbn [forallb] in Hdec. apply andb_prop in Hdec as [Hd _].
    right. exists d, (ds ++ DOT :: rest). auto. }
  destruct H as [H|(d & t & Hd & H)]; rewrite H; [exact H|].
  unfold digital_sequence_recovery_text, RE_DIGITAL_SEQ_REC_match.
  destruct (N.eqb_spec d LBRACKET); [|reflexivity].
  subst d. discriminate.
Qed.

(** X17. The ordinal codec on a batch of distinct keys: recovery after
    protection gives the batch back when no text begins with decimal
    digits between lenticular brackets; protecting twice is protecting
    once, recovering twice is recovering once; both keep the keys and
    their order. *)
Theorem digital_sequence_on_batches (text_dict : dict str) :
  distinct (keys text_dict) = true ->
  (forallb (fun kv => negb (bracketed_ordinal (snd kv))) text_dict = true ->
   digital_sequence_recovery (digital_sequence_preprocessing text_dict)
   = text_dict)
  /\ digital_sequence_preprocessing (digital_sequence_preprocessing text_dict)
     = digital_sequence_preprocessing text_dict
  /\ digital_sequence_recovery (digital_sequence_recovery text_dict)
     = digital_sequence_recovery text_dict
  /\ keys (digital_sequence_preprocessing text_dict) = keys text_dict
  /\ keys (digital_sequence_recovery text_dict) = keys text_dict.
Proof.
  intros Hd. apply distinct_NoDup in Hd.
  unfold digital_sequence_preprocessing, digital_sequence_recovery.
  assert (Hk : forall f : str -> str, keys (map (fun kv : str * str => (fst kv, f (snd kv)))
                                   text_dict) = keys text_dict).
  { intros f. unfold keys. rewrite map_map. reflexivity. }
  assert (Hm : forall f g : str -> str,
             update_values f (update_values g text_dict)
             = map (fun kv => (fst kv, f (g (snd kv)))) text_dict).
  { intros f g. rewrite (update_values_map g) by exact Hd.
    rewrite update_values_map by now rewrite Hk.
    now rewrite map_map. }
  rewrite !Hm, !update_values_map, !Hk by exact Hd.
  repeat split.
  - intros Hb. apply map_fixes. intros [k v] Hin. cbn [fst snd].
    rewrite digital_sequence_text_roundtrip; [reflexivity|].
    pose proof (forallb_In _ _ _ Hb Hin) as H. cbn [snd] in H.
    now destruct (bracketed_ordinal v).
  - apply map_ext. intros [k v]. cbn [fst snd].
    now rewrite digital_sequence_preprocessing_text_idempotent.
  - apply map_ext. intros [k v]. cbn [fst snd].
    now rewrite digital_sequence_recovery_text_idempotent.
Qed.

Lemma digital_sequence_on_batches_witness :
  let text_dict := [(u "k1", u "1. Hello"); (u "k2", u "12.5 km"); (u "k3", [])] in
  distinct (keys text_dict) = true
  /\ forallb (fun kv => negb (bracketed_ordinal (snd kv))) text_dict = true
  /\ digital_sequence_preprocessing text_dict
     = [(u "k1", u "【1】 Hello"); (u "k2", u "【12】5 km"); (u "k3", [])]
  /\ digital_sequence_recovery (digital_sequence_preprocessing text_dict)
     = text_dict.
Proof.
  intros text_dict. split; [reflexivity|]. split; [reflexivity|].
  split; [reflexivity|].
  exact (proj1 (digital_sequence_on_batches text_dict eq_refl) eq_refl).
Defined.

(** ** Keys of a batch through the pipeline *)

Lemma keys_for_items {V W} (f : str -> V -> W) (d : dict V) :
  NoDup (keys d) -> keys (for_items f d) = keys d.
Proof.
  intros H. rewrite for_items_map by exact H.
  unfold keys. now rewrite map_map.
Qed.

Lemma keys_update_values (f : str -> str) (d : dict str) :
  NoDup (keys d) -> keys (update_values f d) = keys d.
Proof.
  intros H. rewrite update_values_map by exact H.
  unfold keys. now rewrite map_map.
Qed.

Lemma keys_dict_set_fresh {V} (d : dict V) (k : str) (v : V) :
  ~ In k (keys d) -> keys (dict_set d k v) = keys d ++ [k].
Proof. intros H. rewrite dict_set_fresh by exact H. apply keys_app. Qed.

Lemma mask_entries_keys (target_platform : str) (patterns : list Pattern)
      (items : list (str * str)) :
  forall new_dict placeholder_order global,
    NoDup (keys new_dict ++ keys items) ->
    keys placeholder_order = keys new_dict ->
    let '(new_dict', placeholder_order', global') :=
      mask_entries target_platform patterns items
                   (new_dict, placeholder_order, global) in
    keys new_dict' = keys new_dict ++ keys items
    /\ keys placeholder_order' = keys new_dict'.
Proof.
  unfold mask_entries.
  induction items as [|[key text] items IH]; intros nd po g Hnd Hpo.
  - cbn. rewrite app_nil_r. auto.
  - cbn [fold_left mask_entry fst snd].
    destruct (mask_patterns target_platform patterns text [] g 0)
      as [[t1 e1] g1].
    assert (Hk : ~ In key (keys nd)).
    { cbn [keys map fst] in Hnd. apply NoDup_remove_2 in Hnd.
      intros Hin. apply Hnd. apply in_or_app. now left. }
    assert (Hnd' : NoDup (keys (dict_set nd key t1) ++ keys items)).
    { rewrite keys_dict_set_fresh by exact Hk.
      cbn [keys map fst] in *. rewrite <- app_assoc. exact Hnd. }
    assert (Hpo' : keys (dict_set po key e1) = keys (dict_set nd key t1)).
    { rewrite (keys_dict_set_fresh po) by (rewrite Hpo; exact Hk).
      rewrite (keys_dict_set_fresh nd) by exact Hk. now rewrite Hpo. }
    specialize (IH (dict_set nd key t1) (dict_set po key e1) g1 Hnd' Hpo').
    destruct (fold_left _ items _) as [[nd' po'] g'].
    destruct IH as [H1 H2].
    rewrite keys_dict_set_fresh in H1 by exact Hk.
    split; [|exact H2]. rewrite H1, <- app_assoc. reflexivity.
Qed.

Lemma replace_special_placeholders_keys (target_platform : str)
      (text_dict : dict str) (patterns : list Pattern) :
  NoDup (keys text_dict) ->
  keys (fst (_replace_special_placeholders target_platform text_dict patterns))
  = keys text_dict
  /\ keys (snd (_replace_special_placeholders target_platform text_dict patterns))
     = keys text_dict.
Proof.
  intros Hd. unfold _replace_special_placeholders,
               replace_special_placeholders_run.
  pose proof (mask_entries_keys target_platform patterns text_dict [] [] 0
                Hd eq_refl) as H.
  destruct (mask_entries _ _ _ _) as [[nd po] g]. cbn [fst snd app] in *.
  destruct H as [H1 H2]. now rewrite H2.
Qed.

Lemma process_affixes_keys (fuel : nat) (text_dict : dict str)
      (pp sp : list Pattern) processed prefix_codes suffix_codes :
  NoDup (keys text_dict) ->
  _process_affixes fuel text_dict pp sp
  = Some (processed, prefix_codes, suffix_codes) ->
  keys processed = keys text_dict
  /\ keys prefix_codes = keys text_dict
  /\ keys suffix_codes = keys text_dict.
Proof.
  intros Hd E. unfold _process_affixes in E.
  apply process_affixes_loop_spec in E
    as (entries & Hkeys & _ & E); [|exact Hd | reflexivity | reflexivity].
  injection E as -> -> ->. cbn [app].
  unfold keys in *. rewrite !map_map. cbn [fst]. auto.
Qed.

(** X18. The keys of a batch of distinct keys go through the pipeline
    unchanged and in order: the masked batch and every record
    dictionary that [replace_all] returns have the keys of the batch
    (the affix and placeholder records are empty when code-segment
    processing is off), and so has the batch that [restore_all]
    returns, whatever records it is given. *)
Theorem batch_keys_preserved (fuel : nat) (self : TextProcessor)
        (config : Config) (source_lang : str) (text_dict : dict str) :
  distinct (keys text_dict) = true ->
  match replace_all fuel self config source_lang text_dict with
  | Some (masked, prefix_codes, suffix_codes, placeholder_order,
          affix_whitespace_storage) =>
    keys masked = keys text_dict
    /\ keys affix_whitespace_storage = keys text_dict
    /\ (if auto_process_text_code_segment config
        then keys prefix_codes = keys text_dict
             /\ keys suffix_codes = keys text_dict
             /\ keys placeholder_order = keys text_dict
        else prefix_codes = [] /\ suffix_codes = []
             /\ placeholder_order = [])
  | None => True
  end
  /\ forall prefix_codes suffix_codes placeholder_order
            affix_whitespace_storage,
      keys (restore_all self config text_dict prefix_codes suffix_codes
                        placeholder_order affix_whitespace_storage)
      = keys text_dict.
Proof.
  intros Hd. apply distinct_NoDup in Hd. split.
  - unfold replace_all.
    set (d1 := if pre_translation_switch config then _ else _).
    assert (H1 : keys d1 = keys text_dict).
    { subst d1. destruct (pre_translation_switch config); [|reflexivity].
      now apply keys_update_values. }
    assert (Hd1 : NoDup (keys d1)) by now rewrite H1.
    unfold strip_and_record_affixes.
    set (d2 := for_items _ d1). set (aws := for_items _ d1).
    assert (H2 : keys d2 = keys text_dict)
      by (subst d2; now rewrite keys_for_items).
    assert (Haws : keys aws = keys text_dict)
      by (subst aws; now rewrite keys_for_items).
    assert (Hd2 : NoDup (keys d2)) by now rewrite H2.
    destruct (auto_process_text_code_segment config).
    + destruct (_process_affixes fuel d2 _ _) as [[[d3 pc] sc]|] eqn:E3;
        [|trivial].
      apply process_affixes_keys in E3 as (H3 & Hpc & Hsc); [|exact Hd2].
      assert (Hd3 : NoDup (keys d3)) by now rewrite H3, H2.
      pose proof (replace_special_placeholders_keys
                    (target_platform config) d3
                    (auto_compiled_patterns self) Hd3) as [H4 Hpo].
      destruct (_replace_special_placeholders _ d3 _) as [d4 po].
      cbn [fst snd] in *.
      unfold digital_sequence_preprocessing.
      rewrite keys_update_values by now rewrite H4, H3, H2.
      rewrite H4, Hpo, Hpc, Hsc, H3, H2. auto.
    + unfold digital_sequence_preprocessing.
      rewrite keys_update_values by exact Hd2. auto.
  - intros pc sc po aws. unfold restore_all.
    set (d1 := if auto_process_text_code_segment config then _ else _).
    assert (H1 : keys d1 = keys text_dict).
    { subst d1. destruct (auto_process_text_code_segment config);
        [|reflexivity].
      unfold _restore_affixes, _restore_special_placeholders.
      rewrite keys_for_items; rewrite keys_for_items; auto. }
    set (d2 := if post_translation_switch config then _ else _).
    assert (H2 : keys d2 = keys text_dict).
    { subst d2. destruct (post_translation_switch config); [|exact H1].
      unfold replace_after_translation.
      rewrite keys_update_values; [exact H1 | now rewrite H1]. }
    unfold restore_affix_whitespace, digital_sequence_recovery.
    rewrite keys_for_items; rewrite keys_update_values; rewrite ?H2; auto.
Qed.

Lemma batch_keys_preserved_witness :
  let text_dict := [(u "k1", u "  Hello @\r\nworld"); (u "k2", u "1. Hello")] in
  distinct (keys text_dict) = true
  /\ (exists masked prefix_codes suffix_codes placeholder_order
             affix_whitespace_storage,
         replace_all 20 marker_processor code_segments_on (u "en") text_dict
         = Some (masked, prefix_codes, suffix_codes, placeholder_order,
                 affix_whitespace_storage)
         /\ keys masked = [u "k1"; u "k2"]
         /\ keys placeholder_order = [u "k1"; u "k2"])
  /\ keys (restore_all marker_processor code_segments_on text_dict
                       [] [] [] [])
     = [u "k1"; u "k2"].
Proof.
  intros text_dict. split; [reflexivity|].
  pose proof (batch_keys_preserved 20 marker_processor code_segments_on
                (u "en") text_dict eq_refl) as [H1 H2].
  split; [|exact (H2 [] [] [] [])].
  destruct (replace_all 20 marker_processor code_segments_on (u "en")
                        text_dict)
    as [[[[[masked pc] sc] po] aws]|] eqn:E;
    [|vm_compute in E; discriminate].
  exists masked, pc, sc, po, aws. split; [reflexivity|].
  destruct H1 as (Hm & _ & _ & _ & Hpo). split; [exact Hm | exact Hpo].
Defined.

(** ** Entries without records *)

Lemma dict_get_In {V} (d : dict V) (k : str) (v : V) :
  dict_get d k = Some v -> In (k, v) d.
Proof.
  induction d as [|[k' v'] d IH]; simpl; [discriminate|].
  destruct (str_eqb k' k) eqn:E.
  - apply str_eqb_eq in E. subst k'. intros H. injection H as ->. now left.
  - intros H. right. auto.
Qed.

Lemma dict_get_for_items {V W} (f : str -> V -> W) (d : dict V) (k : str)
      (v : V) :
  NoDup (keys d) -> dict_get d k = Some v ->
  dict_get (for_items f d) k = Some (f k v).
Proof.
  intros Hd H. rewrite for_items_map by exact Hd.
  apply dict_get_In in H.
  exact (dict_get_map (fun kv => f (fst kv) (snd kv)) d k v Hd H).
Qed.

Lemma dict_get_update_values (f : str -> str) (d : dict str) (k v : str) :
  NoDup (keys d) -> dict_get d k = Some v ->
  dict_get (update_values f d) k = Some (f v).
Proof.
  intros Hd H. rewrite update_values_map by exact Hd.
  apply dict_get_In in H.
  exact (dict_get_map (fun kv => f (snd kv)) d k v Hd H).
Qed.

(** X19. An entry of the batch for which the records hold nothing (its
    key is in none of the four record dictionaries) goes through
    [restore_all] untouched by the placeholder, affix and white-space
    stages: what comes out is its text after the post-translation rules,
    if they are switched on, and the recovery of a leading ordinal. *)
Theorem restore_all_passes_unrecorded_entries
        (self : TextProcessor) (config : Config) (text_dict : dict str)
        (prefix_codes : dict (list PrefixCode))
        (suffix_codes : dict (list SuffixCode))
        (placeholder_order : dict (list PlaceholderRec))
        (affix_whitespace_storage : dict Info) (key text : str) :
  distinct (keys text_dict) = true ->
  dict_get text_dict key = Some text ->
  dict_get prefix_codes key = None ->
  dict_get suffix_codes key = None ->
  dict_get placeholder_order key = None ->
  dict_get affix_whitespace_storage key = None ->
  dict_get (restore_all self config text_dict prefix_codes suffix_codes
                        placeholder_order affix_whitespace_storage) key
  = Some (digital_sequence_recovery_text
            (if post_translation_switch config
             then apply_rules (post_translation_rules_compiled self) text
             else text)).
Proof.
  intros Hd Ht Hpc Hsc Hpo Haws. apply distinct_NoDup in Hd.
  unfold restore_all.
  set (d1 := if auto_process_text_code_segment config then _ else _).
  assert (H1 : NoDup (keys d1) /\ dict_get d1 key = Some text).
  { subst d1. destruct (auto_process_text_code_segment config); [|auto].
    unfold _restore_affixes, _restore_special_placeholders. split.
    - rewrite keys_for_items; rewrite keys_for_items; auto.
    - erewrite dict_get_for_items;
        [| now rewrite keys_for_items
         | apply dict_get_for_items; [exact Hd | exact Ht]].
      unfold dict_get_default. rewrite Hpc, Hsc, Hpo.
      cbn. now rewrite app_nil_r. }
  destruct H1 as [Hd1 Ht1].
  set (d2 := if post_translation_switch config then _ else _).
  assert (H2 : NoDup (keys d2)
               /\ dict_get d2 key
                  = Some (if post_translation_switch config
                          then apply_rules (post_translation_rules_compiled self)
                                           text
                          else text)).
  { subst d2. destruct (post_translation_switch config); [|auto].
    unfold replace_after_translation. split.
    - now rewrite keys_update_values.
    - now apply dict_get_update_values. }
  destruct H2 as [Hd2 Ht2].
  unfold restore_affix_whitespace, digital_sequence_recovery.
  erewrite dict_get_for_items;
    [| now rewrite keys_update_values
     | apply dict_get_update_values; [exact Hd2 | exact Ht2]].
  now rewrite Haws.
Qed.

Lemma restore_all_passes_unrecorded_entries_witness :
  let text_dict := [(u "k1", u "【1】 x"); (u "k2", u "y")] in
  let prefix_codes := [(u "k2", [{| pc_prefix := u "@"; pc_pattern := [] |}])] in
  distinct (keys text_dict) = true
  /\ dict_get text_dict (u "k1") = Some (u "【1】 x")
  /\ dict_get prefix_codes (u "k1") = None
  /\ restore_all marker_processor code_segments_on text_dict prefix_codes
                 [] [] []
     = [(u "k1", u "1. x"); (u "k2", u "@y")]
  /\ dict_get (restore_all marker_processor code_segments_on text_dict
                           prefix_codes [] [] []) (u "k1")
     = Some (u "1. x").
Proof.
  intros text_dict prefix_codes.
  split; [reflexivity|]. split; [reflexivity|]. split; [reflexivity|].
  split; [reflexivity|].
  exact (restore_all_passes_unrecorded_entries marker_processor
           code_segments_on text_dict prefix_codes [] [] [] (u "k1")
           (u "【1】 x") eq_refl eq_refl eq_refl eq_refl eq_refl eq_refl).
Defined.

(** ** Stages that write into the dictionary they are given *)

Lemma nth_error_set_nth_other (h : Obj.heap) (r r' : nat) (x : dict str) :
  r' <> r -> nth_error (Obj.set_nth r x h) r' = nth_error h r'.
Proof.
  revert r r'; induction h as [|y h IH]; intros [|r] [|r'] H; simpl;
    try reflexivity; try congruence.
  apply IH. congruence.
Qed.

Lemma length_set_nth (h : Obj.heap) (r : nat) (x : dict str) :
  length (Obj.set_nth r x h) = length h.
Proof.
  revert r; induction h as [|y h IH]; intros [|r]; simpl; auto.
Qed.

(** X20. [digital_sequence_preprocessing] and
    [digital_sequence_recovery] write into the dictionary object they
    are given and return that same object: after the call the caller's
    dictionary holds the rewritten texts, no object is created and no
    other object changes.  [replace_before_translation] works on a copy:
    it returns a new object and leaves the one it was given as it was. *)
Theorem digital_sequence_stages_write_in_place
        (h : Obj.heap) (text_dict : Obj.ref) (d : dict str) :
  nth_error h text_dict = Some d ->
  (exists h',
      Pipeline.digital_sequence_preprocessing text_dict h
      = Some (text_dict, h')
      /\ nth_error h' text_dict = Some (digital_sequence_preprocessing d)
      /\ length h' = length h
      /\ forall r, r <> text_dict -> nth_error h' r = nth_error h r)
  /\ (exists h',
         Pipeline.digital_sequence_recovery text_dict h = Some (text_dict, h')
         /\ nth_error h' text_dict = Some (digital_sequence_recovery d)
         /\ length h' = length h
         /\ forall r, r <> text_dict -> nth_error h' r = nth_error h r)
  /\ (forall self,
         exists h',
           Pipeline.replace_before_translation self text_dict h
           = Some (length h, h')
           /\ nth_error h' (length h)
              = Some (replace_before_translation self d)
           /\ forall r, r < length h -> nth_error h' r = nth_error h r).
Proof.
  intros Hr. split; [|split].
  - eexists. split; [exact (ObjFacts.digital_sequence_preprocessing_runs h _ d Hr)|].
    split; [exact (ObjFacts.nth_error_set_nth_same h _ d _ Hr)|].
    split; [apply length_set_nth|]. intros r Hne.
    now apply nth_error_set_nth_other.
  - eexists. split; [exact (ObjFacts.digital_sequence_recovery_runs h _ d Hr)|].
    split; [exact (ObjFacts.nth_error_set_nth_same h _ d _ Hr)|].
    split; [apply length_set_nth|]. intros r Hne.
    now apply nth_error_set_nth_other.
  - intros self. eexists.
    split; [exact (ObjFacts.replace_before_translation_runs h _ d Hr self)|].
    split.
    + rewrite nth_error_app2, Nat.sub_diag by lia. reflexivity.
    + intros r Hlt. now rewrite nth_error_app1.
Qed.

Lemma digital_sequence_stages_write_in_place_witness :
  let d := [(u "k", u "1. Hello")] in
  nth_error [d] 0 = Some d
  /\ Pipeline.digital_sequence_preprocessing 0 [d]
     = Some (0, [[(u "k", u "【1】 Hello")]])
  /\ exists h',
      Pipeline.digital_sequence_preprocessing 0 [d] = Some (0, h')
      /\ nth_error h' 0 = Some (digital_sequence_preprocessing d).
Proof.
  intros d. split; [reflexivity|]. split; [reflexivity|].
  destruct (digital_sequence_stages_write_in_place [d] 0 d eq_refl)
    as [(h' & E & Hh & _) _].
  exists h'. split; [exact E | exact Hh].
Defined.

(** ** The constructor *)

(** X21. Without the regex library the constructor fails: when the
    file cannot be read, [__init__] raises for every configuration, also
    for one without rules and without exclusion list; nothing guards
    the reading of the file. *)
Theorem constructor_needs_regex_library
        (re_compile : str -> Flags -> option Pattern) (config : Config) :
  exists e, __init__ re_compile None config = Raise e.
Proof.
  unfold __init__.
  destruct (_compile_translation_rules re_compile (pre_translation_data config));
    cbn [rbind]; [|eauto].
  destruct (_compile_translation_rules re_compile (post_translation_data config));
    cbn [rbind _prepare_code_pattern_strings]; eauto.
Qed.

(** X22. When the regex library is read and every regular expression
    involved compiles (those of the rules, and the patterns built from
    the library and from the exclusion list), the constructor returns a
    processor that holds every pre- and post-translation rule, in
    order, and one compiled pattern for every pattern string built. *)
Theorem constructor_compiles_everything
        (re_compile : str -> Flags -> option Pattern)
        (data : list (option str)) (config : Config)
        (code_pattern_strings : list str) :
  Forall (rule_compiles re_compile)
         (match pre_translation_data config with
          | Some rules => rules | None => [] end) ->
  Forall (rule_compiles re_compile)
         (match post_translation_data config with
          | Some rules => rules | None => [] end) ->
  _prepare_code_pattern_strings (exclusion_list_data config) (Some data)
  = Ok code_pattern_strings ->
  Forall (fun s => exists p, re_compile s IGNORECASE_MULTILINE = Some p)
         (_build_dynamic_pattern_strings code_pattern_strings) ->
  exists self,
    __init__ re_compile (Some data) config = Ok self
    /\ map cr_rule (pre_translation_rules_compiled self)
       = match pre_translation_data config with
         | Some rules => rules | None => [] end
    /\ map cr_rule (post_translation_rules_compiled self)
       = match post_translation_data config with
         | Some rules => rules | None => [] end
    /\ length (auto_compiled_patterns self)
       = length (_build_dynamic_pattern_strings code_pattern_strings).
Proof.
  intros Hpre Hpost Hprep Hauto. unfold __init__.
  destruct (compile_translation_rules_ok re_compile _ Hpre) as (pre & -> & Epre).
  destruct (compile_translation_rules_ok re_compile _ Hpost)
    as (post & -> & Epost).
  cbn [rbind]. rewrite Hprep. cbn [rbind].
  destruct (compile_all_ok re_compile _ _ Hauto) as (ps & -> & Hlen).
  cbn [rbind]. eexists. split; [reflexivity|].
  cbn [pre_translation_rules_compiled post_translation_rules_compiled
       auto_compiled_patterns].
  rewrite build_dynamic_pattern_strings_not_empty in Hlen. auto.
Qed.

Lemma constructor_compiles_everything_witness :
  let re_compile := re_compile_rejecting (u "(") in
  let config :=
    {| pre_translation_switch := true;
       post_translation_switch := false;
       auto_process_text_code_segment := true;
       target_platform := u "openai";
       pre_translation_data :=
         Some [literal_rule (u "a") (u "b");
               rule_with_regex (u "x") (u "y") (u "x+")];
       post_translation_data := None;
       exclusion_list_data :=
         Some [{| ex_regex := None; ex_markers := Some (u "#") |}] |} in
  _prepare_code_pattern_strings (exclusion_list_data config)
                                (Some [Some (u "@"); None; Some []])
  = Ok [u "@"; u "\\#"]
  /\ exists self,
      __init__ re_compile (Some [Some (u "@"); None; Some []]) config = Ok self
      /\ map cr_rule (pre_translation_rules_compiled self)
         = [literal_rule (u "a") (u "b");
            rule_with_regex (u "x") (u "y") (u "x+")]
      /\ length (auto_compiled_patterns self) = 2.
Proof.
  intros re_compile config.
  assert (Hprep : _prepare_code_pattern_strings
                    (exclusion_list_data config)
                    (Some [Some (u "@"); None; Some []])
                  = Ok [u "@"; u "\\#"]) by reflexivity.
  split; [exact Hprep|].
  assert (Hpre : Forall (rule_compiles re_compile)
                        (match pre_translation_data config with
                         | Some rules => rules | None => [] end)).
  { repeat constructor. unfold rule_compiles. cbn. eexists. reflexivity. }
  assert (Hpost : Forall (rule_compiles re_compile)
                         (match post_translation_data config with
                          | Some rules => rules | None => [] end))
    by constructor.
  assert (Hauto : Forall (fun s => exists p,
                              re_compile s IGNORECASE_MULTILINE = Some p)
                         (_build_dynamic_pattern_strings [u "@"; u "\\#"])).
  { repeat constructor; eexists; reflexivity. }
  destruct (constructor_compiles_everything re_compile _ config _
              Hpre Hpost Hprep Hauto) as (self & E & H1 & _ & H3).
  exists self. split; [exact E|]. split; [exact H1 | exact H3].
Defined.

(** ** Counts in the record of a text of several tags *)

Lemma extract_fold_counts (t : str) (items : list (nat * (nat * nat))) :
  forall st,
    let st' := fold_left (extract_step t) items st in
    length (xs_separators st') = length (xs_separators st) + length items
    /\ length (xs_tag_infos st')
       = length (xs_tag_infos st)
         + length (filter (fun im => recognized (group0 t (snd im))) items)
    /\ length (xs_extracted_contents st') + length (xs_tag_infos st)
       = length (xs_extracted_contents st) + length (xs_tag_infos st').
Proof.
  induction items as [|im items IH]; intros st; cbn [fold_left filter length].
  - cbv zeta. lia.
  - specialize (IH (extract_step t st im)). cbv zeta in *.
    destruct IH as (H1 & H2 & H3).
    assert (Hs : length (xs_separators (extract_step t st im))
                 = S (length (xs_separators st))
                 /\ length (xs_tag_infos (extract_step t st im))
                    = length (xs_tag_infos st)
                      + (if recognized (group0 t (snd im)) then 1 else 0)
                 /\ length (xs_extracted_contents (extract_step t st im))
                      + length (xs_tag_infos st)
                    = length (xs_extracted_contents st)
                      + length (xs_tag_infos (extract_step t st im))).
    { unfold extract_step, recognized.
      destruct (RE_COLON_TAG_match (group0 t (snd im))) as [[[g1 g2] g3]|];
        [|destruct (RE_SIMPLE_TAG_match (group0 t (snd im)))];
        cbn [xs_separators xs_tag_infos xs_extracted_contents];
        rewrite ?length_app; cbn [length]; lia. }
    destruct Hs as (Hs1 & Hs2 & Hs3).
    destruct (recognized (group0 t (snd im))); cbn [length]; lia.
Qed.

(** X23. The record of a text of several tags holds one separator for
    every tag found and one more for the text after the last tag, and
    one tag entry for every tag that is a colon tag or a simple tag;
    [tag_count] is the number of entries.  So the separators number one
    more than the entries exactly when no tag is skipped. *)
Theorem multi_tag_record_counts (text payload : str)
        (tag_infos : list TagEntry) (separators : list str) (tag_count : nat) :
  _process_multiple_tags_only text
  = (payload, Some (multiple_tags_info tag_infos separators tag_count)) ->
  2 <= length (tags_of text)
  /\ length separators = S (length (tags_of text))
  /\ tag_count = length tag_infos
  /\ length tag_infos = length (filter recognized (tags_of text)).
Proof.
  unfold _process_multiple_tags_only, tags_of. cbv zeta.
  set (t := _remove_comments text).
  set (matches := RE_MULTI_TAG_finditer t).
  destruct (length matches <? 2) eqn:Elen; [discriminate|].
  apply Nat.ltb_ge in Elen.
  destruct (negb _); [discriminate|].
  destruct (strip _); [|discriminate].
  intros H. injection H as _ <- <- <-.
  pose proof (extract_fold_counts t (enumerate matches)
                {| xs_tag_infos := []; xs_extracted_contents := [];
                   xs_separators := []; xs_last_end := 0 |}) as Hc.
  cbv zeta in Hc. cbn [xs_separators xs_tag_infos length Nat.add] in Hc.
  destruct Hc as (H1 & H2 & _).
  assert (Hen : length (enumerate matches) = length matches).
  { unfold enumerate. rewrite length_combine, length_seq. lia. }
  rewrite length_map, length_app, H1, Hen. cbn [length].
  repeat split; try lia.
  rewrite H2. unfold enumerate. clear.
  generalize 0. induction matches as [|m ms IH]; intros k; [reflexivity|].
  cbn [length seq combine filter map snd].
  destruct (recognized (group0 t m)); cbn [length]; now rewrite IH.
Qed.

Lemma multi_tag_record_counts_witness :
  let tag_infos :=
    [{| te_index := 1; te_tag_type := colon_tag;
        te_tag_prefix := u "<b:"; te_tag_suffix := u ">"; te_full_tag := [];
        te_content_leading_whitespace := [];
        te_content_trailing_whitespace := [] |}] in
  let separators := [[]; u "<:a>"; []] in
  _process_multiple_tags_only (u "<:a><b:c>")
  = (u "c", Some (multiple_tags_info tag_infos separators 1))
  /\ tags_of (u "<:a><b:c>") = [u "<:a>"; u "<b:c>"]
  /\ length separators = S (length (tags_of (u "<:a><b:c>")))
  /\ length tag_infos = length (filter recognized (tags_of (u "<:a><b:c>")))
  /\ _restore_tag_content (u "c")
       (Some (multiple_tags_info tag_infos separators 1))
     = u "<b:c><:a>".
Proof.
  intros tag_infos separators.
  assert (H : _process_multiple_tags_only (u "<:a><b:c>")
              = (u "c", Some (multiple_tags_info tag_infos separators 1)))
    by (vm_compute; reflexivity).
  split; [exact H|]. split; [vm_compute; reflexivity|].
  destruct (multi_tag_record_counts _ _ _ _ _ H) as (_ & H2 & _ & H4).
  split; [exact H2|]. split; [exact H4|]. vm_compute. reflexivity.
Defined.

(** ** Masking and restoring with one pattern *)

Lemma uint_digits (d : Decimal.uint) :
  Forall (fun c => (48 <= c <= 57)%N)
         (map N_of_ascii (list_ascii_of_string (NilEmpty.string_of_uint d))).
Proof. induction d; cbn; constructor; try assumption; cbn; lia. Qed.

Lemma str_of_nat_digits (n : nat) :
  Forall (fun c => (48 <= c <= 57)%N) (str_of_nat n).
Proof.
  unfold str_of_nat, NilZero.string_of_uint.
  destruct (Nat.to_uint n) as [|d|d|d|d|d|d|d|d|d|d].
  - cbn. constructor; [lia | constructor].
  - exact (uint_digits (Decimal.D0 d)).
  - exact (uint_digits (Decimal.D1 d)).
  - exact (uint_digits (Decimal.D2 d)).
  - exact (uint_digits (Decimal.D3 d)).
  - exact (uint_digits (Decimal.D4 d)).
  - exact (uint_digits (Decimal.D5 d)).
  - exact (uint_digits (Decimal.D6 d)).
  - exact (uint_digits (Decimal.D7 d)).
  - exact (uint_digits (Decimal.D8 d)).
  - exact (uint_digits (Decimal.D9 d)).
Qed.

Lemma map_N_of_ascii_inj (a b : list ascii) :
  map N_of_ascii a = map N_of_ascii b -> a = b.
Proof.
  revert b. induction a as [|x a IH]; intros [|y b] H; try discriminate.
  - reflexivity.
  - cbn [map] in H. injection H as Hx Hr. f_equal; [|now apply IH].
    rewrite <- (ascii_N_embedding x), <- (ascii_N_embedding y).
    now rewrite Hx.
Qed.

Lemma to_uint_not_Nil (n : nat) : Nat.to_uint n <> Decimal.Nil.
Proof.
  intros H. pose proof (DecimalNat.Unsigned.of_to n) as E.
  rewrite H in E. cbn in E. subst n. discriminate H.
Qed.

Lemma str_of_nat_inj (a b : nat) : str_of_nat a = str_of_nat b -> a = b.
Proof.
  unfold str_of_nat. intros H. apply map_N_of_ascii_inj in H.
  apply (f_equal string_of_list_ascii) in H.
  rewrite !string_of_list_ascii_of_string in H.
  apply (f_equal NilZero.uint_of_string) in H.
  rewrite !NilZero.usu in H by apply to_uint_not_Nil.
  injection H as H. now apply DecimalNat.Unsigned.to_uint_inj.
Qed.

Lemma placeholder_token_eq (n : nat) :
  placeholder_token n = (91 :: 80 :: str_of_nat n ++ [93])%N.
Proof.
  unfold placeholder_token.
  assert (E1 : u "[P" = [91; 80]%N) by (vm_compute; reflexivity).
  assert (E2 : u "]" = [93]%N) by (vm_compute; reflexivity).
  now rewrite E1, E2.
Qed.

Lemma startswith_digits (dx : str) :
  forall dy W,
    Forall (fun c => (48 <= c <= 57)%N) dx ->
    Forall (fun c => (48 <= c <= 57)%N) dy ->
    startswith (dx ++ [93%N]) (dy ++ 93%N :: W) = true -> dx = dy.
Proof.
  induction dx as [|x dx IH]; intros [|y dy] W Hx Hy H.
  - reflexivity.
  - inversion Hy; subst. cbn [app startswith] in H.
    destruct (N.eqb_spec 93 y); [lia | discriminate H].
  - inversion Hx; subst. cbn [app startswith] in H.
    destruct (N.eqb_spec x 93); [lia | discriminate H].
  - inversion Hx; subst. inversion Hy; subst.
    cbn [app startswith] in H. apply andb_prop in H as [E H].
    apply N.eqb_eq in E. subst. f_equal. now apply (IH dy W).
Qed.

Lemma placeholder_token_startswith (x y : nat) (W : str) :
  startswith (placeholder_token x) (placeholder_token y ++ W) = true -> x = y.
Proof.
  rewrite !placeholder_token_eq. cbn [app startswith]. rewrite !N.eqb_refl.
  cbn [andb]. rewrite <- app_assoc. cbn [app]. intros H.
  apply str_of_nat_inj.
  apply (startswith_digits _ _ W); [apply str_of_nat_digits .. | exact H].
Qed.

Lemma find_skip (c : char) (n' s W : str) :
  ~ In c s ->
  find (c :: n') (s ++ W)
  = option_map (fun j => length s + j) (find (c :: n') W).
Proof.
  induction s as [|x s IH]; intros H.
  - cbn [app length Nat.add]. now destruct (find (c :: n') W).
  - cbn [app find startswith]. destruct (N.eqb_spec c x).
    + subst. exfalso. apply H. now left.
    + cbn [andb]. rewrite IH by (intros H'; apply H; now right).
      now destruct (find (c :: n') W).
Qed.

Lemma transparent_nil (g : nat) : transparent g [].
Proof.
  intros x W _. cbn [app length Nat.add].
  now destruct (find (placeholder_token x) W).
Qed.

Lemma transparent_app (g : nat) (a b : str) :
  transparent g a -> transparent g b -> transparent g (a ++ b).
Proof.
  intros Ha Hb x W Hx. rewrite <- app_assoc, (Ha x _ Hx), (Hb x _ Hx).
  rewrite length_app. destruct (find (placeholder_token x) W); cbn; [|reflexivity].
  f_equal. lia.
Qed.

Lemma transparent_clean (g : nat) (s : str) : ~ In 91%N s -> transparent g s.
Proof.
  intros H x W _. rewrite placeholder_token_eq. now apply find_skip.
Qed.

Lemma transparent_token (g y : nat) : y <= g -> transparent g (placeholder_token y).
Proof.
  intros Hy x W Hx.
  assert (Hs : startswith (placeholder_token x) (placeholder_token y ++ W) = false).
  { destruct (startswith _ _) eqn:E; [|reflexivity].
    apply placeholder_token_startswith in E. lia. }
  revert Hs. rewrite (placeholder_token_eq y).
  set (s := (80 :: str_of_nat y ++ [93])%N).
  change ((91 :: s)%N ++ W) with (91%N :: (s ++ W)).
  intros Hs. cbn [find]. rewrite Hs.
  rewrite placeholder_token_eq. rewrite find_skip.
  - cbn [length]. now destruct (find _ W).
  - unfold s. intros [E|Hin]; [discriminate|].
    apply in_app_or in Hin as [Hin|[E|[]]]; [|discriminate].
    pose proof (str_of_nat_digits y) as Hd. rewrite Forall_forall in Hd.
    specialize (Hd _ Hin). lia.
Qed.

Lemma transparent_mono (g g' : nat) (out : str) :
  g <= g' -> transparent g out -> transparent g' out.
Proof. intros Hg H x W Hx. apply H. lia. Qed.

Lemma find_placeholder_token_here (x : nat) (W : str) :
  find (placeholder_token x) (placeholder_token x ++ W) = Some 0.
Proof.
  pose proof (startswith_self_app (placeholder_token x) W) as H.
  revert H. rewrite (placeholder_token_eq x) at 2 4. cbn [app find].
  now intros ->.
Qed.

Lemma restore_placeholders_snoc (recs : list PlaceholderRec)
      (r : PlaceholderRec) (t : str) :
  restore_placeholders (r :: recs) t
  = restore_placeholders [r] (restore_placeholders recs t).
Proof.
  unfold restore_placeholders. cbn [rev app]. now rewrite fold_left_app.
Qed.

Lemma restore_placeholders_found (ph orig pat t : str) (i : nat) :
  find ph t = Some i ->
  restore_placeholders
    [{| ph_placeholder := ph; ph_original := orig; ph_pattern := pat |}] t
  = firstn i t ++ orig ++ skipn (i + length ph) t.
Proof.
  intros H. unfold restore_placeholders, contains, replace_first.
  cbn [rev app fold_left ph_placeholder ph_original]. now rewrite H.
Qed.

Lemma slice_clean (c : char) (a b : nat) (text : str) :
  ~ In c text -> ~ In c (slice a b text).
Proof.
  intros H Hin. apply H. unfold slice in Hin.
  apply In_firstn_elim in Hin. now apply In_skipn_elim in Hin.
Qed.

Lemma replacer_outside_sakura (target_platform : str) (pattern_obj : Pattern)
      (st : MaskState) (match_group0 : str) :
  str_eqb target_platform (u "sakura") = false ->
  replacer_for_this_pattern target_platform pattern_obj st match_group0
  = if 50 <=? global_match_count st then (match_group0, st)
    else (placeholder_token (global_match_count st + 1),
          {| global_match_count := global_match_count st + 1;
             sakura_match_count := sakura_match_count st + 1;
             single_pattern_replacements :=
               single_pattern_replacements st
                 ++ [{| ph_placeholder :=
                          placeholder_token (global_match_count st + 1);
                        ph_original := match_group0;
                        ph_pattern := pattern pattern_obj |}] |}).
Proof. intros H. unfold replacer_for_this_pattern. now rewrite H. Qed.

Lemma sub_loop_restores (target_platform : str) (pattern_obj : Pattern)
      (text : str) :
  str_eqb target_platform (u "sakura") = false ->
  ~ In 91%N text ->
  forall spans pos out st,
    spans_ok pos spans ->
    transparent (global_match_count st) out ->
    let '(t, st') :=
      sub_loop (replacer_for_this_pattern target_platform pattern_obj)
               text spans pos out st in
    exists new,
      single_pattern_replacements st' = single_pattern_replacements st ++ new
      /\ restore_placeholders new t = out ++ skipn pos text.
Proof.
  intros Htp Htext.
  induction spans as [|m spans IH]; intros pos out st Hs Ht; cbn [sub_loop].
  - exists []. rewrite app_nil_r. split; reflexivity.
  - destruct Hs as (H1 & H2 & Hs).
    rewrite replacer_outside_sakura by exact Htp.
    destruct (50 <=? global_match_count st).
    + specialize (IH (snd m) (out ++ slice pos (fst m) text ++ group0 text m)
                     st Hs).
      destruct (sub_loop _ text spans (snd m) _ st) as [t st'].
      destruct IH as (new & Hn & Hr).
      { apply transparent_app; [exact Ht|].
        apply transparent_app; apply transparent_clean;
          now apply slice_clean. }
      exists new. split; [exact Hn|]. rewrite Hr, <- !app_assoc.
      unfold group0. now rewrite !slice_skipn.
    + set (g := global_match_count st + 1).
      set (r := {| ph_placeholder := placeholder_token g;
                   ph_original := group0 text m;
                   ph_pattern := pattern pattern_obj |}).
      set (st1 := {| global_match_count := g;
                     sakura_match_count := sakura_match_count st + 1;
                     single_pattern_replacements :=
                       single_pattern_replacements st ++ [r] |}).
      specialize (IH (snd m)
                     (out ++ slice pos (fst m) text ++ placeholder_token g)
                     st1 Hs).
      destruct (sub_loop _ text spans (snd m) _ st1) as [t st'].
      destruct IH as (new & Hn & Hr).
      { cbn [st1 global_match_count].
        apply transparent_app;
          [apply (transparent_mono (global_match_count st)); [lia | exact Ht]|].
        apply transparent_app;
          [apply transparent_clean; now apply slice_clean|].
        now apply transparent_token. }
      exists (r :: new). cbn [st1 single_pattern_replacements] in Hn.
      split; [now rewrite Hn, <- app_assoc|].
      rewrite restore_placeholders_snoc, Hr.
      unfold r.
      rewrite (restore_placeholders_found _ _ _ _
                 (length out + (length (slice pos (fst m) text) + 0))).
      * rewrite <- !app_assoc, Nat.add_0_r.
        rewrite firstn_app, firstn_all2 by lia.
        replace (length out + length (slice pos (fst m) text) - length out)
          with (length (slice pos (fst m) text)) by lia.
        rewrite firstn_app, firstn_all2 by lia.
        rewrite Nat.sub_diag, firstn_O, app_nil_r.
        rewrite <- !app_assoc. f_equal.
        rewrite <- Nat.add_assoc, skipn_app.
        rewrite skipn_all2 by lia.
        replace (length out + _ - length out)
          with (length (slice pos (fst m) text) + length (placeholder_token g))
          by lia.
        rewrite skipn_app, skipn_all2 by lia.
        replace (length (slice pos (fst m) text) + _ - length (slice pos (fst m) text))
          with (length (placeholder_token g)) by lia.
        rewrite skipn_app, skipn_all, Nat.sub_diag, skipn_O. cbn [app].
        unfold group0. now rewrite !slice_skipn.
      * rewrite <- !app_assoc.
        rewrite (Ht g _ ltac:(unfold g; lia)).
        rewrite (transparent_clean 0 _ (slice_clean _ pos (fst m) _ Htext) g)
          by (unfold g; lia).
        now rewrite find_placeholder_token_here.
Qed.

Lemma mask_single_pattern (target_platform : str) (pattern_obj : Pattern)
      (text : str) (global sakura : nat) :
  str_eqb target_platform (u "sakura") = false ->
  ~ In 91%N text ->
  spans_ok 0 (p_finditer pattern_obj text) ->
  let '(t, entry, global') :=
    mask_patterns target_platform [pattern_obj] text [] global sakura in
  restore_placeholders entry t = text.
Proof.
  intros Htp Htext Hs. cbn [mask_patterns]. unfold sub_callable.
  pose proof (sub_loop_restores target_platform pattern_obj text Htp Htext
                (p_finditer pattern_obj text) 0 []
                {| global_match_count := global; sakura_match_count := sakura;
                   single_pattern_replacements := [] |}
                Hs (transparent_nil _)) as H.
  destruct (sub_loop _ text (p_finditer pattern_obj text) 0 [] _) as [t st].
  destruct H as (new & Hn & Hr).
  cbn [single_pattern_replacements app skipn] in Hn, Hr.
  destruct (50 <=? global_match_count st); cbn [app]; now rewrite Hn.
Qed.

Lemma mask_entries_restore (target_platform : str) (pattern_obj : Pattern)
      (items : list (str * str)) :
  str_eqb target_platform (u "sakura") = false ->
  Forall (fun kv => ~ In 91%N (snd kv)
                    /\ spans_ok 0 (p_finditer pattern_obj (snd kv))) items ->
  forall new_dict placeholder_order global,
    NoDup (keys new_dict ++ keys items) ->
    keys placeholder_order = keys new_dict ->
    let '(new_dict', placeholder_order', global') :=
      mask_entries target_platform [pattern_obj] items
                   (new_dict, placeholder_order, global) in
    exists masked : list (str * (str * list PlaceholderRec)),
      new_dict' = new_dict ++ map (fun e => (fst e, fst (snd e))) masked
      /\ placeholder_order'
         = placeholder_order ++ map (fun e => (fst e, snd (snd e))) masked
      /\ map (fun e => (fst e,
                        restore_placeholders (snd (snd e)) (fst (snd e))))
             masked
         = items.
Proof.
  intros Htp. unfold mask_entries.
  induction items as [|[key text] items IH]; intros Hall nd po g Hnd Hk.
  - exists []. cbn. now rewrite !app_nil_r.
  - inversion Hall as [|? ? [Htext Hs] Hall']; subst. cbn [snd] in Htext, Hs.
    cbn [fold_left mask_entry fst snd].
    pose proof (mask_single_pattern target_platform pattern_obj text g 0
                  Htp Htext Hs) as H1.
    destruct (mask_patterns target_platform [pattern_obj] text [] g 0)
      as [[t1 e1] g1].
    assert (Hkey : ~ In key (keys nd)).
    { cbn [keys map fst] in Hnd. apply NoDup_remove_2 in Hnd.
      intros Hin. apply Hnd. apply in_or_app. now left. }
    rewrite (dict_set_fresh nd) by exact Hkey.
    rewrite (dict_set_fresh po) by (now rewrite Hk).
    specialize (IH Hall' (nd ++ [(key, t1)]) (po ++ [(key, e1)]) g1).
    destruct (fold_left _ items _) as [[nd' po'] g'].
    destruct IH as (masked & -> & -> & Hm).
    { rewrite keys_app. cbn [keys map fst] in *.
      rewrite <- app_assoc. exact Hnd. }
    { rewrite !keys_app, Hk. reflexivity. }
    exists ((key, (t1, e1)) :: masked). cbn [map fst snd].
    rewrite <- !app_assoc, H1, Hm. auto.
Qed.

Lemma restore_masked (masked : list (str * (str * list PlaceholderRec))) :
  NoDup (map fst masked) ->
  _restore_special_placeholders
    (map (fun e => (fst e, fst (snd e))) masked)
    (map (fun e => (fst e, snd (snd e))) masked)
  = map (fun e => (fst e, restore_placeholders (snd (snd e)) (fst (snd e))))
        masked.
Proof.
  intros Hnd. unfold _restore_special_placeholders.
  rewrite for_items_map by (unfold keys; now rewrite map_map).
  rewrite map_map. apply map_ext_in. intros [k [t recs]] Hin. cbn [fst snd].
  f_equal. unfold dict_get_default.
  rewrite (dict_get_map (fun kv => snd (snd kv)) masked k (t, recs))
    by assumption.
  cbn [snd]. now destruct recs.
Qed.

(** X24. With a single masking pattern, outside the sakura mode, masking
    a batch and restoring the masked batch as it is gives the batch back,
    whatever the number of matches (also beyond the cap of 50), provided
    no text holds an opening square bracket. *)
Theorem single_pattern_placeholder_round_trip (target_platform : str)
        (pattern_obj : Pattern) (text_dict : dict str) :
  str_eqb target_platform (u "sakura") = false ->
  distinct (keys text_dict) = true ->
  forallb (fun kv =>
             forallb (fun c => negb (c =? 91)%N) (snd kv)
             && spans_okb 0 (p_finditer pattern_obj (snd kv)))
          text_dict = true ->
  let '(new_dict, placeholder_order) :=
    _replace_special_placeholders target_platform text_dict [pattern_obj] in
  _restore_special_placeholders new_dict placeholder_order = text_dict.
Proof.
  intros Htp Hd Hall. apply distinct_NoDup in Hd.
  unfold _replace_special_placeholders, replace_special_placeholders_run.
  assert (Hall' : Forall (fun kv => ~ In 91%N (snd kv)
                            /\ spans_ok 0 (p_finditer pattern_obj (snd kv)))
                         text_dict).
  { apply Forall_forall. intros kv Hin. rewrite forallb_forall in Hall.
    specialize (Hall _ Hin). apply andb_prop in Hall as [H1 H2].
    split; [now apply forallb_not_In | now apply spans_okb_ok]. }
  pose proof (mask_entries_restore target_platform pattern_obj text_dict Htp
                Hall' [] [] 0 Hd eq_refl) as H.
  destruct (mask_entries _ _ _ _) as [[nd po] g].
  destruct H as (masked & -> & -> & Hm). cbn [fst app].
  rewrite restore_masked; [exact Hm|].
  rewrite <- Hm in Hd. unfold keys in Hd. now rewrite map_map in Hd.
Qed.

Lemma single_pattern_placeholder_round_trip_witness :
  let text_dict := [(u "k1", u "a@b@"); (u "k2", u "@c")] in
  let masked := [(u "k1", u "a[P1]b[P2]"); (u "k2", u "[P3]c")] in
  exists placeholder_order,
    _replace_special_placeholders (u "openai") text_dict
                                  [marker_pattern (u "@")]
    = (masked, placeholder_order)
    /\ _restore_special_placeholders masked placeholder_order = text_dict.
Proof.
  intros text_dict masked.
  pose proof (single_pattern_placeholder_round_trip
                (u "openai") (marker_pattern (u "@")) text_dict
                eq_refl eq_refl eq_refl) as H.
  destruct (_replace_special_placeholders (u "openai") text_dict
                                          [marker_pattern (u "@")])
    as [new_dict placeholder_order] eqn:E.
  vm_compute in E. injection E as <- <-.
  eexists. split; [reflexivity | exact H].
Defined.

(** ** A translation with too many or too few parts *)

Lemma restore_lines_agree (translated1 translated2 : list str)
      (lines_info : list LineInfo) :
  forall (restored_lines : list str) (translated_index : nat),
    (forall j,
        j < length (filter (fun li => negb (li_is_empty li)) lines_info) ->
        nth_error translated1 (translated_index + j)
        = nth_error translated2 (translated_index + j)) ->
    fold_left
      (fun acc line_info =>
         let '(restored_lines, translated_index) := acc in
         if li_is_empty line_info
         then (restored_lines ++ [li_original_whitespace line_info],
               translated_index)
         else
           match nth_error translated1 translated_index with
           | Some line =>
             (restored_lines ++ [li_prefix line_info ++ line
                                   ++ li_suffix line_info],
              translated_index + 1)
           | None => (restored_lines ++ [[]], translated_index)
           end)
      lines_info (restored_lines, translated_index)
    = fold_left
        (fun acc line_info =>
           let '(restored_lines, translated_index) := acc in
           if li_is_empty line_info
           then (restored_lines ++ [li_original_whitespace line_info],
                 translated_index)
           else
             match nth_error translated2 translated_index with
             | Some line =>
               (restored_lines ++ [li_prefix line_info ++ line
                                     ++ li_suffix line_info],
                translated_index + 1)
             | None => (restored_lines ++ [[]], translated_index)
             end)
        lines_info (restored_lines, translated_index).
Proof.
  induction lines_info as [|li lines_info IH]; intros acc idx H;
    [reflexivity|].
  cbn [fold_left filter] in *. destruct (li_is_empty li); cbn [negb] in H.
  - apply IH. exact H.
  - cbn [length] in H. pose proof (H 0 ltac:(lia)) as H0.
    rewrite Nat.add_0_r in H0. rewrite H0.
    destruct (nth_error translated2 idx).
    + apply IH. intros j Hj. specialize (H (S j) ltac:(lia)).
      now replace (idx + 1 + j) with (idx + S j) by lia.
    + apply IH. intros j Hj. apply H. lia.
Qed.

(** X25. Restoring the lines of a translation reads only as many
    translated lines as there are line records not marked empty: two
    translations that agree on these first lines are restored to the
    same text, so surplus lines of a translation are dropped. *)
Theorem surplus_translated_lines_dropped (info : Info) (text1 text2 : str) :
  let expected :=
    length (filter (fun li => negb (li_is_empty li)) (info_lines_info info)) in
  firstn expected (split_char LF text1) = firstn expected (split_char LF text2) ->
  _restore_multiline_text text1 info = _restore_multiline_text text2 info.
Proof.
  intros expected H. unfold _restore_multiline_text. cbv zeta.
  rewrite (restore_lines_agree (split_char LF text1) (split_char LF text2));
    [reflexivity|].
  intros j Hj. cbn [Nat.add]. fold expected in Hj.
  apply (f_equal (fun l => nth_error l j)) in H.
  rewrite !nth_error_firstn in H.
  apply Nat.ltb_lt in Hj. now rewrite Hj in H.
Qed.

Lemma surplus_translated_lines_dropped_witness :
  let info := snd (_process_multiline_text (u " a\nb ") (u "en")) in
  _restore_multiline_text (u "x\ny") info = u " x\ny "
  /\ _restore_multiline_text (u "x\ny\nz") info = u " x\ny ".
Proof.
  intros info.
  pose proof (surplus_translated_lines_dropped info (u "x\ny") (u "x\ny\nz")
                eq_refl) as R.
  split; [|rewrite <- R]; vm_compute; reflexivity.
Defined.

Lemma pad_parts (translated_parts0 : list str) (expected_count : nat) :
  (if length translated_parts0 =? expected_count then translated_parts0
   else firstn expected_count
          (translated_parts0
             ++ repeat [] (expected_count - length translated_parts0)))
  = firstn expected_count translated_parts0
      ++ repeat [] (expected_count - length translated_parts0).
Proof.
  destruct (Nat.eqb_spec (length translated_parts0) expected_count) as [E|E].
  - rewrite firstn_all2 by lia. subst. now rewrite Nat.sub_diag, app_nil_r.
  - rewrite firstn_app. f_equal.
    apply firstn_all2. now rewrite repeat_length.
Qed.

(** X26. Restoring a text of several tags reads only [tag_count] parts
    of the translated payload: parts beyond them are dropped, parts that
    are missing count as empty strings.  So two payloads that agree on
    the first [tag_count] parts are restored to the same text, and a
    payload without its last parts is restored as if they were empty. *)
Theorem surplus_tag_parts_dropped (tag_infos : list TagEntry)
        (separators : list str) (expected_count : nat) :
  (forall content1 content2,
      firstn expected_count (split TAG_SEPARATOR content1)
      = firstn expected_count (split TAG_SEPARATOR content2) ->
      _restore_multiple_tags content1 tag_infos separators expected_count
      = _restore_multiple_tags content2 tag_infos separators expected_count)
  /\ (forall content1 content2,
         split TAG_SEPARATOR content2
         = split TAG_SEPARATOR content1
             ++ repeat [] (expected_count
                           - length (split TAG_SEPARATOR content1)) ->
         _restore_multiple_tags content1 tag_infos separators expected_count
         = _restore_multiple_tags content2 tag_infos separators
                                  expected_count).
Proof.
  split; intros content1 content2 H; unfold _restore_multiple_tags; cbv zeta;
    rewrite !pad_parts.
  - rewrite H. apply (f_equal (@length str)) in H.
    rewrite !length_firstn in H.
    assert (E : expected_count - length (split TAG_SEPARATOR content1)
                = expected_count - length (split TAG_SEPARATOR content2))
      by lia.
    now rewrite E.
  - rewrite H, firstn_app, length_app, repeat_length.
    replace (expected_count
             - (length (split TAG_SEPARATOR content1)
                + (expected_count - length (split TAG_SEPARATOR content1))))
      with 0 by lia.
    cbn [repeat]. rewrite app_nil_r.
    now rewrite (firstn_all2 (repeat _ _)) by (rewrite repeat_length; lia).
Qed.

Lemma surplus_tag_parts_dropped_witness :
  let tag_infos :=
    [tag_entry 0 (u "<a:x>"); tag_entry 1 (u "<b:y>")] in
  let separators : list str := [[]; []; []] in
  _process_tag_content (u "<a:x><b:y>")
  = (u "x" ++ TAG_SEPARATOR ++ u "y",
     Some (multiple_tags_info tag_infos separators 2))
  /\ _restore_multiple_tags (u "X" ++ TAG_SEPARATOR ++ u "Y")
                            tag_infos separators 2
     = u "<a:X><b:Y>"
  /\ _restore_multiple_tags
       (u "X" ++ TAG_SEPARATOR ++ u "Y" ++ TAG_SEPARATOR ++ u "Z")
       tag_infos separators 2
     = u "<a:X><b:Y>"
  /\ _restore_multiple_tags (u "X") tag_infos separators 2 = u "<a:X><b:>".
Proof.
  intros tag_infos separators.
  pose proof (surplus_tag_parts_dropped tag_infos separators 2) as [R1 R2].
  pose proof (R1 (u "X" ++ TAG_SEPARATOR ++ u "Y" ++ TAG_SEPARATOR ++ u "Z")
                 (u "X" ++ TAG_SEPARATOR ++ u "Y") eq_refl) as E1.
  pose proof (R2 (u "X") (u "X" ++ TAG_SEPARATOR) eq_refl) as E2.
  split; [vm_compute; reflexivity|].
  split; [vm_compute; reflexivity|].
  split; [rewrite E1 | rewrite E2]; vm_compute; reflexivity.
Defined.
